(** * BST visualizer: the tree engine and the animation-frame generators

    A shallow embedding of [src/utils/bst.js] (the tree engine) and of the
    two frame generators of [src/App.tsx], with the properties the
    specification states about them.

    Modelling conventions.
    - A JavaScript [number] holding a tree value is an integer here ([Z]):
      the control panel only lets the digits of 1..99 through, and the
      engine compares values with [===] and [<] only.
    - A nullable [BSTNode] reference is the inductive type [tree]; nodes are
      exclusively owned, so assigning to [parent.left], [parent.right] or
      [this.root] is rebuilding the enclosing node around the new child.
      Each operation takes the root before the call and returns its result
      record together with the root after the call.
    - [array.push(v)] is [arr ++ [v]]; the closures that push into the
      arrays of their enclosing method thread those arrays explicitly.
    - The fields [x] and [y] of a node are scratch space of
      [getNodesForVisualization] and are read by no engine operation: they
      are produced by [assignPositions] below instead of being stored.
    - A JavaScript [number] holding a coordinate is the rational that the
      binary64 number denotes ([Q]); where the source computes one that
      need not be an integer, the exact result is rounded by [binary64]. *)

From Stdlib Require Import ZArith List String Bool Lia Permutation Sorted.
From Stdlib Require Import DecimalString QArith_base Qreduction Qcanon Lqa.
From Stdlib Require Import Qpower.
Import ListNotations.
Local Open Scope string_scope.
Local Open Scope list_scope.
Local Open Scope Z_scope.

(* ================================================================= *)
(** ** src/utils/bst.js *)

(** [class BSTNode]: a value and two nullable children. *)
Inductive tree : Type :=
| null
| BSTNode (value : Z) (left right : tree).

(** A number inside a template literal: its decimal digits. *)
Definition show_number (n : Z) : string :=
  NilZero.string_of_int (Z.to_int n).

(** [{ success, path, message }], the result of [insert] and [remove]. *)
Module Op.
Record result : Type :=
  { success : bool; path : list Z; message : string }.
End Op.

(** [{ found, path, message }], the result of [search]. *)
Module Search.
Record result : Type :=
  { found : bool; path : list Z; message : string }.
End Search.

(** [{ value, path, message }], the result of [findMin] and [findMax]. *)
Module MinMax.
Record result : Type :=
  { value : option Z; path : list Z; message : string }.
End MinMax.

(** [{ value, action }], one entry of a detailed traversal. *)
Module Step.
Record t : Type := { value : Z; action : string }.
End Step.

(** [{ values, message }], the result of a plain traversal. *)
Module Traversal.
Record result : Type := { values : list Z; message : string }.
End Traversal.

(** [{ steps, values, message }], the result of a detailed traversal. *)
Module Detailed.
Record result : Type :=
  { steps : list Step.t; values : list Z; message : string }.
End Detailed.

(** *** insert *)

(** The [while (true)] loop of [insert], started at [current].  The null
    case is the slot [current.left] / [current.right] of the previous
    iteration being null: the new node is stored there and its value pushed.
    Returns the success flag, the values pushed and the subtree after. *)
Fixpoint insert_loop (value : Z) (current : tree) : bool * list Z * tree :=
  match current with
  | null => (true, [value], BSTNode value null null)
  | BSTNode cv l r =>
      if value =? cv then (false, [cv], current)
      else if value <? cv then
        let '(ok, p, l') := insert_loop value l in
        (ok, cv :: p, BSTNode cv l' r)
      else
        let '(ok, p, r') := insert_loop value r in
        (ok, cv :: p, BSTNode cv l r')
  end.

Definition insert (value : Z) (root : tree) : Op.result * tree :=
  match root with
  | null =>
      ({| Op.success := true; Op.path := [value];
          Op.message := "Inserted " ++ show_number value ++ " as root" |},
       BSTNode value null null)
  | BSTNode _ _ _ =>
      let '(ok, p, root') := insert_loop value root in
      ({| Op.success := ok; Op.path := p;
          Op.message :=
            if ok then "Inserted " ++ show_number value
            else "Duplicate value " ++ show_number value ++ " not allowed" |},
       root')
  end.

(** *** search *)

Fixpoint search_loop (value : Z) (current : tree) : bool * list Z :=
  match current with
  | null => (false, [])
  | BSTNode cv l r =>
      if value =? cv then (true, [cv])
      else
        let '(fnd, p) := search_loop value (if value <? cv then l else r) in
        (fnd, cv :: p)
  end.

(** [search] assigns to no field of the tree: the root after is the root
    before. *)
Definition search (value : Z) (root : tree) : Search.result * tree :=
  let '(fnd, p) := search_loop value root in
  ({| Search.found := fnd; Search.path := p;
      Search.message :=
        if fnd then "Found " ++ show_number value
        else "Value " ++ show_number value ++ " not found" |},
   root).

(** *** remove *)

(** Which of the return statements of [remove] was taken. *)
Inductive removal : Type :=
| NotFound
| RemovedLeaf
| RemovedOneChild
| RemovedTwoChildren (successor : Z).

(** The successor descent of case 3, at the node [successor] with value [v]
    and children [l] and [r]: the values pushed, the successor's value, and
    what the slot that held this node holds afterwards.  When [l] is null
    the node is the successor and its slot receives [successor.right]; that
    slot is [current.right] when no step was taken
    ([successorParent === current]) and [successorParent.left] otherwise. *)
Fixpoint successor_loop (v : Z) (l r : tree) : list Z * Z * tree :=
  match l with
  | null => ([v], v, r)
  | BSTNode lv ll lr =>
      let '(p, sv, l') := successor_loop lv ll lr in
      (v :: p, sv, BSTNode v l' r)
  end.

(** The search loop of [remove] followed by the three cases, at [current];
    the tree returned is what the slot that held [current] holds
    afterwards. *)
Fixpoint remove_loop (value : Z) (current : tree) : removal * list Z * tree :=
  match current with
  | null => (NotFound, [], null)
  | BSTNode cv l r =>
      if negb (cv =? value) then
        if value <? cv then
          let '(k, p, l') := remove_loop value l in
          (k, cv :: p, BSTNode cv l' r)
        else
          let '(k, p, r') := remove_loop value r in
          (k, cv :: p, BSTNode cv l r')
      else
        match l, r with
        | null, null => (RemovedLeaf, [cv], null)
        | BSTNode _ _ _, null => (RemovedOneChild, [cv], l)
        | null, BSTNode _ _ _ => (RemovedOneChild, [cv], r)
        | BSTNode _ _ _, BSTNode rv rl rr =>
            let '(p, sv, r') := successor_loop rv rl rr in
            (RemovedTwoChildren sv, cv :: p, BSTNode sv l r')
        end
  end.

Definition remove (value : Z) (root : tree) : Op.result * tree :=
  let '(k, p, root') := remove_loop value root in
  ({| Op.success := match k with NotFound => false | _ => true end;
      Op.path := p;
      Op.message :=
        match k with
        | NotFound => "Value " ++ show_number value ++ " not found"
        | RemovedLeaf => "Removed leaf node " ++ show_number value
        | RemovedOneChild => "Removed " ++ show_number value ++ " (one child)"
        | RemovedTwoChildren sv =>
            "Removed " ++ show_number value
              ++ " (two children, replaced with " ++ show_number sv ++ ")"
        end |},
   root').

(** *** findMin, findMax *)

(** [while (current.left !== null) { path.push(current.value); ... }]
    followed by the last push, at the node with value [v] and left child
    [l]: the values pushed and the value of the node the loop stops at. *)
Fixpoint findMin_loop (v : Z) (l : tree) : list Z * Z :=
  match l with
  | null => ([v], v)
  | BSTNode lv ll _ =>
      let '(p, m) := findMin_loop lv ll in (v :: p, m)
  end.

Fixpoint findMax_loop (v : Z) (r : tree) : list Z * Z :=
  match r with
  | null => ([v], v)
  | BSTNode rv _ rr =>
      let '(p, m) := findMax_loop rv rr in (v :: p, m)
  end.

Definition findMin (root : tree) : MinMax.result * tree :=
  match root with
  | null =>
      ({| MinMax.value := None; MinMax.path := [];
          MinMax.message := "Tree is empty" |}, root)
  | BSTNode v l _ =>
      let '(p, m) := findMin_loop v l in
      ({| MinMax.value := Some m; MinMax.path := p;
          MinMax.message := "Minimum value is " ++ show_number m |}, root)
  end.

Definition findMax (root : tree) : MinMax.result * tree :=
  match root with
  | null =>
      ({| MinMax.value := None; MinMax.path := [];
          MinMax.message := "Tree is empty" |}, root)
  | BSTNode v _ r =>
      let '(p, m) := findMax_loop v r in
      ({| MinMax.value := Some m; MinMax.path := p;
          MinMax.message := "Maximum value is " ++ show_number m |}, root)
  end.

(** *** getHeight, clear *)

Fixpoint calculateHeight (node : tree) : Z :=
  match node with
  | null => -1
  | BSTNode _ l r => Z.max (calculateHeight l) (calculateHeight r) + 1
  end.

Definition getHeight (root : tree) : Z := calculateHeight root.

(** [{ success: true, message: 'Tree cleared' }] and a null root. *)
Definition clear (root : tree) : (bool * string) * tree :=
  ((true, "Tree cleared"), null).

(** *** Plain traversals *)

(** [values.join(' → ') || 'Empty tree']: the empty string is falsy. *)
Definition join_or_empty (values : list Z) : string :=
  match String.concat " → " (map show_number values) with
  | EmptyString => "Empty tree"
  | s => s
  end.

(** The closure [traverse] of [inorder]; [values] is the array it pushes
    into. *)
Fixpoint inorder_traverse (node : tree) (values : list Z) : list Z :=
  match node with
  | null => values
  | BSTNode v l r =>
      let values := inorder_traverse l values in
      let values := values ++ [v] in
      inorder_traverse r values
  end.

Fixpoint preorder_traverse (node : tree) (values : list Z) : list Z :=
  match node with
  | null => values
  | BSTNode v l r =>
      let values := values ++ [v] in
      let values := preorder_traverse l values in
      preorder_traverse r values
  end.

Fixpoint postorder_traverse (node : tree) (values : list Z) : list Z :=
  match node with
  | null => values
  | BSTNode v l r =>
      let values := postorder_traverse l values in
      let values := postorder_traverse r values in
      values ++ [v]
  end.

Definition inorder (root : tree) : Traversal.result :=
  let values := inorder_traverse root [] in
  {| Traversal.values := values;
     Traversal.message := "Inorder: " ++ join_or_empty values |}.

Definition preorder (root : tree) : Traversal.result :=
  let values := preorder_traverse root [] in
  {| Traversal.values := values;
     Traversal.message := "Preorder: " ++ join_or_empty values |}.

Definition postorder (root : tree) : Traversal.result :=
  let values := postorder_traverse root [] in
  {| Traversal.values := values;
     Traversal.message := "Postorder: " ++ join_or_empty values |}.

(** *** Detailed traversals *)

Definition enter (v : Z) : Step.t :=
  {| Step.value := v; Step.action := "enter" |}.
Definition visit (v : Z) : Step.t :=
  {| Step.value := v; Step.action := "visit" |}.
Definition exit (v : Z) : Step.t :=
  {| Step.value := v; Step.action := "exit" |}.

(** The closure [traverse] of [inorderDetailed]; it pushes into the arrays
    [steps] and [values] of the method. *)
Fixpoint inorderDetailed_traverse (node : tree) (acc : list Step.t * list Z)
  : list Step.t * list Z :=
  match node with
  | null => acc
  | BSTNode v l r =>
      let '(steps, values) := acc in
      let steps := steps ++ [enter v] in
      let '(steps, values) := inorderDetailed_traverse l (steps, values) in
      let steps := steps ++ [visit v] in
      let values := values ++ [v] in
      let '(steps, values) := inorderDetailed_traverse r (steps, values) in
      (steps ++ [exit v], values)
  end.

Fixpoint preorderDetailed_traverse (node : tree) (acc : list Step.t * list Z)
  : list Step.t * list Z :=
  match node with
  | null => acc
  | BSTNode v l r =>
      let '(steps, values) := acc in
      let steps := steps ++ [enter v] in
      let steps := steps ++ [visit v] in
      let values := values ++ [v] in
      let '(steps, values) := preorderDetailed_traverse l (steps, values) in
      let '(steps, values) := preorderDetailed_traverse r (steps, values) in
      (steps ++ [exit v], values)
  end.

Fixpoint postorderDetailed_traverse (node : tree) (acc : list Step.t * list Z)
  : list Step.t * list Z :=
  match node with
  | null => acc
  | BSTNode v l r =>
      let '(steps, values) := acc in
      let steps := steps ++ [enter v] in
      let '(steps, values) := postorderDetailed_traverse l (steps, values) in
      let '(steps, values) := postorderDetailed_traverse r (steps, values) in
      let steps := steps ++ [visit v] in
      let values := values ++ [v] in
      (steps ++ [exit v], values)
  end.

Definition inorderDetailed (root : tree) : Detailed.result :=
  let '(steps, values) := inorderDetailed_traverse root ([], []) in
  {| Detailed.steps := steps; Detailed.values := values;
     Detailed.message := "Inorder: " ++ join_or_empty values |}.

Definition preorderDetailed (root : tree) : Detailed.result :=
  let '(steps, values) := preorderDetailed_traverse root ([], []) in
  {| Detailed.steps := steps; Detailed.values := values;
     Detailed.message := "Preorder: " ++ join_or_empty values |}.

Definition postorderDetailed (root : tree) : Detailed.result :=
  let '(steps, values) := postorderDetailed_traverse root ([], []) in
  {| Detailed.steps := steps; Detailed.values := values;
     Detailed.message := "Postorder: " ++ join_or_empty values |}.

(** *** getNodesForVisualization *)

(** One entry of the array [getNodesForVisualization] returns. *)
Module VisNode.
Record t : Type :=
  { value : Z; x : Q; y : Q; left : option Z; right : option Z }.
End VisNode.

(** [node.left ? node.left.value : null]. *)
Definition child_value (node : tree) : option Z :=
  match node with
  | null => None
  | BSTNode v _ _ => Some v
  end.

(** **** Arithmetic on coordinates

    [+] and [/] on JavaScript numbers are the exact operation followed by
    rounding to the nearest binary64 number, ties to the one with the even
    significand: 53 bits of significand, least exponent -1074.  Numbers
    from 2^1024 on, which round to an infinity, are left out: no
    coordinate exceeds the canvas width. *)

(** [floor (log2 (n / d))], for positive [n] and [d]. *)
Definition exponent (n d : Z) : Z :=
  let k := Z.log2 n - Z.log2 d in
  if (if 0 <=? k then d * 2 ^ k <=? n else d <=? n * 2 ^ (- k))
  then k else k - 1.

(** The integer nearest to [n / d], the even one of two that are equally
    near; [0 <= n] and [0 < d]. *)
Definition round_half_even (n d : Z) : Z :=
  let q := n / d in
  match 2 * (n mod d) ?= d with
  | Lt => q
  | Gt => q + 1
  | Eq => if Z.even q then q else q + 1
  end.

(** The binary64 number nearest to [n / d], for positive [n] and [d]: the
    multiple of [2 ^ e] nearest to it, where [e] leaves the significand 53
    bits, or is -1074 for a subnormal number. *)
Definition binary64_pos (n d : Z) : Q :=
  let e := Z.max (-1074) (exponent n d - 52) in
  if 0 <=? e
  then inject_Z (round_half_even n (d * 2 ^ e) * 2 ^ e)
  else Qred (Qmake (round_half_even (n * 2 ^ (- e)) d) (Z.to_pos (2 ^ (- e)))).

Definition binary64 (q : Q) : Q :=
  match Qnum q with
  | 0 => inject_Z 0
  | Zpos n => binary64_pos (Zpos n) (Zpos (Qden q))
  | Zneg n => Qopp (binary64_pos (Zpos n) (Zpos (Qden q)))
  end.

(** The closure [assignPositions]; [nodes] is the array it pushes into.
    [x] is [(left + right) / 2] as binary64 arithmetic computes it.
    [level] counts the nodes above and [y] is an integer: both are exact
    in binary64 below 2^53. *)
Fixpoint assignPositions (node : tree) (level : Z) (left right : Q)
    (nodes : list VisNode.t) : list VisNode.t :=
  match node with
  | null => nodes
  | BSTNode v l r =>
      let x := binary64 (Qdiv (binary64 (Qplus left right)) (inject_Z 2)) in
      let y := Qred (Qplus (inject_Z 50) (Qmult (inject_Z level) (inject_Z 70))) in
      let nodes :=
        nodes ++ [{| VisNode.value := v; VisNode.x := x; VisNode.y := y;
                     VisNode.left := child_value l;
                     VisNode.right := child_value r |}] in
      let nodes := assignPositions l (level + 1) left x nodes in
      assignPositions r (level + 1) x right nodes
  end.

Definition getNodesForVisualization (root : tree) : list VisNode.t :=
  match root with
  | null => []
  | BSTNode _ _ _ => assignPositions root 0 (inject_Z 0) (inject_Z 800) []
  end.

(** *** getEdgesForVisualization *)

(** The tree with the fields [x] and [y] of its nodes as a call of
    [assignPositions] leaves them. *)
Inductive placed : Type :=
| placed_null
| PlacedNode (value : Z) (x y : Q) (left right : placed).

(** The assignments [node.x = x; node.y = y] of [assignPositions]. *)
Fixpoint assignPositions_fields (node : tree) (level : Z) (left right : Q)
  : placed :=
  match node with
  | null => placed_null
  | BSTNode v l r =>
      let x := binary64 (Qdiv (binary64 (Qplus left right)) (inject_Z 2)) in
      let y := Qred (Qplus (inject_Z 50) (Qmult (inject_Z level) (inject_Z 70))) in
      PlacedNode v x y
        (assignPositions_fields l (level + 1) left x)
        (assignPositions_fields r (level + 1) x right)
  end.

(** [{ from: { x, y }, to: { x, y } }]. *)
Module EdgeData.
Record t : Type := { from : Q * Q; to : Q * Q }.
End EdgeData.

(** The closure [collectEdges]; [edges] is the array it pushes into. *)
Fixpoint collectEdges (node : placed) (edges : list EdgeData.t)
  : list EdgeData.t :=
  match node with
  | placed_null => edges
  | PlacedNode _ x y l r =>
      let edges :=
        match l with
        | placed_null => edges
        | PlacedNode _ lx ly _ _ =>
            collectEdges l
              (edges ++ [{| EdgeData.from := (x, y); EdgeData.to := (lx, ly) |}])
        end in
      match r with
      | placed_null => edges
      | PlacedNode _ rx ry _ _ =>
          collectEdges r
            (edges ++ [{| EdgeData.from := (x, y); EdgeData.to := (rx, ry) |}])
      end
  end.

(** [getEdgesForVisualization]: positions are assigned first, by a call of
    [getNodesForVisualization] whose result is dropped. *)
Definition getEdgesForVisualization (root : tree) : list EdgeData.t :=
  match root with
  | null => []
  | BSTNode _ _ _ =>
      collectEdges
        (assignPositions_fields root 0 (inject_Z 0) (inject_Z 800)) []
  end.

(* ================================================================= *)
(** ** src/App.tsx: the frame generators *)

(** [{ x, y }]. *)
Module Point.
Record t : Type := { x : Q; y : Q }.
End Point.

(** [{ x, y, value }], one end of an animated edge. *)
Module EdgeEnd.
Record t : Type := { x : Q; y : Q; value : Z }.
End EdgeEnd.

(** [interface AnimatedEdge]. *)
Record AnimatedEdge : Type :=
  { from : EdgeEnd.t; to : EdgeEnd.t }.

(** [interface AnimationFrame]. *)
Record AnimationFrame : Type :=
  { highlightedNode : option Z;
    pointerPosition : option Point.t;
    visitedNodes : list Z;
    pathNodes : list Z;
    connectedEdges : list AnimatedEdge }.

(** [arr[i]]: [undefined] outside the array. *)
Definition array_get {A : Type} (arr : list A) (i : Z) : option A :=
  if i <? 0 then None else nth_error arr (Z.to_nat i).

(** The closure [getPos] of both generators, over the array [currentNodes]
    that [bst.getNodesForVisualization()] returned. *)
Definition getPos (currentNodes : list VisNode.t) (value : Z)
  : option Point.t :=
  match find (fun n => VisNode.value n =? value) currentNodes with
  | Some node => Some {| Point.x := VisNode.x node; Point.y := VisNode.y node |}
  | None => None
  end.

(** [{ ...pos, value }]. *)
Definition edge_end (pos : Point.t) (value : Z) : EdgeEnd.t :=
  {| EdgeEnd.x := Point.x pos; EdgeEnd.y := Point.y pos;
     EdgeEnd.value := value |}.

(** The frame both generators push first. *)
Definition blank_frame : AnimationFrame :=
  {| highlightedNode := None; pointerPosition := None;
     visitedNodes := []; pathNodes := []; connectedEdges := [] |}.

(** *** generatePathFrames *)

(** The local variables of [generatePathFrames]. *)
Module PathLoop.
Record state : Type :=
  { frames : list AnimationFrame;
    currentVisited : list Z;
    currentAnimatedEdges : list AnimatedEdge;
    currentPointer : option Point.t;
    currentHighlighted : option Z }.

(** The frame pushed from the current values of the variables. *)
Definition snapshot (s : state) : AnimationFrame :=
  {| highlightedNode := currentHighlighted s;
     pointerPosition := currentPointer s;
     visitedNodes := currentVisited s;
     pathNodes := [];
     connectedEdges := currentAnimatedEdges s |}.

Definition push_frame (s : state) : state :=
  {| frames := frames s ++ [snapshot s];
     currentVisited := currentVisited s;
     currentAnimatedEdges := currentAnimatedEdges s;
     currentPointer := currentPointer s;
     currentHighlighted := currentHighlighted s |}.

Definition initial : state :=
  {| frames := [blank_frame]; currentVisited := [];
     currentAnimatedEdges := []; currentPointer := None;
     currentHighlighted := None |}.
End PathLoop.

(** The body of [for (let i = 0; i < path.length; i++)]. *)
Definition path_iteration (currentNodes : list VisNode.t) (path : list Z)
    (s : PathLoop.state) (i : nat) : PathLoop.state :=
  match array_get path (Z.of_nat i) with
  | None => s
  | Some currentValue =>
      match getPos currentNodes currentValue with
      | None => s
      | Some currentPos =>
          (* Step 1: move pointer to node *)
          let s1 :=
            PathLoop.push_frame
              {| PathLoop.frames := PathLoop.frames s;
                 PathLoop.currentVisited :=
                   PathLoop.currentVisited s ++ [currentValue];
                 PathLoop.currentAnimatedEdges :=
                   PathLoop.currentAnimatedEdges s;
                 PathLoop.currentPointer := Some currentPos;
                 PathLoop.currentHighlighted := Some currentValue |} in
          (* Step 2: draw edge to next node if exists *)
          if Z.of_nat i <? Z.of_nat (List.length path) - 1 then
            match array_get path (Z.of_nat i + 1) with
            | None => s1
            | Some nextValue =>
                match getPos currentNodes nextValue with
                | None => s1
                | Some nextPos =>
                    PathLoop.push_frame
                      {| PathLoop.frames := PathLoop.frames s1;
                         PathLoop.currentVisited := PathLoop.currentVisited s1;
                         PathLoop.currentAnimatedEdges :=
                           PathLoop.currentAnimatedEdges s1
                             ++ [{| from := edge_end currentPos currentValue;
                                    to := edge_end nextPos nextValue |}];
                         PathLoop.currentPointer := PathLoop.currentPointer s1;
                         PathLoop.currentHighlighted :=
                           PathLoop.currentHighlighted s1 |}
                end
            end
          else s1
      end
  end.

(** [generatePathFrames(path, finalHighlight?)]; an omitted
    [finalHighlight] is [None]. *)
Definition generatePathFrames (currentNodes : list VisNode.t)
    (path : list Z) (finalHighlight : option Z) : list AnimationFrame :=
  let s :=
    fold_left (path_iteration currentNodes path)
      (seq 0 (List.length path)) PathLoop.initial in
  match finalHighlight with
  | None => PathLoop.frames s
  | Some target =>
      match getPos currentNodes target with
      | None => PathLoop.frames s
      | Some finalPos =>
          PathLoop.frames s
            ++ [{| highlightedNode := Some target;
                   pointerPosition := Some finalPos;
                   visitedNodes := PathLoop.currentVisited s;
                   pathNodes := [];
                   connectedEdges := PathLoop.currentAnimatedEdges s |}]
      end
  end.

(** *** generateTraversalFrames *)

(** The local variables of [generateTraversalFrames]. *)
Module TraversalLoop.
Record state : Type :=
  { frames : list AnimationFrame;
    currentVisited : list Z;
    currentPathNodes : list Z;
    currentPointer : option Point.t;
    currentHighlighted : option Z }.

(** The frame pushed from the current values of the variables. *)
Definition snapshot (s : state) : AnimationFrame :=
  {| highlightedNode := currentHighlighted s;
     pointerPosition := currentPointer s;
     visitedNodes := currentVisited s;
     pathNodes := currentPathNodes s;
     connectedEdges := [] |}.

Definition push_frame (s : state) : state :=
  {| frames := frames s ++ [snapshot s];
     currentVisited := currentVisited s;
     currentPathNodes := currentPathNodes s;
     currentPointer := currentPointer s;
     currentHighlighted := currentHighlighted s |}.

Definition initial : state :=
  {| frames := [blank_frame]; currentVisited := [];
     currentPathNodes := []; currentPointer := None;
     currentHighlighted := None |}.
End TraversalLoop.

(** The body of [for (const step of steps)]. *)
Definition traversal_iteration (currentNodes : list VisNode.t)
    (s : TraversalLoop.state) (step : Step.t) : TraversalLoop.state :=
  match getPos currentNodes (Step.value step) with
  | None => s                                   (* if (!pos) continue; *)
  | Some pos =>
      if String.eqb (Step.action step) "enter" then
        TraversalLoop.push_frame
          {| TraversalLoop.frames := TraversalLoop.frames s;
             TraversalLoop.currentVisited := TraversalLoop.currentVisited s;
             TraversalLoop.currentPathNodes :=
               TraversalLoop.currentPathNodes s ++ [Step.value step];
             TraversalLoop.currentPointer := Some pos;
             TraversalLoop.currentHighlighted := Some (Step.value step) |}
      else if String.eqb (Step.action step) "visit" then
        TraversalLoop.push_frame
          {| TraversalLoop.frames := TraversalLoop.frames s;
             TraversalLoop.currentVisited :=
               TraversalLoop.currentVisited s ++ [Step.value step];
             TraversalLoop.currentPathNodes := TraversalLoop.currentPathNodes s;
             TraversalLoop.currentPointer := Some pos;
             TraversalLoop.currentHighlighted := Some (Step.value step) |}
      else if String.eqb (Step.action step) "exit" then
        let remaining :=
          filter (fun v => negb (v =? Step.value step))
            (TraversalLoop.currentPathNodes s) in
        (* On exit, snap back to the parent (last of pathNodes) if any *)
        let parentId :=
          array_get remaining (Z.of_nat (List.length remaining) - 1) in
        let '(pointer, highlighted) :=
          match parentId with
          | Some parent =>
              if parent =? 0 then (None, None) (* [if (parentId)]: 0 is falsy *)
              else (getPos currentNodes parent, Some parent)
          | None => (None, None)              (* root exit: [undefined] *)
          end in
        TraversalLoop.push_frame
          {| TraversalLoop.frames := TraversalLoop.frames s;
             TraversalLoop.currentVisited := TraversalLoop.currentVisited s;
             TraversalLoop.currentPathNodes := remaining;
             TraversalLoop.currentPointer := pointer;
             TraversalLoop.currentHighlighted := highlighted |}
      else s
  end.

(** The frame pushed after the loop. *)
Definition completion_frame (visited : list Z) : AnimationFrame :=
  {| highlightedNode := None; pointerPosition := None;
     visitedNodes := visited; pathNodes := []; connectedEdges := [] |}.

Definition generateTraversalFrames (currentNodes : list VisNode.t)
    (steps : list Step.t) : list AnimationFrame :=
  let s :=
    fold_left (traversal_iteration currentNodes) steps TraversalLoop.initial in
  TraversalLoop.frames s
    ++ [completion_frame (TraversalLoop.currentVisited s)].

(** *** The handlers: which frames each operation animates *)

(** Each handler runs its engine operation on the tree [root], generates
    frames against the positions of the tree as it is at that moment and
    hands them to [startAnimation]; [None] when it starts no animation. *)
Definition handleInsert (value : Z) (root : tree)
  : option (list AnimationFrame) * tree :=
  let '(result, root') := insert value root in
  (Some (generatePathFrames (getNodesForVisualization root')
           (Op.path result) None), root').

Definition handleSearch (value : Z) (root : tree)
  : option (list AnimationFrame) * tree :=
  let '(result, root') := search value root in
  (Some (generatePathFrames (getNodesForVisualization root')
           (Search.path result)
           (if Search.found result then Some value else None)), root').

Definition handleRemove (value : Z) (root : tree)
  : option (list AnimationFrame) * tree :=
  let '(result, root') := remove value root in
  (Some (generatePathFrames (getNodesForVisualization root')
           (Op.path result) None), root').

Definition handleMinMax (result : MinMax.result) (root : tree)
  : option (list AnimationFrame) :=
  match MinMax.value result with
  | Some v =>
      Some (generatePathFrames (getNodesForVisualization root)
              (MinMax.path result) (Some v))
  | None => None
  end.

Definition handleFindMin (root : tree) : option (list AnimationFrame) * tree :=
  let '(result, root') := findMin root in (handleMinMax result root', root').

Definition handleFindMax (root : tree) : option (list AnimationFrame) * tree :=
  let '(result, root') := findMax root in (handleMinMax result root', root').

Definition handleTraversal (result : Detailed.result) (root : tree)
  : option (list AnimationFrame) :=
  match Detailed.values result with
  | [] => None                   (* result.values.length === 0 *)
  | _ :: _ =>
      Some (generateTraversalFrames (getNodesForVisualization root)
              (Detailed.steps result))
  end.

Definition handleInorder (root : tree) : option (list AnimationFrame) :=
  handleTraversal (inorderDetailed root) root.

Definition handlePreorder (root : tree) : option (list AnimationFrame) :=
  handleTraversal (preorderDetailed root) root.

Definition handlePostorder (root : tree) : option (list AnimationFrame) :=
  handleTraversal (postorderDetailed root) root.

(** [valuesToInsert.forEach((value) => bst.insert(value))]. *)
Definition insert_all (valuesToInsert : list Z) (root : tree) : tree :=
  fold_left (fun root value => snd (insert value root)) valuesToInsert root.

(** *** Playback *)

(** The state variables of [App] that playback reads and writes.  The
    five that [applyFrame] sets together ([highlightedNode],
    [pointerPosition], [visitedNodes], [pathNodes], [animatedEdges]) are
    the one frame [shown]; cleared, they are [blank_frame]. *)
Module Playback.
Record state : Type :=
  { traversalFrames : list AnimationFrame;
    currentStep : Z;
    isPlaying : bool;
    isTraversalActive : bool;
    traversalType : string;
    shown : AnimationFrame }.
End Playback.

(** [applyFrame(frame)]; reading a field of [undefined] throws, which is
    [None]. *)
Definition applyFrame (frame : option AnimationFrame) (s : Playback.state)
  : option Playback.state :=
  match frame with
  | None => None
  | Some f =>
      Some {| Playback.traversalFrames := Playback.traversalFrames s;
              Playback.currentStep := Playback.currentStep s;
              Playback.isPlaying := Playback.isPlaying s;
              Playback.isTraversalActive := Playback.isTraversalActive s;
              Playback.traversalType := Playback.traversalType s;
              Playback.shown := f |}
  end.

Definition setCurrentStep (step : Z) (s : Playback.state) : Playback.state :=
  {| Playback.traversalFrames := Playback.traversalFrames s;
     Playback.currentStep := step;
     Playback.isPlaying := Playback.isPlaying s;
     Playback.isTraversalActive := Playback.isTraversalActive s;
     Playback.traversalType := Playback.traversalType s;
     Playback.shown := Playback.shown s |}.

Definition setIsPlaying (playing : bool) (s : Playback.state)
  : Playback.state :=
  {| Playback.traversalFrames := Playback.traversalFrames s;
     Playback.currentStep := Playback.currentStep s;
     Playback.isPlaying := playing;
     Playback.isTraversalActive := Playback.isTraversalActive s;
     Playback.traversalType := Playback.traversalType s;
     Playback.shown := Playback.shown s |}.

(** [startAnimation(type, frames)]: whatever was playing is replaced. *)
Definition startAnimation (type : string) (frames : list AnimationFrame)
    (s : Playback.state) : option Playback.state :=
  let s' :=
    {| Playback.traversalFrames := frames;
       Playback.currentStep := 0;
       Playback.isPlaying := true;
       Playback.isTraversalActive := true;
       Playback.traversalType := type;
       Playback.shown := blank_frame |} in
  if Z.of_nat (List.length frames) >? 0
  then applyFrame (array_get frames 0) s'
  else Some s'.

(** The callback of the playback loop's [setTimeout]; the effect arms the
    timer only while [isPlaying && isTraversalActive]. *)
Definition playbackTimeout (s : Playback.state) : option Playback.state :=
  if Playback.isPlaying s && Playback.isTraversalActive s then
    if Playback.currentStep s
       <? Z.of_nat (List.length (Playback.traversalFrames s)) - 1
    then
      let nextStep := Playback.currentStep s + 1 in
      applyFrame (array_get (Playback.traversalFrames s) nextStep)
        (setCurrentStep nextStep s)
    else Some (setIsPlaying false s)
  else Some s.

Definition handlePlayPause (s : Playback.state) : option Playback.state :=
  let restarted :=
    if Playback.currentStep s
       >=? Z.of_nat (List.length (Playback.traversalFrames s)) - 1
    then
      (* Restart if at end *)
      applyFrame (array_get (Playback.traversalFrames s) 0)
        (setCurrentStep 0 s)
    else Some s in
  match restarted with
  | None => None
  | Some s' => Some (setIsPlaying (negb (Playback.isPlaying s)) s')
  end.

Definition handleStepForward (s : Playback.state) : option Playback.state :=
  if Playback.currentStep s
     <? Z.of_nat (List.length (Playback.traversalFrames s)) - 1
  then
    let nextStep := Playback.currentStep s + 1 in
    applyFrame (array_get (Playback.traversalFrames s) nextStep)
      (setCurrentStep nextStep s)
  else Some s.

Definition handleStepBackward (s : Playback.state) : option Playback.state :=
  if Playback.currentStep s >? 0 then
    let prevStep := Playback.currentStep s - 1 in
    applyFrame (array_get (Playback.traversalFrames s) prevStep)
      (setCurrentStep prevStep s)
  else Some s.

Definition handleReset (s : Playback.state) : option Playback.state :=
  applyFrame (array_get (Playback.traversalFrames s) 0)
    (setCurrentStep 0 (setIsPlaying false s)).

Definition handleCloseTraversal (s : Playback.state) : Playback.state :=
  {| Playback.traversalFrames := Playback.traversalFrames s;
     Playback.currentStep := Playback.currentStep s;
     Playback.isPlaying := false;
     Playback.isTraversalActive := false;
     Playback.traversalType := Playback.traversalType s;
     Playback.shown := blank_frame |}.

(** *** TraversalControls *)

(** [isAtStart] and [isAtEnd], from the props [currentStep] and
    [totalSteps = traversalFrames.length]. *)
Definition isAtStart (s : Playback.state) : bool :=
  Playback.currentStep s =? 0.

Definition isAtEnd (s : Playback.state) : bool :=
  Playback.currentStep s
  >=? Z.of_nat (List.length (Playback.traversalFrames s)).

(** The status line under the controls. *)
Definition controlsStatus (s : Playback.state) : string :=
  if isAtEnd s then "✓ Traversal Complete"
  else if Playback.isPlaying s then "▶ Playing..."
  else "Ready to traverse".

(** The click handler of the Skip-to-End button:
    [while (currentStep < totalSteps) onStepForward()].  [currentStep] and
    [totalSteps] are the props of the render the handler belongs to and
    [onStepForward] is that render's [handleStepForward], so every turn of
    the loop tests the same condition and requests the same update;
    [fuel] bounds the turns, and [None] is a loop still running. *)
Fixpoint skipToEnd (fuel : nat) (s : Playback.state)
    (requested : option Playback.state) : option (option Playback.state) :=
  match fuel with
  | O => None
  | S fuel' =>
      if Playback.currentStep s
         <? Z.of_nat (List.length (Playback.traversalFrames s))
      then skipToEnd fuel' s (handleStepForward s)
      else Some requested
  end.

(* ================================================================= *)
(** ** src/components/ControlPanel.tsx and the click handlers of App *)

(** [\d]: one of the ten ASCII digits. *)
Definition is_digit (c : Ascii.ascii) : bool :=
  (48 <=? Z.of_nat (Ascii.nat_of_ascii c))
  && (Z.of_nat (Ascii.nat_of_ascii c) <=? 57).

Fixpoint digits (s : string) : bool :=
  match s with
  | EmptyString => true
  | String c s' => is_digit c && digits s'
  end.

(** [/^\d+$/.test(value)]. *)
Definition digits_only (value : string) : bool :=
  match value with
  | EmptyString => false
  | String _ _ => digits value
  end.

(** The number a string of decimal digits denotes, after [acc]. *)
Fixpoint digits_value (acc : Z) (s : string) : Z :=
  match s with
  | EmptyString => acc
  | String c s' =>
      digits_value (10 * acc + (Z.of_nat (Ascii.nat_of_ascii c) - 48)) s'
  end.

(** [parseInt(value)] on a string of decimal digits.  What [parseInt]
    makes of any other string (signs, blanks, prefixes, NaN) is not
    modelled: such a string is [None].  The number is exact here and a
    double in the source; the two agree up to 2^53, and on whether the
    number is at most 99 for every string of digits. *)
Definition parseInt (value : string) : option Z :=
  if digits_only value then Some (digits_value 0 value) else None.

(** The state of [App] that the handlers share: the tree of the module's
    [bst], the text of the input box and the playback variables. *)
Module App.
Record state : Type :=
  { bst : tree; inputValue : string; playback : Playback.state }.
End App.

Definition setInputValue (value : string) (s : App.state) : App.state :=
  {| App.bst := App.bst s; App.inputValue := value;
     App.playback := App.playback s |}.

(** [handleInputChange] of the control panel, for a change of the box to
    [value]: only the empty string and the numbers 1-99 are let through. *)
Definition handleInputChange (value : string) (s : App.state) : App.state :=
  let allowed :=
    match value with
    | EmptyString => true
    | String _ _ =>
        digits_only value
        && match parseInt value with
           | Some n => (n >=? 1) && (n <=? 99)
           | None => false
           end
    end in
  if allowed then setInputValue value s else s.

(** A click handler hands the frames it generated to [startAnimation];
    [None] when that throws. *)
Definition animate (type : string) (frames : list AnimationFrame)
    (root : tree) (inputValue : string) (s : App.state)
  : option App.state :=
  match startAnimation type frames (App.playback s) with
  | None => None
  | Some p =>
      Some {| App.bst := root; App.inputValue := inputValue;
              App.playback := p |}
  end.

(** The click handlers [handleInsert], [handleSearch] and [handleRemove] of
    [App]: nothing happens on an empty box; otherwise the box is parsed,
    the engine runs, the frames are generated and the animation starts.
    Insert and remove empty the box.  [None] when the box holds a string
    whose [parseInt] is not modelled, or a handler throws. *)
Definition clickInsert (s : App.state) : option App.state :=
  match App.inputValue s with
  | EmptyString => Some s
  | String _ _ =>
      match parseInt (App.inputValue s) with
      | None => None
      | Some value =>
          match handleInsert value (App.bst s) with
          | (Some frames, root') =>
              animate ("Insert " ++ show_number value) frames root' "" s
          | (None, _) => None
          end
      end
  end.

Definition clickSearch (s : App.state) : option App.state :=
  match App.inputValue s with
  | EmptyString => Some s
  | String _ _ =>
      match parseInt (App.inputValue s) with
      | None => None
      | Some value =>
          match handleSearch value (App.bst s) with
          | (Some frames, root') =>
              animate ("Search " ++ show_number value) frames root'
                (App.inputValue s) s
          | (None, _) => None
          end
      end
  end.

Definition clickRemove (s : App.state) : option App.state :=
  match App.inputValue s with
  | EmptyString => Some s
  | String _ _ =>
      match parseInt (App.inputValue s) with
      | None => None
      | Some value =>
          match handleRemove value (App.bst s) with
          | (Some frames, root') =>
              animate ("Remove " ++ show_number value) frames root' "" s
          | (None, _) => None
          end
      end
  end.

(** [handleFindMin], [handleFindMax] and the three traversal handlers:
    on the empty tree only a toast is shown. *)
Definition clickAnimation (type : string)
    (frames : option (list AnimationFrame)) (root : tree) (s : App.state)
  : option App.state :=
  match frames with
  | None =>
      Some {| App.bst := root; App.inputValue := App.inputValue s;
              App.playback := App.playback s |}
  | Some fs => animate type fs root (App.inputValue s) s
  end.

Definition clickFindMin (s : App.state) : option App.state :=
  let '(frames, root') := handleFindMin (App.bst s) in
  clickAnimation "Find Min" frames root' s.

Definition clickFindMax (s : App.state) : option App.state :=
  let '(frames, root') := handleFindMax (App.bst s) in
  clickAnimation "Find Max" frames root' s.

Definition clickInorder (s : App.state) : option App.state :=
  clickAnimation "Inorder" (handleInorder (App.bst s)) (App.bst s) s.

Definition clickPreorder (s : App.state) : option App.state :=
  clickAnimation "Preorder" (handlePreorder (App.bst s)) (App.bst s) s.

Definition clickPostorder (s : App.state) : option App.state :=
  clickAnimation "Postorder" (handlePostorder (App.bst s)) (App.bst s) s.

(** What [handleClear] and [handleGeneratePreset] do to playback: the
    screen is cleared and the traversal mode left. *)
Definition leaveTraversal (p : Playback.state) : Playback.state :=
  {| Playback.traversalFrames := Playback.traversalFrames p;
     Playback.currentStep := Playback.currentStep p;
     Playback.isPlaying := Playback.isPlaying p;
     Playback.isTraversalActive := false;
     Playback.traversalType := Playback.traversalType p;
     Playback.shown := blank_frame |}.

Definition handleClear (s : App.state) : App.state :=
  {| App.bst := snd (clear (App.bst s)); App.inputValue := "";
     App.playback := leaveTraversal (App.playback s) |}.

(** [type TreePreset] without ['random'], whose eight values come from
    [Math.random]. *)
Inductive TreePreset : Type := empty | perfect | skewedRight | skewedLeft.

Definition valuesToInsert (preset : TreePreset) : list Z :=
  match preset with
  | empty => []
  | perfect => [15; 6; 23; 4; 7; 20; 50]
  | skewedRight => [10; 20; 30; 40; 50]
  | skewedLeft => [50; 40; 30; 20; 10]
  end.

Definition handleGeneratePreset (preset : TreePreset) (s : App.state)
  : App.state :=
  {| App.bst := insert_all (valuesToInsert preset) (snd (clear (App.bst s)));
     App.inputValue := "";
     App.playback := leaveTraversal (App.playback s) |}.

(* ================================================================= *)
(** ** TreeCanvas: how a node is drawn *)






(* ================================================================= *)
(** ** Specification vocabulary *)

(** [In_tree x t]: some node of [t] holds the value [x]. *)
Fixpoint In_tree (x : Z) (t : tree) : Prop :=
  match t with
  | null => False
  | BSTNode v l r => x = v \/ In_tree x l \/ In_tree x r
  end.

(** The BST invariant of the data model: at every node, every value of the
    left subtree is below the node's value and every value of the right
    subtree is above it. *)
Fixpoint BST (t : tree) : Prop :=
  match t with
  | null => True
  | BSTNode v l r =>
      (forall x, In_tree x l -> x < v) /\
      (forall x, In_tree x r -> v < x) /\
      BST l /\ BST r
  end.

(** The values of all nodes, left subtree first, then the node, then the
    right subtree. *)
Fixpoint elements (t : tree) : list Z :=
  match t with
  | null => []
  | BSTNode v l r => elements l ++ v :: elements r
  end.

(** The invariant with its second half spelled out: no value occurs
    twice. *)
Definition invariant (t : tree) : Prop := BST t /\ NoDup (elements t).

(** The value at the root, if any. *)
Definition root_value (t : tree) : option Z :=
  match t with
  | null => None
  | BSTNode v _ _ => Some v
  end.

(** A descent from the root: for each node passed, its value, the side
    taken and the subtree left behind on the other side. *)
Inductive side : Type := GoLeft | GoRight.

Definition context : Type := list (Z * side * tree).

(** The tree with [t] at the end of the descent [C]. *)
Fixpoint plug (C : context) (t : tree) : tree :=
  match C with
  | [] => t
  | (pv, GoLeft, sibling) :: C' => BSTNode pv (plug C' t) sibling
  | (pv, GoRight, sibling) :: C' => BSTNode pv sibling (plug C' t)
  end.

(** The values of the nodes passed, root first. *)
Definition passed (C : context) : list Z := map (fun f => fst (fst f)) C.

(** [C] is the descent the comparisons with [v] take: left below a larger
    value, right above a smaller one. *)
Definition descends (v : Z) (C : context) : Prop :=
  Forall (fun f => match snd (fst f) with
                   | GoLeft => v < fst (fst f)
                   | GoRight => fst (fst f) < v
                   end) C.

(** A descent that only ever goes left. *)
Definition leftward (C : context) : Prop :=
  Forall (fun f => snd (fst f) = GoLeft) C.

Definition rightward (C : context) : Prop :=
  Forall (fun f => snd (fst f) = GoRight) C.

(** The three detailed traversals. *)
Inductive order : Type := Inorder | Preorder | Postorder.

Definition detailed (k : order) (root : tree) : Detailed.result :=
  match k with
  | Inorder => inorderDetailed root
  | Preorder => preorderDetailed root
  | Postorder => postorderDetailed root
  end.

(** How many entries of [log] are the event [a] of the value [v]. *)
Definition occurrences (a : string) (v : Z) (log : list Step.t) : nat :=
  List.length
    (filter (fun s => String.eqb (Step.action s) a && (Step.value s =? v)) log).

(** Enter events minus exit events. *)
Fixpoint depth (log : list Step.t) : Z :=
  match log with
  | [] => 0
  | s :: log' =>
      (if String.eqb (Step.action s) "enter" then 1
       else if String.eqb (Step.action s) "exit" then -1 else 0)
      + depth log'
  end.

(** The event log of each order, as section 4.1 of the specification spells
    it: enter, then the two subtrees left before right, then exit, with
    the visit placed between, before or after the subtrees. *)
Fixpoint event_log (k : order) (t : tree) : list Step.t :=
  match t with
  | null => []
  | BSTNode v l r =>
      match k with
      | Inorder =>
          [enter v] ++ event_log k l ++ [visit v] ++ event_log k r ++ [exit v]
      | Preorder =>
          [enter v] ++ [visit v] ++ event_log k l ++ event_log k r ++ [exit v]
      | Postorder =>
          [enter v] ++ event_log k l ++ event_log k r ++ [visit v] ++ [exit v]
      end
  end.

(** The values in the order in which each traversal visits them. *)
Fixpoint visit_order (k : order) (t : tree) : list Z :=
  match t with
  | null => []
  | BSTNode v l r =>
      match k with
      | Inorder => visit_order k l ++ [v] ++ visit_order k r
      | Preorder => [v] ++ visit_order k l ++ visit_order k r
      | Postorder => visit_order k l ++ visit_order k r ++ [v]
      end
  end.

(** Every prefix of [log] has depth at least [k]. *)
Definition low (k : Z) (log : list Step.t) : Prop :=
  forall n : nat, k <= depth (firstn n log).

(** The operations that change the tree, and the tree after one or after
    several of them. *)
Inductive mutation : Type :=
| Insert (value : Z)
| Remove (value : Z)
| Clear.

Definition mutate (t : tree) (m : mutation) : tree :=
  match m with
  | Insert v => snd (insert v t)
  | Remove v => snd (remove v t)
  | Clear => snd (clear t)
  end.

Definition mutate_all (ms : list mutation) (t : tree) : tree :=
  fold_left mutate ms t.

(** The tree of the examples: 15, 6, 23, 4, 7, 20, 50 inserted in that
    order into the empty tree. *)
Definition example_tree : tree := insert_all [15; 6; 23; 4; 7; 20; 50] null.

(** The number of nodes. *)
Definition size (t : tree) : Z := Z.of_nat (List.length (elements t)).

(** The values of the events [a] of a log, in the order of the log. *)
Definition values_of (a : string) (log : list Step.t) : list Z :=
  map Step.value (filter (fun s => String.eqb (Step.action s) a) log).

(** The tree that is one chain of right children, respectively of left
    children, holding [vs] from the root down. *)
Fixpoint right_chain (vs : list Z) : tree :=
  match vs with
  | [] => null
  | v :: vs' => BSTNode v null (right_chain vs')
  end.

Fixpoint left_chain (vs : list Z) : tree :=
  match vs with
  | [] => null
  | v :: vs' => BSTNode v (left_chain vs') null
  end.

(** The three plain traversals. *)
Definition plain (k : order) (root : tree) : Traversal.result :=
  match k with
  | Inorder => inorder root
  | Preorder => preorder root
  | Postorder => postorder root
  end.

(** *** Vocabulary for the layout *)

Definition placed_value (p : placed) : option Z :=
  match p with
  | placed_null => None
  | PlacedNode v _ _ _ _ => Some v
  end.

(** The entry of each node of a placed tree, node before subtrees, left
    subtree before right. *)
Fixpoint entries (p : placed) : list VisNode.t :=
  match p with
  | placed_null => []
  | PlacedNode v x y l r =>
      {| VisNode.value := v; VisNode.x := x; VisNode.y := y;
         VisNode.left := placed_value l; VisNode.right := placed_value r |}
        :: entries l ++ entries r
  end.

(** The coordinate pair of an entry. *)
Definition at_node (n : VisNode.t) : Q * Q := (VisNode.x n, VisNode.y n).

(** The binary64 numbers, infinities apart: a significand of at most 53
    bits times a power of two that is at least [2 ^ -1074]. *)
Definition representable (q : Q) : Prop :=
  exists m e : Z,
    Z.abs m <= 2 ^ 53 /\ -1074 <= e /\ (q == inject_Z m * 2 ^ e)%Q.

(** An interval of the canvas as [assignPositions] passes it down: its
    ends are binary64 numbers, in order and not negative. *)
Definition on_canvas (t : tree) (level : Z) (lo hi : Q) : Prop :=
  representable lo /\ representable hi /\ (0 <= lo)%Q /\ (lo <= hi)%Q.

(** An interval that is one of the [2 ^ level] equal parts of the canvas,
    for a subtree that does not reach below level 47. *)
Definition exact_part (t : tree) (level : Z) (lo hi : Q) : Prop :=
  0 <= level /\ level + calculateHeight t <= 47 /\
  exists j : Z,
    0 <= j /\ j + 1 <= 2 ^ level /\
    (lo == inject_Z j * (800 * 2 ^ (- level)))%Q /\
    (hi == inject_Z (j + 1) * (800 * 2 ^ (- level)))%Q.

(** The edge [e] joins a node of [nodes] to one of its children, one level
    further down, with the child on its side of the parent in the order
    [rel]. *)
Definition joins (rel : Q -> Q -> Prop) (nodes : list VisNode.t)
    (e : EdgeData.t) : Prop :=
  exists parent child,
    In parent nodes /\ In child nodes /\
    EdgeData.from e = at_node parent /\ EdgeData.to e = at_node child /\
    (VisNode.y child == VisNode.y parent + 70)%Q /\
    (VisNode.left parent = Some (VisNode.value child) /\
     rel (VisNode.x child) (VisNode.x parent) \/
     VisNode.right parent = Some (VisNode.value child) /\
     rel (VisNode.x parent) (VisNode.x child)).

(** The values 1, 2, ..., n. *)
Definition ascending (n : nat) : list Z := map Z.of_nat (seq 1 n).

(** A frame that shows nothing of the value [v]: it does not highlight it,
    does not list it as visited and connects no edge to or from it. *)
Definition hides (v : Z) (f : AnimationFrame) : Prop :=
  highlightedNode f <> Some v /\
  ~ In v (visitedNodes f) /\
  Forall (fun e => EdgeEnd.value (from e) <> v /\ EdgeEnd.value (to e) <> v)
    (connectedEdges f).

(** The handler of each detailed traversal. *)
Definition handleOrder (k : order) (root : tree)
  : option (list AnimationFrame) :=
  match k with
  | Inorder => handleInorder root
  | Preorder => handlePreorder root
  | Postorder => handlePostorder root
  end.

(** *** Vocabulary for playback *)

(** What the user, or the timer, can do while the controls are shown. *)
Inductive control : Type :=
| Timeout
| PlayPause
| StepForward
| StepBackward
| Reset.

Definition control_step (c : control) (s : Playback.state)
  : option Playback.state :=
  match c with
  | Timeout => playbackTimeout s
  | PlayPause => handlePlayPause s
  | StepForward => handleStepForward s
  | StepBackward => handleStepBackward s
  | Reset => handleReset s
  end.

(** A sequence of them; [None] once one has thrown. *)
Fixpoint controls (cs : list control) (s : Playback.state)
  : option Playback.state :=
  match cs with
  | [] => Some s
  | c :: cs' =>
      match control_step c s with
      | None => None
      | Some s' => controls cs' s'
      end
  end.

(** The screen shows the frame of the current step, which is a step of
    the animation. *)
Definition in_sync (s : Playback.state) : Prop :=
  0 <= Playback.currentStep s
       < Z.of_nat (List.length (Playback.traversalFrames s)) /\
  array_get (Playback.traversalFrames s) (Playback.currentStep s)
  = Some (Playback.shown s).

(** *** Vocabulary for the canvas *)



(** *** Vocabulary for a session *)

(** What can happen to the page.  The playback controls are rendered only
    while [isTraversalActive]. *)
Inductive event : Type :=
| InputChange (value : string)
| ClickInsert
| ClickSearch
| ClickRemove
| ClickFindMin
| ClickFindMax
| ClickClear
| ClickInorder
| ClickPreorder
| ClickPostorder
| SelectPreset (preset : TreePreset)
| Control (c : control)
| CloseTraversal.

(** The button of each traversal. *)
Definition click (k : order) : event :=
  match k with
  | Inorder => ClickInorder
  | Preorder => ClickPreorder
  | Postorder => ClickPostorder
  end.

Definition with_playback (p : Playback.state) (s : App.state) : App.state :=
  {| App.bst := App.bst s; App.inputValue := App.inputValue s;
     App.playback := p |}.

Definition app_step (e : event) (s : App.state) : option App.state :=
  match e with
  | InputChange value => Some (handleInputChange value s)
  | ClickInsert => clickInsert s
  | ClickSearch => clickSearch s
  | ClickRemove => clickRemove s
  | ClickFindMin => clickFindMin s
  | ClickFindMax => clickFindMax s
  | ClickClear => Some (handleClear s)
  | ClickInorder => clickInorder s
  | ClickPreorder => clickPreorder s
  | ClickPostorder => clickPostorder s
  | SelectPreset preset => Some (handleGeneratePreset preset s)
  | Control c =>
      if Playback.isTraversalActive (App.playback s) then
        match control_step c (App.playback s) with
        | None => None
        | Some p => Some (with_playback p s)
        end
      else
        match c with
        | Timeout =>
            match playbackTimeout (App.playback s) with
            | None => None
            | Some p => Some (with_playback p s)
            end
        | _ => Some s
        end
  | CloseTraversal =>
      if Playback.isTraversalActive (App.playback s)
      then Some (with_playback (handleCloseTraversal (App.playback s)) s)
      else Some s
  end.

Fixpoint session (es : list event) (s : App.state) : option App.state :=
  match es with
  | [] => Some s
  | e :: es' =>
      match app_step e s with
      | None => None
      | Some s' => session es' s'
      end
  end.

(** The page as it loads: an empty tree, an empty box, nothing playing. *)
Definition loaded : App.state :=
  {| App.bst := null; App.inputValue := "";
     App.playback :=
       {| Playback.traversalFrames := []; Playback.currentStep := 0;
          Playback.isPlaying := false; Playback.isTraversalActive := false;
          Playback.traversalType := ""; Playback.shown := blank_frame |} |}.

(** What every state of a session satisfies. *)
Definition well_formed (s : App.state) : Prop :=
  BST (App.bst s) /\
  (forall x, In_tree x (App.bst s) -> 1 <= x <= 99) /\
  (App.inputValue s = ""%string \/
   exists n, parseInt (App.inputValue s) = Some n /\ 1 <= n <= 99) /\
  (Playback.isTraversalActive (App.playback s) = true ->
   in_sync (App.playback s)).

(** *** Vocabulary for the frame generators *)

(** The local variables of [generateTraversalFrames] once the loop has
    consumed [steps]. *)
Definition traversal_state (currentNodes : list VisNode.t)
    (steps : list Step.t) : TraversalLoop.state :=
  fold_left (traversal_iteration currentNodes) steps TraversalLoop.initial.

(** The values of the visit events that have a coordinate, in order. *)
Definition visited_of (currentNodes : list VisNode.t) (steps : list Step.t)
  : list Z :=
  map Step.value
    (filter (fun s =>
               String.eqb (Step.action s) "visit"
               && match getPos currentNodes (Step.value s) with
                  | Some _ => true
                  | None => false
                  end) steps).

(** The last element of an array, if any. *)
Definition top {A : Type} (stack : list A) : option A :=
  array_get stack (Z.of_nat (List.length stack) - 1).

(** The exit frame as section 4.2 of the specification words it, from the
    variables [s] before the event: the stack is popped; pointer and
    highlight are on the new top when there is one and cleared when there
    is none. *)
Definition popped_frame (currentNodes : list VisNode.t)
    (s : TraversalLoop.state) : AnimationFrame :=
  let stack := removelast (TraversalLoop.currentPathNodes s) in
  match top stack with
  | Some parent =>
      {| highlightedNode := Some parent;
         pointerPosition := getPos currentNodes parent;
         visitedNodes := TraversalLoop.currentVisited s;
         pathNodes := stack;
         connectedEdges := [] |}
  | None =>
      {| highlightedNode := None; pointerPosition := None;
         visitedNodes := TraversalLoop.currentVisited s;
         pathNodes := stack;
         connectedEdges := [] |}
  end.

(** The exit step as the specification words it: after the events [pre],
    the event [exit v] adds the popped frame, and the completion frame
    follows. *)
Definition exit_pops (currentNodes : list VisNode.t) (pre : list Step.t)
    (v : Z) : Prop :=
  generateTraversalFrames currentNodes (pre ++ [exit v])
  = TraversalLoop.frames (traversal_state currentNodes pre)
      ++ [popped_frame currentNodes (traversal_state currentNodes pre);
          completion_frame
            (TraversalLoop.currentVisited (traversal_state currentNodes pre))].

(** One event of [fromEvents] as section 4.2 of the specification words
    it: enter pushes the value on the stack, visit appends it to the visited
    list, exit pops the stack and moves pointer and highlight to the new top
    or clears them; an event whose value has no coordinate is skipped. *)
Definition fromEvents_iteration (lookup : Z -> option Point.t)
    (s : TraversalLoop.state) (step : Step.t) : TraversalLoop.state :=
  match lookup (Step.value step) with
  | None => s
  | Some pos =>
      if String.eqb (Step.action step) "enter" then
        TraversalLoop.push_frame
          {| TraversalLoop.frames := TraversalLoop.frames s;
             TraversalLoop.currentVisited := TraversalLoop.currentVisited s;
             TraversalLoop.currentPathNodes :=
               TraversalLoop.currentPathNodes s ++ [Step.value step];
             TraversalLoop.currentPointer := Some pos;
             TraversalLoop.currentHighlighted := Some (Step.value step) |}
      else if String.eqb (Step.action step) "visit" then
        TraversalLoop.push_frame
          {| TraversalLoop.frames := TraversalLoop.frames s;
             TraversalLoop.currentVisited :=
               TraversalLoop.currentVisited s ++ [Step.value step];
             TraversalLoop.currentPathNodes := TraversalLoop.currentPathNodes s;
             TraversalLoop.currentPointer := Some pos;
             TraversalLoop.currentHighlighted := Some (Step.value step) |}
      else if String.eqb (Step.action step) "exit" then
        let stack := removelast (TraversalLoop.currentPathNodes s) in
        TraversalLoop.push_frame
          {| TraversalLoop.frames := TraversalLoop.frames s;
             TraversalLoop.currentVisited := TraversalLoop.currentVisited s;
             TraversalLoop.currentPathNodes := stack;
             TraversalLoop.currentPointer :=
               match top stack with
               | Some parent => lookup parent
               | None => None
               end;
             TraversalLoop.currentHighlighted := top stack |}
      else s
  end.

Definition fromEvents (lookup : Z -> option Point.t) (steps : list Step.t)
  : list AnimationFrame :=
  let s := fold_left (fromEvents_iteration lookup) steps TraversalLoop.initial in
  TraversalLoop.frames s
    ++ [completion_frame (TraversalLoop.currentVisited s)].

(** The generator and the specification's fold agree on [log] from [s],
    and the stack afterwards is [stack]. *)
Definition runs (currentNodes : list VisNode.t) (log : list Step.t)
    (s : TraversalLoop.state) (stack : list Z) : Prop :=
  fold_left (traversal_iteration currentNodes) log s
  = fold_left (fromEvents_iteration (getPos currentNodes)) log s /\
  TraversalLoop.currentPathNodes
    (fold_left (traversal_iteration currentNodes) log s) = stack.

(** The frames a handler hands to [startAnimation]; none when it starts no
    animation. *)
Definition animated (frames : option (list AnimationFrame))
  : list AnimationFrame :=
  match frames with
  | Some fs => fs
  | None => []
  end.

(** The edge between the coordinates of two values of a path: both ends
    carry the coordinate and the value. *)
Definition edge_between (pos : Point.t) (v : Z) (q : Point.t) (w : Z)
  : AnimatedEdge :=
  {| from := {| EdgeEnd.x := Point.x pos; EdgeEnd.y := Point.y pos;
                EdgeEnd.value := v |};
     to := {| EdgeEnd.x := Point.x q; EdgeEnd.y := Point.y q;
              EdgeEnd.value := w |} |}.

(** The frame of arriving at the value [v] at [pos]. *)
Definition arrival_frame (v : Z) (pos : Point.t) (visited : list Z)
    (edges : list AnimatedEdge) : AnimationFrame :=
  {| highlightedNode := Some v; pointerPosition := Some pos;
     visitedNodes := visited; pathNodes := []; connectedEdges := edges |}.

(** Step 2 of [fromPath] in section 4.2 of the specification, with its
    skipping rule, by recursion on the path: the frames for the values of
    [path], given the visited list and the connected edges accumulated so
    far, and the two accumulations at the end. *)
Fixpoint fromPath (lookup : Z -> option Point.t) (visited : list Z)
    (edges : list AnimatedEdge) (path : list Z)
  : list AnimationFrame * list Z * list AnimatedEdge :=
  match path with
  | [] => ([], visited, edges)
  | v :: rest =>
      match lookup v with
      | None => fromPath lookup visited edges rest
      | Some pos =>
          let visited' := visited ++ [v] in
          let next :=
            match rest with
            | [] => None
            | w :: _ =>
                match lookup w with
                | None => None
                | Some q => Some (edge_between pos v q w)
                end
            end in
          match next with
          | None =>
              let '(fs, vis, es) := fromPath lookup visited' edges rest in
              (arrival_frame v pos visited' edges :: fs, vis, es)
          | Some edge =>
              let edges' := edges ++ [edge] in
              let '(fs, vis, es) := fromPath lookup visited' edges' rest in
              (arrival_frame v pos visited' edges
                 :: arrival_frame v pos visited' edges' :: fs, vis, es)
          end
      end
  end.

(** Step 3: the trailing frame for [finalHighlight], if it is supplied and
    has a coordinate. *)
Definition final_frames (lookup : Z -> option Point.t)
    (finalHighlight : option Z) (visited : list Z)
    (edges : list AnimatedEdge) : list AnimationFrame :=
  match finalHighlight with
  | None => []
  | Some target =>
      match lookup target with
      | None => []
      | Some pos => [arrival_frame target pos visited edges]
      end
  end.

(** A node entry at an integer position, for examples. *)
Definition node_at (v : Z) (x y : Z) : VisNode.t :=
  {| VisNode.value := v; VisNode.x := inject_Z x; VisNode.y := inject_Z y;
     VisNode.left := None; VisNode.right := None |}.

(* ================================================================= *)
(** ** The tree engine: membership and the invariant *)

Section Engine.

Lemma In_tree_elements (x : Z) (t : tree) :
  In x (elements t) <-> In_tree x t.
Proof.
  induction t as [|v l IHl r IHr]; simpl.
  - tauto.
  - rewrite in_app_iff; simpl. rewrite IHl, IHr. intuition congruence.
Qed.

(** In-order listing of a search tree is strictly increasing. *)
Lemma BST_elements_sorted (t : tree) :
  BST t -> StronglySorted Z.lt (elements t).
Proof.
  induction t as [|v l IHl r IHr]; simpl.
  - constructor.
  - intros (Hl & Hr & Bl & Br).
    assert (Hcons : StronglySorted Z.lt (v :: elements r)).
    { constructor; [auto|].
      apply Forall_forall. intros x Hx. apply Hr, In_tree_elements, Hx. }
    specialize (IHl Bl).
    assert (Hbelow : forall x, In x (elements l) ->
                     Forall (Z.lt x) (v :: elements r)).
    { intros x Hx. apply In_tree_elements, Hl in Hx.
      constructor; [exact Hx|].
      apply Forall_forall. intros y Hy.
      apply In_tree_elements, Hr in Hy. lia. }
    clear Hl. induction IHl as [|a rest Hrest IH Hall]; simpl.
    + exact Hcons.
    + constructor.
      * apply IH. intros x Hx. apply Hbelow. now right.
      * apply Forall_app. split; [exact Hall|].
        apply Hbelow. now left.
Qed.

Lemma sorted_NoDup (l : list Z) : StronglySorted Z.lt l -> NoDup l.
Proof.
  induction 1 as [|a l Hs IH Hall]; constructor; auto.
  intros Hin. rewrite Forall_forall in Hall. specialize (Hall a Hin). lia.
Qed.

Lemma BST_invariant (t : tree) : BST t -> invariant t.
Proof.
  intros B. split; [exact B|]. now apply sorted_NoDup, BST_elements_sorted.
Qed.

(** *** insert *)

Lemma insert_loop_In (v : Z) (t : tree) (x : Z) :
  In_tree x (snd (insert_loop v t)) <-> x = v \/ In_tree x t.
Proof.
  induction t as [|cv l IHl r IHr]; simpl.
  - tauto.
  - destruct (Z.eqb_spec v cv) as [->|Hne]; simpl; [tauto|].
    destruct (v <? cv).
    + destruct (insert_loop v l) as [[ok p] l']; simpl in *.
      rewrite IHl. tauto.
    + destruct (insert_loop v r) as [[ok p] r']; simpl in *.
      rewrite IHr. tauto.
Qed.

Lemma insert_loop_BST (v : Z) (t : tree) :
  BST t -> BST (snd (insert_loop v t)).
Proof.
  induction t as [|cv l IHl r IHr]; simpl.
  - intros _. repeat split; intros x [].
  - intros (Hl & Hr & Bl & Br).
    destruct (Z.eqb_spec v cv) as [->|Hne]; simpl; [now repeat split|].
    destruct (Z.ltb_spec v cv) as [Hlt|Hge].
    + pose proof (insert_loop_In v l) as Hin. specialize (IHl Bl).
      destruct (insert_loop v l) as [[ok p] l']; simpl in *.
      repeat split; auto.
      intros x Hx. apply Hin in Hx. destruct Hx as [->|Hx]; auto.
    + pose proof (insert_loop_In v r) as Hin. specialize (IHr Br).
      destruct (insert_loop v r) as [[ok p] r']; simpl in *.
      repeat split; auto.
      intros x Hx. apply Hin in Hx. destruct Hx as [->|Hx]; auto. lia.
Qed.

Lemma insert_tree (v : Z) (t : tree) :
  snd (insert v t) = snd (insert_loop v t).
Proof.
  destruct t as [|cv l r]; [reflexivity|].
  unfold insert. destruct (insert_loop v (BSTNode cv l r)) as [[ok p] t'].
  reflexivity.
Qed.

Lemma insert_In (v : Z) (t : tree) (x : Z) :
  In_tree x (snd (insert v t)) <-> x = v \/ In_tree x t.
Proof. rewrite insert_tree. apply insert_loop_In. Qed.

Lemma insert_BST (v : Z) (t : tree) : BST t -> BST (snd (insert v t)).
Proof. rewrite insert_tree. apply insert_loop_BST. Qed.

(** *** remove *)

(** What the successor descent leaves: the successor's value is taken out
    of the subtree, and everything that stays is above it. *)
Lemma successor_loop_spec (v : Z) (l r : tree) :
  BST (BSTNode v l r) ->
  let '(_, sv, t') := successor_loop v l r in
  BST t' /\
  (forall x, In_tree x (BSTNode v l r) <-> x = sv \/ In_tree x t') /\
  (forall x, In_tree x t' -> sv < x).
Proof.
  revert v r. induction l as [|lv ll IHll lr _]; intros v r; simpl.
  - intros (_ & Hr & _ & Br). repeat split; auto; tauto.
  - intros (Hl & Hr & Bl & Br).
    specialize (IHll lv lr Bl).
    destruct (successor_loop lv ll lr) as [[p sv] l'].
    destruct IHll as (Bl' & Hin & Hmin).
    assert (Hsv : sv < v) by (apply Hl, Hin; now left).
    cbn [BST In_tree] in *. split; [|split].
    + repeat split; auto. intros x Hx. apply Hl, Hin. now right.
    + intros x. specialize (Hin x). tauto.
    + intros x [->|[Hx|Hx]]; auto. apply Hr in Hx. lia.
Qed.

Lemma remove_loop_spec (v : Z) (t : tree) :
  BST t ->
  BST (snd (remove_loop v t)) /\
  (forall x, In_tree x (snd (remove_loop v t)) <-> In_tree x t /\ x <> v).
Proof.
  induction t as [|cv l IHl r IHr]; simpl.
  - intros _. split; [exact I|]. tauto.
  - intros (Hl & Hr & Bl & Br).
    destruct (Z.eqb_spec cv v) as [->|Hne]; simpl.
    + (* the node to remove *)
      destruct l as [|lv ll lr], r as [|rv rl rr].
      * simpl. split; [exact I|]. intros x. intuition.
      * simpl. split; [exact Br|]. intros x. split.
        -- intros Hx. split; [tauto|]. apply Hr in Hx. lia.
        -- intros [[->|[[]|Hx]] Hne]; [congruence | exact Hx].
      * simpl. split; [exact Bl|]. intros x. split.
        -- intros Hx. split; [tauto|]. apply Hl in Hx. lia.
        -- intros [[->|[Hx|[]]] Hne]; [congruence | exact Hx].
      * pose proof (successor_loop_spec rv rl rr Br) as Hs.
        destruct (successor_loop rv rl rr) as [[p sv] r'].
        destruct Hs as (Br' & Hin & Hmin).
        assert (Hsv : v < sv) by (apply Hr, Hin; now left).
        cbn [snd]. split.
        -- cbn [BST]. split; [|split; [|split]];
             [intros x Hx; apply Hl in Hx; lia | exact Hmin | exact Bl
             | exact Br'].
        -- intros x. remember (BSTNode lv ll lr) as l.
           remember (BSTNode rv rl rr) as r. cbn [In_tree]. split.
           ++ intros [->|[Hx|Hx]].
              ** split; [|lia]. right; right. apply Hin. now left.
              ** split; [tauto|]. apply Hl in Hx. lia.
              ** split; [|apply Hmin in Hx; lia].
                 right; right. apply Hin. now right.
           ++ intros [[->|[Hx|Hx]] Hne]; [congruence|tauto|].
              apply Hin in Hx. tauto.
    + destruct (Z.ltb_spec v cv) as [Hlt|Hge].
      * specialize (IHl Bl).
        destruct (remove_loop v l) as [[k p] l']; simpl in *.
        destruct IHl as (Bl' & Hin). split.
        -- split; [|split; [|split]]; auto.
           intros x Hx. apply Hl, Hin, Hx.
        -- intros x. specialize (Hin x). specialize (Hr x).
           specialize (Hl x). intuition lia.
      * specialize (IHr Br).
        destruct (remove_loop v r) as [[k p] r']; simpl in *.
        destruct IHr as (Br' & Hin). split.
        -- split; [|split; [|split]]; auto.
           intros x Hx. apply Hr, Hin, Hx.
        -- intros x. specialize (Hin x). specialize (Hr x).
           specialize (Hl x). intuition lia.
Qed.

Lemma remove_tree (v : Z) (t : tree) :
  snd (remove v t) = snd (remove_loop v t).
Proof.
  unfold remove. destruct (remove_loop v t) as [[k p] t']. reflexivity.
Qed.

Lemma remove_BST (v : Z) (t : tree) : BST t -> BST (snd (remove v t)).
Proof. rewrite remove_tree. intros B. now apply remove_loop_spec. Qed.

Lemma remove_In (v : Z) (t : tree) (x : Z) :
  BST t -> (In_tree x (snd (remove v t)) <-> In_tree x t /\ x <> v).
Proof. rewrite remove_tree. intros B. now apply remove_loop_spec. Qed.

(** *** search *)

Lemma search_loop_absent (v : Z) (t : tree) :
  ~ In_tree v t -> fst (search_loop v t) = false.
Proof.
  induction t as [|cv l IHl r IHr]; simpl; [reflexivity|].
  intros Hn. destruct (Z.eqb_spec v cv) as [->|Hne]; [tauto|].
  destruct (v <? cv).
  - destruct (search_loop v l) as [fnd p] eqn:E. simpl in *. tauto.
  - destruct (search_loop v r) as [fnd p] eqn:E. simpl in *. tauto.
Qed.

Lemma search_found (v : Z) (t : tree) :
  Search.found (fst (search v t)) = fst (search_loop v t).
Proof. unfold search. destruct (search_loop v t). reflexivity. Qed.

(** *** Sequences of operations *)

Lemma mutate_BST (t : tree) (m : mutation) : BST t -> BST (mutate t m).
Proof.
  destruct m as [v|v|]; simpl; intros B.
  - now apply insert_BST.
  - now apply remove_BST.
  - exact I.
Qed.

Lemma mutate_all_BST (ms : list mutation) (t : tree) :
  BST t -> BST (mutate_all ms t).
Proof.
  revert t. induction ms as [|m ms IH]; intros t B; simpl; [exact B|].
  apply IH, mutate_BST, B.
Qed.

(** A value that is absent stays absent until it is inserted. *)
Lemma mutate_all_absent (v : Z) (ms : list mutation) (t : tree) :
  BST t -> ~ In_tree v t -> ~ In (Insert v) ms ->
  ~ In_tree v (mutate_all ms t).
Proof.
  revert t. induction ms as [|m ms IH]; intros t B Habs Hni; simpl.
  - exact Habs.
  - apply IH.
    + apply mutate_BST, B.
    + destruct m as [w|w|]; simpl.
      * rewrite insert_In. intros [->|Hin]; [|tauto].
        apply Hni. now left.
      * rewrite remove_In by exact B. tauto.
      * tauto.
    + intros Hin. apply Hni. now right.
Qed.

Lemma mutate_all_app (ms1 ms2 : list mutation) (t : tree) :
  mutate_all (ms1 ++ ms2) t = mutate_all ms2 (mutate_all ms1 t).
Proof. apply fold_left_app. Qed.

(** *** Plain traversals and batch insertion *)

Lemma inorder_traverse_elements (t : tree) (values : list Z) :
  inorder_traverse t values = values ++ elements t.
Proof.
  revert values. induction t as [|v l IHl r IHr]; intros values; simpl.
  - now rewrite app_nil_r.
  - rewrite IHr, IHl, <- !app_assoc. reflexivity.
Qed.

Lemma inorder_values (t : tree) : Traversal.values (inorder t) = elements t.
Proof. unfold inorder; simpl. apply inorder_traverse_elements. Qed.

Lemma insert_all_BST (vs : list Z) (t : tree) :
  BST t -> BST (insert_all vs t).
Proof.
  revert t. induction vs as [|v vs IH]; intros t B; simpl; [exact B|].
  apply IH, insert_BST, B.
Qed.

Lemma insert_all_In (vs : list Z) (t : tree) (x : Z) :
  In_tree x (insert_all vs t) <-> In x vs \/ In_tree x t.
Proof.
  revert t. induction vs as [|v vs IH]; intros t; simpl; [tauto|].
  rewrite IH, insert_In. intuition congruence.
Qed.

(** *** Descents *)

Lemma plug_app (C1 C2 : context) (t : tree) :
  plug (C1 ++ C2) t = plug C1 (plug C2 t).
Proof.
  induction C1 as [|[[pv d] sib] C1 IH]; simpl; [reflexivity|].
  destruct d; now rewrite IH.
Qed.

Lemma In_tree_plug (C : context) (t : tree) (x : Z) :
  In_tree x t -> In_tree x (plug C t).
Proof.
  intros Hx. induction C as [|[[pv d] sib] C IH]; simpl; [exact Hx|].
  destruct d; simpl; tauto.
Qed.

(** The comparisons with [v] lead through [C] into the subtree at its
    end, for each of the three loops that compare. *)
Lemma search_loop_plug (v : Z) (C : context) (t : tree) :
  descends v C ->
  search_loop v (plug C t)
  = (fst (search_loop v t), passed C ++ snd (search_loop v t)).
Proof.
  induction 1 as [|[[pv d] sib] C Hd _ IH]; simpl.
  - now destruct (search_loop v t).
  - simpl in Hd. destruct d; simpl.
    + destruct (Z.eqb_spec v pv); [lia|].
      destruct (Z.ltb_spec v pv); [|lia]. now rewrite IH.
    + destruct (Z.eqb_spec v pv); [lia|].
      destruct (Z.ltb_spec v pv); [lia|]. now rewrite IH.
Qed.

Lemma insert_loop_plug (v : Z) (C : context) (t : tree) :
  descends v C ->
  insert_loop v (plug C t)
  = (fst (fst (insert_loop v t)),
     passed C ++ snd (fst (insert_loop v t)),
     plug C (snd (insert_loop v t))).
Proof.
  induction 1 as [|[[pv d] sib] C Hd _ IH]; simpl.
  - now destruct (insert_loop v t) as [[ok p] t'].
  - simpl in Hd. destruct d; simpl.
    + destruct (Z.eqb_spec v pv); [lia|].
      destruct (Z.ltb_spec v pv); [|lia]. now rewrite IH.
    + destruct (Z.eqb_spec v pv); [lia|].
      destruct (Z.ltb_spec v pv); [lia|]. now rewrite IH.
Qed.

Lemma remove_loop_plug (v : Z) (C : context) (t : tree) :
  descends v C ->
  remove_loop v (plug C t)
  = (fst (fst (remove_loop v t)),
     passed C ++ snd (fst (remove_loop v t)),
     plug C (snd (remove_loop v t))).
Proof.
  induction 1 as [|[[pv d] sib] C Hd _ IH]; simpl.
  - now destruct (remove_loop v t) as [[k p] t'].
  - simpl in Hd. destruct d; simpl.
    + destruct (Z.eqb_spec pv v); [lia|]. simpl.
      destruct (Z.ltb_spec v pv); [|lia]. now rewrite IH.
    + destruct (Z.eqb_spec pv v); [lia|]. simpl.
      destruct (Z.ltb_spec v pv); [lia|]. now rewrite IH.
Qed.

(** A value that is not in the tree: the comparisons end at a null slot. *)
Lemma descent_absent (v : Z) (t : tree) :
  ~ In_tree v t -> exists C, t = plug C null /\ descends v C.
Proof.
  induction t as [|cv l IHl r IHr]; simpl; intros Hn.
  - exists []. split; [reflexivity | constructor].
  - destruct (Z.lt_total v cv) as [Hlt|[->|Hgt]]; [|tauto|].
    + destruct IHl as (C & -> & Hd); [tauto|].
      exists ((cv, GoLeft, r) :: C). split; [reflexivity|].
      constructor; [exact Hlt | exact Hd].
    + destruct IHr as (C & -> & Hd); [tauto|].
      exists ((cv, GoRight, l) :: C). split; [reflexivity|].
      constructor; [exact Hgt | exact Hd].
Qed.

(** A value of a search tree: the comparisons end at its node. *)
Lemma descent_present (v : Z) (t : tree) :
  BST t -> In_tree v t ->
  exists C l r, t = plug C (BSTNode v l r) /\ descends v C.
Proof.
  induction t as [|cv l IHl r IHr]; simpl; [tauto|].
  intros (Hl & Hr & Bl & Br) [->|[Hin|Hin]].
  - exists [], l, r. split; [reflexivity | constructor].
  - destruct (IHl Bl Hin) as (C & l' & r' & -> & Hd).
    exists ((cv, GoLeft, r) :: C), l', r'. split; [reflexivity|].
    constructor; [apply Hl, Hin | exact Hd].
  - destruct (IHr Br Hin) as (C & l' & r' & -> & Hd).
    exists ((cv, GoRight, l) :: C), l', r'. split; [reflexivity|].
    constructor; [apply Hr, Hin | exact Hd].
Qed.

(** The left spine of a node ends at a node without a left child, and the
    successor descent walks it. *)
Lemma successor_loop_spine (v : Z) (l r : tree) :
  exists C sv sr,
    leftward C /\
    BSTNode v l r = plug C (BSTNode sv null sr) /\
    successor_loop v l r = (passed C ++ [sv], sv, plug C sr).
Proof.
  revert v r. induction l as [|lv ll IH lr _]; intros v r.
  - exists [], v, r. repeat split. constructor.
  - destruct (IH lv lr) as (C & sv & sr & HL & Heq & Hs).
    exists ((v, GoLeft, r) :: C), sv, sr. split; [|split].
    + constructor; [reflexivity | exact HL].
    + simpl. now rewrite <- Heq.
    + cbn [successor_loop]. rewrite Hs. reflexivity.
Qed.

Lemma findMin_loop_spine (v : Z) (l r : tree) :
  exists C m sub,
    leftward C /\
    BSTNode v l r = plug C (BSTNode m null sub) /\
    findMin_loop v l = (passed C ++ [m], m).
Proof.
  revert v r. induction l as [|lv ll IH lr _]; intros v r.
  - exists [], v, r. repeat split. constructor.
  - destruct (IH lv lr) as (C & m & sub & HL & Heq & Hs).
    exists ((v, GoLeft, r) :: C), m, sub. split; [|split].
    + constructor; [reflexivity | exact HL].
    + simpl. now rewrite <- Heq.
    + cbn [findMin_loop]. rewrite Hs. reflexivity.
Qed.

Lemma findMax_loop_spine (v : Z) (l r : tree) :
  exists C m sub,
    rightward C /\
    BSTNode v l r = plug C (BSTNode m sub null) /\
    findMax_loop v r = (passed C ++ [m], m).
Proof.
  revert v l. induction r as [|rv rl _ rr IH]; intros v l.
  - exists [], v, l. repeat split. constructor.
  - destruct (IH rv rl) as (C & m & sub & HL & Heq & Hs).
    exists ((v, GoRight, l) :: C), m, sub. split; [|split].
    + constructor; [reflexivity | exact HL].
    + simpl. now rewrite <- Heq.
    + cbn [findMax_loop]. rewrite Hs. reflexivity.
Qed.

(** In a search tree the end of the left spine is below everything else,
    and the end of the right spine above. *)
Lemma leftward_minimum (C : context) (m : Z) (sub : tree) (x : Z) :
  leftward C -> BST (plug C (BSTNode m null sub)) ->
  In_tree x (plug C (BSTNode m null sub)) -> m <= x.
Proof.
  induction 1 as [|[[pv d] sib] C Hd _ IH]; simpl.
  - intros (_ & Hr & _) [->|[[]|Hx]]; [lia|]. apply Hr in Hx. lia.
  - simpl in Hd. subst d. simpl.
    intros (Hl & Hr & Bl & Br) Hx.
    assert (Hm : m < pv) by (apply Hl, In_tree_plug; now left).
    destruct Hx as [->|[Hx|Hx]]; [lia | now apply IH |].
    apply Hr in Hx. lia.
Qed.

Lemma rightward_maximum (C : context) (m : Z) (sub : tree) (x : Z) :
  rightward C -> BST (plug C (BSTNode m sub null)) ->
  In_tree x (plug C (BSTNode m sub null)) -> x <= m.
Proof.
  induction 1 as [|[[pv d] sib] C Hd _ IH]; simpl.
  - intros (Hl & _ & _) [->|[Hx|[]]]; [lia|]. apply Hl in Hx. lia.
  - simpl in Hd. subst d. simpl.
    intros (Hl & Hr & Bl & Br) Hx.
    assert (Hm : pv < m) by (apply Hr, In_tree_plug; now left).
    destruct Hx as [->|[Hx|Hx]]; [lia | | now apply IH].
    apply Hl in Hx. lia.
Qed.

(** *** Detailed traversals *)

Lemma inorderDetailed_traverse_log (t : tree) (steps : list Step.t)
    (values : list Z) :
  inorderDetailed_traverse t (steps, values)
  = (steps ++ event_log Inorder t, values ++ visit_order Inorder t).
Proof.
  revert steps values.
  induction t as [|v l IHl r IHr]; intros steps values; simpl.
  - now rewrite !app_nil_r.
  - rewrite IHl, IHr. f_equal; now rewrite <- ?app_assoc.
Qed.

Lemma preorderDetailed_traverse_log (t : tree) (steps : list Step.t)
    (values : list Z) :
  preorderDetailed_traverse t (steps, values)
  = (steps ++ event_log Preorder t, values ++ visit_order Preorder t).
Proof.
  revert steps values.
  induction t as [|v l IHl r IHr]; intros steps values; simpl.
  - now rewrite !app_nil_r.
  - rewrite IHl, IHr. f_equal; now rewrite <- ?app_assoc.
Qed.

Lemma postorderDetailed_traverse_log (t : tree) (steps : list Step.t)
    (values : list Z) :
  postorderDetailed_traverse t (steps, values)
  = (steps ++ event_log Postorder t, values ++ visit_order Postorder t).
Proof.
  revert steps values.
  induction t as [|v l IHl r IHr]; intros steps values; simpl.
  - now rewrite !app_nil_r.
  - rewrite IHl, IHr. f_equal; now rewrite <- ?app_assoc.
Qed.

Lemma detailed_steps (k : order) (t : tree) :
  Detailed.steps (detailed k t) = event_log k t.
Proof.
  destruct k; simpl.
  - unfold inorderDetailed. now rewrite inorderDetailed_traverse_log.
  - unfold preorderDetailed. now rewrite preorderDetailed_traverse_log.
  - unfold postorderDetailed. now rewrite postorderDetailed_traverse_log.
Qed.

Lemma detailed_values (k : order) (t : tree) :
  Detailed.values (detailed k t) = visit_order k t.
Proof.
  destruct k; simpl.
  - unfold inorderDetailed. now rewrite inorderDetailed_traverse_log.
  - unfold preorderDetailed. now rewrite preorderDetailed_traverse_log.
  - unfold postorderDetailed. now rewrite postorderDetailed_traverse_log.
Qed.

Lemma occurrences_app (a : string) (v : Z) (log1 log2 : list Step.t) :
  occurrences a v (log1 ++ log2)
  = (occurrences a v log1 + occurrences a v log2)%nat.
Proof. unfold occurrences. now rewrite filter_app, length_app. Qed.

Lemma count_occ_singleton (v x : Z) :
  count_occ Z.eq_dec [v] x = if v =? x then 1%nat else 0%nat.
Proof.
  simpl. destruct (Z.eq_dec v x), (Z.eqb_spec v x); congruence.
Qed.

(** Each of the three events of a value occurs once per node holding it. *)
Lemma occurrences_event_log (k : order) (t : tree) (v : Z) :
  occurrences "enter" v (event_log k t) = count_occ Z.eq_dec (elements t) v /\
  occurrences "visit" v (event_log k t) = count_occ Z.eq_dec (elements t) v /\
  occurrences "exit" v (event_log k t) = count_occ Z.eq_dec (elements t) v.
Proof.
  induction t as [|cv l IHl r IHr]; [now destruct k|].
  destruct IHl as (El & Vl & Xl), IHr as (Er & Vr & Xr).
  change (elements (BSTNode cv l r)) with (elements l ++ [cv] ++ elements r).
  rewrite !count_occ_app, count_occ_singleton.
  destruct k; cbn [event_log]; rewrite !occurrences_app;
    rewrite ?El, ?Vl, ?Xl, ?Er, ?Vr, ?Xr;
    unfold occurrences; simpl; destruct (cv =? v); simpl; lia.
Qed.

Lemma depth_app (log1 log2 : list Step.t) :
  depth (log1 ++ log2) = depth log1 + depth log2.
Proof. induction log1 as [|s log1 IH]; simpl; [reflexivity|]. lia. Qed.

Lemma low_weaken (k k' : Z) (log : list Step.t) :
  low k log -> k' <= k -> low k' log.
Proof. intros H Hle n. specialize (H n). lia. Qed.

Lemma low_app (k : Z) (log1 log2 : list Step.t) :
  low k log1 -> low (k - depth log1) log2 -> low k (log1 ++ log2).
Proof.
  intros H1 H2 n. rewrite firstn_app, depth_app.
  destruct (Nat.le_gt_cases n (List.length log1)) as [Hle|Hgt].
  - replace (n - List.length log1)%nat with 0%nat by lia.
    simpl. specialize (H1 n). lia.
  - rewrite firstn_all2 by lia.
    specialize (H2 (n - List.length log1)%nat). lia.
Qed.

Lemma low_singleton (s : Step.t) : low (Z.min 0 (depth [s])) [s].
Proof.
  intros [|n]; [simpl; lia|].
  rewrite firstn_all2 by (simpl; lia). lia.
Qed.

(** The log of a subtree is balanced: no prefix exits more than it
    entered, and the whole enters as often as it exits. *)
Lemma event_log_balanced (k : order) (t : tree) :
  low 0 (event_log k t) /\ depth (event_log k t) = 0.
Proof.
  induction t as [|v l [Ll Dl] r [Lr Dr]].
  - split; [|reflexivity]. intros n. now rewrite firstn_nil.
  - assert (Le : low 0 [enter v]) by apply (low_singleton (enter v)).
    assert (Lv : low (-1) [visit v])
      by (apply low_weaken with (k := 0);
          [apply (low_singleton (visit v)) | lia]).
    assert (Lx : low (-1) [exit v]) by apply (low_singleton (exit v)).
    apply low_weaken with (k' := -1) in Ll; [|lia].
    apply low_weaken with (k' := -1) in Lr; [|lia].
    destruct k; cbn [event_log]; (split;
      [ repeat (apply low_app;
                rewrite ?depth_app, ?Dl, ?Dr; try assumption)
      | rewrite !depth_app, Dl, Dr; reflexivity ]).
Qed.

End Engine.

(* ================================================================= *)
(** ** The tree engine: the properties of the specification *)

(** C1.  Insert, remove and clear each keep the BST invariant (at every
    node, left subtree values < node value < right subtree values; no value
    twice), and so does any sequence of them; and once a value that was
    inserted has been removed, searching for it reports [found = false],
    whatever happened between the insertion and the removal and whatever
    other than inserting it again happened since. *)
Theorem mutations_preserve_invariant (t : tree) (v : Z)
    (between after : list mutation) :
  invariant t ->
  invariant (snd (insert v t)) /\
  invariant (snd (remove v t)) /\
  invariant (snd (clear t)) /\
  invariant (mutate_all between t) /\
  Search.found (fst (search v (snd (remove v (snd (insert v t)))))) = false /\
  (~ In (Insert v) after ->
   Search.found
     (fst (search v
             (mutate_all (Insert v :: between ++ Remove v :: after) t)))
   = false).
Proof.
  intros [B _]. split; [|split; [|split; [|split; [|split]]]].
  - apply BST_invariant, insert_BST, B.
  - apply BST_invariant, remove_BST, B.
  - apply BST_invariant. exact I.
  - apply BST_invariant, mutate_all_BST, B.
  - rewrite search_found. apply search_loop_absent.
    rewrite remove_In by (apply insert_BST, B). tauto.
  - intros Hni. rewrite search_found. apply search_loop_absent.
    change (Insert v :: between ++ Remove v :: after)
      with ([Insert v] ++ between ++ [Remove v] ++ after).
    rewrite !mutate_all_app.
    set (t1 := mutate_all between (mutate_all [Insert v] t)).
    assert (B1 : BST t1) by (apply mutate_all_BST, mutate_all_BST, B).
    apply mutate_all_absent; [|simpl|exact Hni].
    + apply (mutate_BST t1 (Remove v)), B1.
    + rewrite remove_In by exact B1. tauto.
Qed.

Lemma example_tree_BST : BST example_tree.
Proof. apply insert_all_BST. exact I. Qed.

Lemma mutations_preserve_invariant_witness :
  invariant example_tree /\
  invariant (snd (remove 15 example_tree)) /\
  Search.found
    (fst (search 30
            (mutate_all [Insert 30; Remove 15; Insert 15; Remove 30; Insert 8]
               example_tree))) = false.
Proof.
  assert (I0 : invariant example_tree)
    by (apply BST_invariant, example_tree_BST).
  split; [exact I0|].
  pose proof (mutations_preserve_invariant example_tree 15 [] [] I0) as H15.
  split; [apply H15|].
  apply (mutations_preserve_invariant example_tree 30
           [Remove 15; Insert 15] [Insert 8] I0).
  intros [H|[]]. discriminate H.
Defined.

(** C3.  Whatever distinct values are inserted one after the other into the
    empty tree, [inorder()] returns exactly those values, in strictly
    ascending order.  After inserting 15, 6, 23, 4, 7, 20, 50 it returns
    [4, 6, 7, 15, 20, 23, 50], and [search(20)] finds 20 along the path
    [15, 23, 20]. *)
Theorem inorder_ascending (vs : list Z) :
  NoDup vs ->
  StronglySorted Z.lt (Traversal.values (inorder (insert_all vs null))) /\
  Permutation vs (Traversal.values (inorder (insert_all vs null))) /\
  Traversal.values (inorder example_tree) = [4; 6; 7; 15; 20; 23; 50] /\
  Search.found (fst (search 20 example_tree)) = true /\
  Search.path (fst (search 20 example_tree)) = [15; 23; 20].
Proof.
  intros Hnd. rewrite inorder_values.
  assert (Hs : StronglySorted Z.lt (elements (insert_all vs null)))
    by (apply BST_elements_sorted, insert_all_BST; exact I).
  repeat apply conj; try reflexivity.
  - exact Hs.
  - apply NoDup_Permutation; [exact Hnd | apply sorted_NoDup, Hs |].
    intros x. rewrite In_tree_elements, insert_all_In. simpl. tauto.
Qed.

Lemma inorder_ascending_witness :
  StronglySorted Z.lt (Traversal.values (inorder (insert_all [3; 1; 2] null)))
  /\ Permutation [3; 1; 2]
       (Traversal.values (inorder (insert_all [3; 1; 2] null))).
Proof.
  assert (Hnd : NoDup [3; 1; 2]).
  { repeat constructor; simpl; intuition discriminate. }
  split; apply (inorder_ascending [3; 1; 2] Hnd).
Defined.

(** C4.  In a tree that satisfies the invariant, inserting a value that is
    already present returns [success = false] with the values compared on
    the way down to it, that value included, and the tree is as before.
    Searching for, or removing, a value that is not present returns
    [found = false], respectively [success = false], with the values
    compared on the way down to the null slot, and the tree is as before. *)
Theorem duplicate_and_absent_leave_tree (t : tree) (v : Z) :
  (BST t -> In_tree v t ->
   exists C l r,
     t = plug C (BSTNode v l r) /\ descends v C /\
     insert v t
     = ({| Op.success := false; Op.path := passed C ++ [v];
           Op.message :=
             "Duplicate value " ++ show_number v ++ " not allowed" |}, t)) /\
  (~ In_tree v t ->
   exists C,
     t = plug C null /\ descends v C /\
     search v t
     = ({| Search.found := false; Search.path := passed C;
           Search.message := "Value " ++ show_number v ++ " not found" |}, t) /\
     remove v t
     = ({| Op.success := false; Op.path := passed C;
           Op.message := "Value " ++ show_number v ++ " not found" |}, t)).
Proof.
  split.
  - intros B Hin.
    destruct (descent_present v t B Hin) as (C & l & r & Ht & Hd).
    exists C, l, r. split; [exact Ht|]. split; [exact Hd|].
    assert (Hloop : insert_loop v t = (false, passed C ++ [v], t)).
    { rewrite Ht at 1. rewrite (insert_loop_plug v C _ Hd).
      simpl. rewrite Z.eqb_refl. simpl. now rewrite <- Ht. }
    unfold insert. destruct t as [|cv tl tr]; [destruct Hin|].
    rewrite Hloop. reflexivity.
  - intros Hn. destruct (descent_absent v t Hn) as (C & Ht & Hd).
    exists C. split; [exact Ht|]. split; [exact Hd|]. split.
    + unfold search. rewrite Ht at 1.
      rewrite (search_loop_plug v C null Hd). simpl.
      now rewrite app_nil_r.
    + unfold remove. rewrite Ht at 1.
      rewrite (remove_loop_plug v C null Hd). simpl.
      now rewrite app_nil_r, <- Ht.
Qed.

Lemma duplicate_and_absent_leave_tree_witness :
  (exists C l r,
     example_tree = plug C (BSTNode 7 l r) /\ descends 7 C /\
     insert 7 example_tree
     = ({| Op.success := false; Op.path := passed C ++ [7];
           Op.message := "Duplicate value 7 not allowed" |}, example_tree)) /\
  (exists C,
     example_tree = plug C null /\ descends 21 C /\
     search 21 example_tree
     = ({| Search.found := false; Search.path := passed C;
           Search.message := "Value 21 not found" |}, example_tree) /\
     remove 21 example_tree
     = ({| Op.success := false; Op.path := passed C;
           Op.message := "Value 21 not found" |}, example_tree)).
Proof.
  split.
  - apply (proj1 (duplicate_and_absent_leave_tree example_tree 7)).
    + apply example_tree_BST.
    + vm_compute. tauto.
  - apply (proj2 (duplicate_and_absent_leave_tree example_tree 21)).
    vm_compute. intuition discriminate.
Defined.

(** C2.  Removing a value whose node has two children: the successor is
    the node at the end of the left spine of the right subtree; the path
    returned is the descent to the node, the node, the spine and the
    successor; the node's value becomes the successor's value, and the slot
    that held the successor holds the successor's right child, so that the
    successor's value is still in the tree.  On the example tree,
    [remove(15)] returns [success = true] and leaves 20 at the root. *)
Theorem remove_two_children :
  (forall (root : tree) (v : Z) (C : context) (l r : tree),
     root = plug C (BSTNode v l r) -> descends v C ->
     l <> null -> r <> null ->
     exists Cs sv sr,
       leftward Cs /\
       r = plug Cs (BSTNode sv null sr) /\
       remove v root
       = ({| Op.success := true;
             Op.path := passed C ++ [v] ++ passed Cs ++ [sv];
             Op.message :=
               "Removed " ++ show_number v
                 ++ " (two children, replaced with " ++ show_number sv ++ ")" |},
          plug C (BSTNode sv l (plug Cs sr))) /\
       In_tree sv (snd (remove v root))) /\
  Op.success (fst (remove 15 example_tree)) = true /\
  root_value (snd (remove 15 example_tree)) = Some 20.
Proof.
  split; [|split; reflexivity].
  intros root v C l r Hroot Hd Hl Hr.
  destruct l as [|lv ll lr]; [congruence|].
  destruct r as [|rv rl rr]; [congruence|].
  destruct (successor_loop_spine rv rl rr) as (Cs & sv & sr & HL & Heq & Hs).
  exists Cs, sv, sr. split; [exact HL|]. split; [exact Heq|].
  assert (Hrm : remove v root
                = ({| Op.success := true;
                      Op.path := passed C ++ [v] ++ passed Cs ++ [sv];
                      Op.message :=
                        "Removed " ++ show_number v
                          ++ " (two children, replaced with "
                          ++ show_number sv ++ ")" |},
                   plug C (BSTNode sv (BSTNode lv ll lr) (plug Cs sr)))).
  { unfold remove. rewrite Hroot, (remove_loop_plug v C _ Hd).
    cbn [remove_loop]. rewrite Z.eqb_refl. cbn [negb].
    rewrite Hs. reflexivity. }
  split; [exact Hrm|].
  rewrite Hrm. cbn [snd]. apply In_tree_plug. now left.
Qed.

Lemma remove_two_children_witness :
  exists Cs sv sr,
    leftward Cs /\
    BSTNode 23 (BSTNode 20 null null) (BSTNode 50 null null)
    = plug Cs (BSTNode sv null sr) /\
    remove 15 example_tree
    = ({| Op.success := true;
          Op.path := passed [] ++ [15] ++ passed Cs ++ [sv];
          Op.message :=
            "Removed " ++ show_number 15
              ++ " (two children, replaced with " ++ show_number sv ++ ")" |},
       plug []
         (BSTNode sv (BSTNode 6 (BSTNode 4 null null) (BSTNode 7 null null))
            (plug Cs sr))) /\
    In_tree sv (snd (remove 15 example_tree)).
Proof.
  apply (proj1 remove_two_children example_tree 15 []).
  - reflexivity.
  - constructor.
  - discriminate.
  - discriminate.
Defined.

(** C8.  On the empty tree [findMin] and [findMax] return [value = null],
    an empty path and the message 'Tree is empty'.  On any other tree the
    path of [findMin] is the left spine from the root, node by node, down
    to the node without a left child; that node's value ends the path and
    is the value returned; and when the tree satisfies the invariant it is
    the least value of the tree.  Likewise [findMax] with the right spine
    and the greatest value.  Neither changes the tree. *)
Theorem findMin_findMax_spec (t : tree) :
  snd (findMin t) = t /\ snd (findMax t) = t /\
  (t = null ->
   fst (findMin t)
   = {| MinMax.value := None; MinMax.path := [];
        MinMax.message := "Tree is empty" |} /\
   fst (findMax t)
   = {| MinMax.value := None; MinMax.path := [];
        MinMax.message := "Tree is empty" |}) /\
  (t <> null ->
   (exists C m sub,
      leftward C /\ t = plug C (BSTNode m null sub) /\
      fst (findMin t)
      = {| MinMax.value := Some m; MinMax.path := passed C ++ [m];
           MinMax.message := "Minimum value is " ++ show_number m |} /\
      In_tree m t /\
      (BST t -> forall x, In_tree x t -> m <= x)) /\
   (exists C m sub,
      rightward C /\ t = plug C (BSTNode m sub null) /\
      fst (findMax t)
      = {| MinMax.value := Some m; MinMax.path := passed C ++ [m];
           MinMax.message := "Maximum value is " ++ show_number m |} /\
      In_tree m t /\
      (BST t -> forall x, In_tree x t -> x <= m))).
Proof.
  split; [|split; [|split]].
  - destruct t as [|v l r]; simpl; [reflexivity|].
    now destruct (findMin_loop v l).
  - destruct t as [|v l r]; simpl; [reflexivity|].
    now destruct (findMax_loop v r).
  - intros ->. split; reflexivity.
  - intros Hnn. destruct t as [|v l r]; [congruence|]. split.
    + destruct (findMin_loop_spine v l r) as (C & m & sub & HL & Heq & Hs).
      exists C, m, sub. split; [exact HL|]. split; [exact Heq|].
      split; [|split].
      * simpl. rewrite Hs. reflexivity.
      * rewrite Heq. apply In_tree_plug. now left.
      * rewrite Heq. intros B x. now apply leftward_minimum.
    + destruct (findMax_loop_spine v l r) as (C & m & sub & HL & Heq & Hs).
      exists C, m, sub. split; [exact HL|]. split; [exact Heq|].
      split; [|split].
      * simpl. rewrite Hs. reflexivity.
      * rewrite Heq. apply In_tree_plug. now left.
      * rewrite Heq. intros B x. now apply rightward_maximum.
Qed.

Lemma findMin_findMax_spec_witness :
  (fst (findMin null)
   = {| MinMax.value := None; MinMax.path := [];
        MinMax.message := "Tree is empty" |}) /\
  (exists C m sub,
     leftward C /\ example_tree = plug C (BSTNode m null sub) /\
     fst (findMin example_tree)
     = {| MinMax.value := Some m; MinMax.path := passed C ++ [m];
          MinMax.message := "Minimum value is " ++ show_number m |} /\
     In_tree m example_tree /\
     (forall x, In_tree x example_tree -> m <= x)).
Proof.
  split.
  - apply (proj1 (proj2 (proj2 (findMin_findMax_spec null)))). reflexivity.
  - assert (Hnn : example_tree <> null) by (vm_compute; discriminate).
    destruct (proj1 (proj2 (proj2 (proj2 (findMin_findMax_spec example_tree)))
                       Hnn))
      as (C & m & sub & HL & Heq & Hr & Hin & Hmin).
    exists C, m, sub. repeat split; auto.
    intros x. apply Hmin. apply example_tree_BST.
Defined.

(** C7.  In the steps each of the three detailed traversals returns, the
    enter, visit and exit events of a value are each as many as the nodes
    holding it, which in a tree satisfying the invariant is exactly one of
    each for every value of the tree; no prefix of the log has more exit
    than enter events, and the whole log has as many of one as of the
    other. *)
Theorem detailed_traversal_events (k : order) (t : tree) :
  (forall v,
     occurrences "enter" v (Detailed.steps (detailed k t))
     = count_occ Z.eq_dec (elements t) v /\
     occurrences "visit" v (Detailed.steps (detailed k t))
     = count_occ Z.eq_dec (elements t) v /\
     occurrences "exit" v (Detailed.steps (detailed k t))
     = count_occ Z.eq_dec (elements t) v) /\
  (BST t ->
   forall v, In_tree v t ->
     occurrences "enter" v (Detailed.steps (detailed k t)) = 1%nat /\
     occurrences "visit" v (Detailed.steps (detailed k t)) = 1%nat /\
     occurrences "exit" v (Detailed.steps (detailed k t)) = 1%nat) /\
  (forall n, 0 <= depth (firstn n (Detailed.steps (detailed k t)))) /\
  depth (Detailed.steps (detailed k t)) = 0.
Proof.
  rewrite detailed_steps. split; [|split; [|split]].
  - intros v. apply occurrences_event_log.
  - intros B v Hin.
    assert (Hone : count_occ Z.eq_dec (elements t) v = 1%nat).
    { apply NoDup_count_occ'.
      - apply sorted_NoDup, BST_elements_sorted, B.
      - apply In_tree_elements, Hin. }
    destruct (occurrences_event_log k t v) as (He & Hv & Hx).
    rewrite He, Hv, Hx. auto.
  - apply event_log_balanced.
  - apply event_log_balanced.
Qed.

Lemma detailed_traversal_events_witness :
  occurrences "enter" 20 (Detailed.steps (detailed Postorder example_tree))
  = 1%nat /\
  occurrences "visit" 20 (Detailed.steps (detailed Postorder example_tree))
  = 1%nat /\
  occurrences "exit" 20 (Detailed.steps (detailed Postorder example_tree))
  = 1%nat.
Proof.
  apply (proj1 (proj2 (detailed_traversal_events Postorder example_tree))).
  - apply example_tree_BST.
  - vm_compute. tauto.
Defined.

(* ================================================================= *)
(** ** The frame generators *)

Section Generators.

Variable currentNodes : list VisNode.t.

Lemma array_get_here {A : Type} (pre : list A) (v : A) (rest : list A) :
  array_get (pre ++ v :: rest) (Z.of_nat (List.length pre)) = Some v.
Proof.
  unfold array_get. destruct (Z.ltb_spec (Z.of_nat (List.length pre)) 0); [lia|].
  rewrite Nat2Z.id, nth_error_app2 by lia.
  now rewrite Nat.sub_diag.
Qed.

Lemma array_get_next {A : Type} (pre : list A) (v : A) (rest : list A) :
  array_get (pre ++ v :: rest) (Z.of_nat (List.length pre) + 1) = hd_error rest.
Proof.
  unfold array_get.
  destruct (Z.ltb_spec (Z.of_nat (List.length pre) + 1) 0); [lia|].
  replace (Z.to_nat (Z.of_nat (List.length pre) + 1))
    with (S (List.length pre)) by lia.
  rewrite nth_error_app2 by lia.
  replace (S (List.length pre) - List.length pre)%nat with 1%nat by lia.
  now destruct rest.
Qed.

(** *** generatePathFrames *)

(** One iteration, at the index of [v] in [pre ++ v :: rest]. *)
Lemma path_iteration_at (pre : list Z) (v : Z) (rest : list Z)
    (s : PathLoop.state) :
  path_iteration currentNodes (pre ++ v :: rest) s (List.length pre)
  = match getPos currentNodes v with
    | None => s
    | Some pos =>
        let visited := PathLoop.currentVisited s ++ [v] in
        let edges := PathLoop.currentAnimatedEdges s in
        let arrive := arrival_frame v pos visited edges in
        let next :=
          match rest with
          | [] => None
          | w :: _ =>
              match getPos currentNodes w with
              | None => None
              | Some q => Some (edge_between pos v q w)
              end
          end in
        match next with
        | None =>
            {| PathLoop.frames := PathLoop.frames s ++ [arrive];
               PathLoop.currentVisited := visited;
               PathLoop.currentAnimatedEdges := edges;
               PathLoop.currentPointer := Some pos;
               PathLoop.currentHighlighted := Some v |}
        | Some edge =>
            {| PathLoop.frames :=
                 (PathLoop.frames s ++ [arrive])
                   ++ [arrival_frame v pos visited (edges ++ [edge])];
               PathLoop.currentVisited := visited;
               PathLoop.currentAnimatedEdges := edges ++ [edge];
               PathLoop.currentPointer := Some pos;
               PathLoop.currentHighlighted := Some v |}
        end
    end.
Proof.
  unfold path_iteration. rewrite array_get_here, array_get_next.
  destruct (getPos currentNodes v) as [pos|]; [|reflexivity].
  rewrite length_app. cbn [List.length].
  destruct rest as [|w rest]; cbn [List.length hd_error].
  - destruct (Z.ltb_spec (Z.of_nat (List.length pre))
                (Z.of_nat (List.length pre + 1) - 1)); [lia|].
    reflexivity.
  - destruct (Z.ltb_spec (Z.of_nat (List.length pre))
                (Z.of_nat (List.length pre + S (S (List.length rest))) - 1));
      [|lia].
    destruct (getPos currentNodes w) as [q|]; reflexivity.
Qed.

(** The loop over the indices of [rest] inside [pre ++ rest] pushes the
    frames of [fromPath] for [rest]. *)
Lemma path_loop_fromPath (rest pre : list Z) (s : PathLoop.state) :
  let s' :=
    fold_left (path_iteration currentNodes (pre ++ rest))
      (seq (List.length pre) (List.length rest)) s in
  let '(fs, vis, es) :=
    fromPath (getPos currentNodes) (PathLoop.currentVisited s)
      (PathLoop.currentAnimatedEdges s) rest in
  PathLoop.frames s' = PathLoop.frames s ++ fs /\
  PathLoop.currentVisited s' = vis /\
  PathLoop.currentAnimatedEdges s' = es.
Proof.
  revert pre s. induction rest as [|v rest IH]; intros pre s.
  - simpl. now rewrite app_nil_r.
  - cbn [List.length seq fold_left].
    specialize (IH (pre ++ [v])).
    rewrite <- app_assoc, length_app, Nat.add_1_r in IH. cbn [app] in IH.
    specialize (IH (path_iteration currentNodes (pre ++ v :: rest) s
                      (List.length pre))).
    cbv zeta in IH. cbv zeta.
    rewrite (path_iteration_at pre v rest s) in IH |- *.
    cbn [fromPath]. cbv zeta in IH |- *.
    destruct (getPos currentNodes v) as [pos|]; [|exact IH].
    destruct (match rest with
              | [] => None
              | w :: _ =>
                  match getPos currentNodes w with
                  | None => None
                  | Some q =>
                      Some (edge_between pos v q w)
                  end
              end) as [edge|];
      cbn [PathLoop.frames PathLoop.currentVisited
             PathLoop.currentAnimatedEdges] in IH;
      destruct (fromPath (getPos currentNodes) _ _ rest) as [[fs vis] es];
      destruct IH as (Hf & Hv & He);
      (split; [rewrite Hf, <- !app_assoc; reflexivity | split; assumption]).
Qed.

Lemma fromPath_pathNodes (lookup : Z -> option Point.t) (path : list Z)
    (visited : list Z) (edges : list AnimatedEdge) :
  Forall (fun f => pathNodes f = [])
    (fst (fst (fromPath lookup visited edges path))).
Proof.
  revert visited edges.
  induction path as [|v rest IH]; intros visited edges; cbn [fromPath].
  - constructor.
  - destruct (lookup v) as [pos|]; [|apply IH].
    destruct (match rest with
              | [] => None
              | w :: _ =>
                  match lookup w with
                  | None => None
                  | Some q => Some (edge_between pos v q w)
                  end
              end) as [edge|].
    + specialize (IH (visited ++ [v]) (edges ++ [edge])).
      destruct (fromPath lookup _ _ rest) as [[fs vis] es].
      repeat constructor. exact IH.
    + specialize (IH (visited ++ [v]) edges).
      destruct (fromPath lookup _ _ rest) as [[fs vis] es].
      repeat constructor. exact IH.
Qed.

Lemma generatePathFrames_pathNodes (path : list Z) (finalHighlight : option Z) :
  Forall (fun f => pathNodes f = [])
    (generatePathFrames currentNodes path finalHighlight).
Proof.
  unfold generatePathFrames.
  pose proof (path_loop_fromPath path [] PathLoop.initial) as H.
  pose proof (fromPath_pathNodes (getPos currentNodes) path [] []) as Hfs.
  cbn [app List.length PathLoop.initial PathLoop.currentVisited
         PathLoop.currentAnimatedEdges PathLoop.frames] in H.
  cbv zeta in H.
  destruct (fromPath (getPos currentNodes) [] [] path) as [[fs vis] es].
  destruct H as (Hf & _ & _). rewrite Hf.
  assert (Hloop : Forall (fun f => pathNodes f = []) ([blank_frame] ++ fs))
    by (constructor; [reflexivity | exact Hfs]).
  destruct finalHighlight as [target|]; [|exact Hloop].
  destruct (getPos currentNodes target); [|exact Hloop].
  apply Forall_app. split; [exact Hloop | repeat constructor].
Qed.

(** *** generateTraversalFrames *)

Lemma traversal_state_snoc (pre : list Step.t) (step : Step.t) :
  traversal_state currentNodes (pre ++ [step])
  = traversal_iteration currentNodes (traversal_state currentNodes pre) step.
Proof. unfold traversal_state. now rewrite fold_left_app. Qed.

(** An iteration leaves the frames pushed so far in place and pushes at
    most one more, whose list of connected edges is empty. *)
Lemma traversal_iteration_frames (s : TraversalLoop.state) (step : Step.t) :
  exists fs,
    TraversalLoop.frames (traversal_iteration currentNodes s step)
    = TraversalLoop.frames s ++ fs /\
    Forall (fun f => connectedEdges f = []) fs.
Proof.
  unfold traversal_iteration.
  destruct (getPos currentNodes (Step.value step)) as [pos|];
    [|exists []; split; [now rewrite app_nil_r | constructor]].
  destruct (String.eqb (Step.action step) "enter");
    [eexists; split; [reflexivity | repeat constructor]|].
  destruct (String.eqb (Step.action step) "visit");
    [eexists; split; [reflexivity | repeat constructor]|].
  destruct (String.eqb (Step.action step) "exit");
    [|exists []; split; [now rewrite app_nil_r | constructor]].
  destruct (array_get _ _) as [parent|];
    [destruct (parent =? 0)|];
    (eexists; split; [reflexivity | repeat constructor]).
Qed.

Lemma traversal_state_connectedEdges (steps : list Step.t) :
  Forall (fun f => connectedEdges f = [])
    (TraversalLoop.frames (traversal_state currentNodes steps)).
Proof.
  induction steps as [|step steps IH] using rev_ind.
  - repeat constructor.
  - rewrite traversal_state_snoc.
    destruct (traversal_iteration_frames
                (traversal_state currentNodes steps) step) as (fs & -> & Hfs).
    apply Forall_app. now split.
Qed.

Lemma generateTraversalFrames_connectedEdges (steps : list Step.t) :
  Forall (fun f => connectedEdges f = [])
    (generateTraversalFrames currentNodes steps).
Proof.
  unfold generateTraversalFrames. apply Forall_app. split.
  - apply traversal_state_connectedEdges.
  - repeat constructor.
Qed.

(** Every value on the path-node stack has a coordinate: it was pushed by
    an enter event that was not skipped. *)
Lemma traversal_state_stack_positions (steps : list Step.t) :
  Forall (fun w => getPos currentNodes w <> None)
    (TraversalLoop.currentPathNodes (traversal_state currentNodes steps)).
Proof.
  induction steps as [|step steps IH] using rev_ind; [constructor|].
  rewrite traversal_state_snoc. unfold traversal_iteration.
  set (s := traversal_state currentNodes steps) in *.
  assert (Hfilter :
            Forall (fun w => getPos currentNodes w <> None)
              (filter (fun w => negb (w =? Step.value step))
                 (TraversalLoop.currentPathNodes s))).
  { rewrite Forall_forall in *. intros w Hw.
    apply filter_In in Hw. now apply IH. }
  destruct (getPos currentNodes (Step.value step)) as [pos|] eqn:Hpos;
    [|exact IH].
  destruct (String.eqb (Step.action step) "enter").
  { cbn. apply Forall_app. split; [exact IH|].
    constructor; [congruence | constructor]. }
  destruct (String.eqb (Step.action step) "visit"); [exact IH|].
  destruct (String.eqb (Step.action step) "exit"); [|exact IH].
  destruct (array_get _ _) as [parent|];
    [destruct (parent =? 0)|]; exact Hfilter.
Qed.

(** The visited list is the values of the visit events that were not
    skipped. *)
Lemma traversal_state_visited (steps : list Step.t) :
  TraversalLoop.currentVisited (traversal_state currentNodes steps)
  = visited_of currentNodes steps.
Proof.
  induction steps as [|step steps IH] using rev_ind; [reflexivity|].
  rewrite traversal_state_snoc. unfold visited_of in *.
  rewrite filter_app, map_app, <- IH. cbn [filter].
  unfold traversal_iteration.
  set (s := traversal_state currentNodes steps) in *.
  destruct (getPos currentNodes (Step.value step)) as [pos|];
    [|rewrite andb_false_r; cbn; now rewrite app_nil_r].
  rewrite andb_true_r.
  destruct (String.eqb_spec (Step.action step) "enter") as [Ha|_].
  { rewrite Ha. cbn. now rewrite app_nil_r. }
  destruct (String.eqb (Step.action step) "visit"); [reflexivity|].
  cbn [map]. rewrite app_nil_r.
  destruct (String.eqb (Step.action step) "exit"); [|reflexivity].
  destruct (array_get _ _) as [parent|];
    [destruct (parent =? 0)|]; reflexivity.
Qed.

Lemma top_snoc {A : Type} (below : list A) (x : A) :
  top (below ++ [x]) = Some x.
Proof.
  unfold top. rewrite length_app. cbn [List.length].
  replace (Z.of_nat (List.length below + 1) - 1)
    with (Z.of_nat (List.length below)) by lia.
  apply array_get_here.
Qed.

(** Removing a value that occurs once, on top, is popping it. *)
Lemma filter_pop (below : list Z) (v : Z) :
  ~ In v below -> filter (fun w => negb (w =? v)) (below ++ [v]) = below.
Proof.
  intros Hn. rewrite filter_app. cbn. rewrite Z.eqb_refl. cbn.
  rewrite app_nil_r. apply forallb_filter_id.
  apply forallb_forall. intros w Hw.
  destruct (Z.eqb_spec w v); [congruence | reflexivity].
Qed.

(** *** The logs of the engine *)

(** Where the value of an exit event sits on top of the stack and nowhere
    below, and 0 is not on the stack, the iteration is the one the
    specification words. *)
Lemma iteration_agrees (s : TraversalLoop.state) (step : Step.t) :
  (Step.action step = "exit"%string ->
   getPos currentNodes (Step.value step) <> None ->
   exists below,
     TraversalLoop.currentPathNodes s = below ++ [Step.value step] /\
     ~ In (Step.value step) below /\ ~ In 0 below) ->
  traversal_iteration currentNodes s step
  = fromEvents_iteration (getPos currentNodes) s step.
Proof.
  intros Hexit. unfold traversal_iteration, fromEvents_iteration.
  destruct (getPos currentNodes (Step.value step)) as [pos|]; [|reflexivity].
  destruct (String.eqb_spec (Step.action step) "enter") as [Ha|_];
    [reflexivity|].
  destruct (String.eqb_spec (Step.action step) "visit") as [Ha|_];
    [reflexivity|].
  destruct (String.eqb_spec (Step.action step) "exit") as [Ha|_];
    [|reflexivity].
  destruct (Hexit Ha) as (below & Hs & Hn & Hz); [congruence|].
  cbv zeta. rewrite Hs, removelast_last, (filter_pop below _ Hn).
  fold (top below).
  destruct (top below) as [parent|] eqn:Htop; [|reflexivity].
  destruct (Z.eqb_spec parent 0) as [->|_]; [|reflexivity].
  exfalso. apply Hz. unfold top, array_get in Htop.
  destruct (_ <? 0); [discriminate|]. eapply nth_error_In, Htop.
Qed.

(** The events of one node around the logs of its subtrees. *)
Lemma event_log_node (k : order) (v : Z) (l r : tree) :
  exists A B C,
    (A = [] \/ A = [visit v]) /\ (B = [] \/ B = [visit v]) /\
    (C = [] \/ C = [visit v]) /\
    event_log k (BSTNode v l r)
    = [enter v] ++ A ++ event_log k l ++ B ++ event_log k r ++ C ++ [exit v].
Proof.
  destruct k; cbn [event_log].
  - exists [], [visit v], []. repeat split; auto.
  - exists [visit v], [], []. repeat split; auto.
  - exists [], [], [visit v]. repeat split; auto.
Qed.

Lemma runs_app (log1 log2 : list Step.t) (s : TraversalLoop.state)
    (stack1 stack2 : list Z) :
  runs currentNodes log1 s stack1 ->
  (forall s1, TraversalLoop.currentPathNodes s1 = stack1 ->
              runs currentNodes log2 s1 stack2) ->
  runs currentNodes (log1 ++ log2) s stack2.
Proof.
  intros [H1 S1] H2. destruct (H2 _ S1) as [H3 S3].
  unfold runs. rewrite !fold_left_app. split; [|exact S3].
  now rewrite H3, H1.
Qed.

Lemma runs_visit (v : Z) (A : list Step.t) (s : TraversalLoop.state) :
  A = [] \/ A = [visit v] ->
  runs currentNodes A s (TraversalLoop.currentPathNodes s).
Proof.
  intros [->| ->]; [now split|]. split.
  - cbn [fold_left]. apply iteration_agrees. discriminate.
  - cbn [fold_left]. unfold traversal_iteration. cbn [visit Step.value].
    destruct (getPos currentNodes v); reflexivity.
Qed.

(** Over the log of a tree without repeated values and without 0, started
    on a stack that holds none of its values and not 0, every exit pops the
    value it names, and the stack is restored at the end. *)
Lemma event_log_runs (k : order) (t : tree) (s : TraversalLoop.state) :
  NoDup (elements t) -> ~ In_tree 0 t ->
  (forall x, In_tree x t -> ~ In x (TraversalLoop.currentPathNodes s)) ->
  ~ In 0 (TraversalLoop.currentPathNodes s) ->
  runs currentNodes (event_log k t) s (TraversalLoop.currentPathNodes s).
Proof.
  revert s. induction t as [|v l IHl r IHr]; intros s Hnd Hz Hfresh Hsz.
  - destruct k; now split.
  - destruct (event_log_node k v l r) as (A & B & C & HA & HB & HC & ->).
    cbn [elements] in Hnd.
    assert (Hndl : NoDup (elements l)) by (now apply NoDup_app_remove_r in Hnd).
    assert (Hndr : NoDup (elements r)).
    { apply NoDup_app_remove_l in Hnd. now inversion Hnd. }
    assert (Hvl : ~ In_tree v l).
    { intros Hin. apply In_tree_elements in Hin.
      apply NoDup_remove_2 in Hnd. apply Hnd, in_or_app. now left. }
    assert (Hvr : ~ In_tree v r).
    { intros Hin. apply In_tree_elements in Hin.
      apply NoDup_remove_2 in Hnd. apply Hnd, in_or_app. now right. }
    assert (Hv0 : v <> 0) by (intros ->; apply Hz; now left).
    assert (Hvs : ~ In v (TraversalLoop.currentPathNodes s))
      by (apply Hfresh; now left).
    set (S0 := TraversalLoop.currentPathNodes s) in *.
    (* the stack while the node is open *)
    set (S1 := match getPos currentNodes v with
               | Some _ => S0 ++ [v]
               | None => S0
               end).
    assert (HS1 : forall x, In x S1 -> x = v \/ In x S0).
    { intros x. unfold S1. destruct (getPos currentNodes v); [|tauto].
      rewrite in_app_iff. simpl. intuition. }
    assert (Hsub : forall (t' : tree) s1,
               (t' = l \/ t' = r) ->
               TraversalLoop.currentPathNodes s1 = S1 ->
               runs currentNodes (event_log k t') s1 S1).
    { intros t' s1 Ht' Hs1. rewrite <- Hs1.
      destruct Ht' as [-> | ->]; [apply IHl | apply IHr]; rewrite ?Hs1; auto.
      - simpl in Hz. tauto.
      - intros x Hx Hin. apply HS1 in Hin. destruct Hin as [->|Hin]; [tauto|].
        apply (Hfresh x); [simpl; tauto | exact Hin].
      - intros Hin. apply HS1 in Hin. destruct Hin; [congruence | tauto].
      - simpl in Hz. tauto.
      - intros x Hx Hin. apply HS1 in Hin. destruct Hin as [->|Hin]; [tauto|].
        apply (Hfresh x); [simpl; tauto | exact Hin].
      - intros Hin. apply HS1 in Hin. destruct Hin; [congruence | tauto]. }
    assert (Hvis : forall X s1,
               X = [] \/ X = [visit v] ->
               TraversalLoop.currentPathNodes s1 = S1 ->
               runs currentNodes X s1 S1).
    { intros X s1 HX Hs1. rewrite <- Hs1. now apply (runs_visit v). }
    apply runs_app with (stack1 := S1).
    { split.
      - cbn [fold_left]. apply iteration_agrees. discriminate.
      - cbn [fold_left]. unfold traversal_iteration, S1.
        cbn [enter Step.value Step.action].
        destruct (getPos currentNodes v); reflexivity. }
    intros s1 Hs1. apply runs_app with (stack1 := S1); [now apply Hvis|].
    intros s2 Hs2. apply runs_app with (stack1 := S1); [now apply Hsub; auto|].
    intros s3 Hs3. apply runs_app with (stack1 := S1); [now apply Hvis|].
    intros s4 Hs4. apply runs_app with (stack1 := S1); [now apply Hsub; auto|].
    intros s5 Hs5. apply runs_app with (stack1 := S1); [now apply Hvis|].
    intros s6 Hs6. split.
    + cbn [fold_left]. apply iteration_agrees.
      cbn [exit Step.value Step.action]. intros _ Hpos.
      exists S0. unfold S1 in Hs6.
      destruct (getPos currentNodes v); [|congruence].
      repeat split; assumption.
    + cbn [fold_left]. unfold traversal_iteration.
      cbn [exit Step.value Step.action]. unfold S1 in Hs6.
      destruct (getPos currentNodes v) as [pos|]; [|exact Hs6].
      change (String.eqb "exit" "enter") with false.
      change (String.eqb "exit" "visit") with false.
      change (String.eqb "exit" "exit") with true. cbv iota zeta.
      rewrite Hs6, (filter_pop S0 v Hvs).
      destruct (array_get _ _) as [parent|];
        [destruct (parent =? 0)|]; reflexivity.
Qed.

End Generators.

(* ================================================================= *)
(** ** The frame generators: the properties of the specification *)


(** The same on a log written by hand, and the two other ways in which
    an exit event can differ from a pop, which no log of the engine on a
    tree that satisfies the invariant shows: an event whose value has no
    coordinate is skipped, as section 4.2 prescribes for every kind of
    event, and a value that is on the stack twice is removed twice. *)
Example exit_onto_zero :
  ~ exit_pops [node_at 0 400 50; node_at 1 200 120] [enter 0; enter 1] 1.
Proof. unfold exit_pops. vm_compute. discriminate. Qed.

Example exit_without_coordinate :
  generateTraversalFrames [node_at 1 400 50] ([enter 1; enter 2] ++ [exit 2])
  = [blank_frame;
     {| highlightedNode := Some 1;
        pointerPosition :=
          Some {| Point.x := inject_Z 400; Point.y := inject_Z 50 |};
        visitedNodes := []; pathNodes := [1]; connectedEdges := [] |};
     completion_frame []] /\
  ~ exit_pops [node_at 1 400 50] [enter 1; enter 2] 2.
Proof.
  split; [reflexivity|]. unfold exit_pops. vm_compute. discriminate.
Qed.

Example exit_removes_every_occurrence :
  ~ exit_pops [node_at 1 400 50] [enter 1; enter 1] 1.
Proof. unfold exit_pops. vm_compute. discriminate. Qed.

(** What the exit branch and the end of the generator do on every event
    log and coordinate lookup: an exit event
    whose value has no coordinate is skipped and changes nothing; an exit
    event whose value has one removes every occurrence of the value from
    the path-node stack (which pops it when it is on top and nowhere
    below) and pushes one frame with the stack that remains, the visited
    list unchanged and no connected edge, whose pointer and highlight are
    cleared when the stack that remains is empty and are on its top, at
    the coordinate of the top, when it is not empty and the top is not 0.
    After the events the generator pushes one completion frame: pointer and
    highlight cleared, empty path-node stack, and the visited list
    accumulated from the visit events that were not skipped. *)
Theorem exit_and_completion_frames (currentNodes : list VisNode.t)
    (pre : list Step.t) (v : Z) :
  let s := traversal_state currentNodes pre in
  let s' := traversal_state currentNodes (pre ++ [exit v]) in
  let remaining :=
    filter (fun w => negb (w =? v)) (TraversalLoop.currentPathNodes s) in
  (getPos currentNodes v = None -> s' = s) /\
  (getPos currentNodes v <> None ->
   exists f,
     TraversalLoop.frames s' = TraversalLoop.frames s ++ [f] /\
     TraversalLoop.currentPathNodes s' = remaining /\
     TraversalLoop.currentVisited s' = TraversalLoop.currentVisited s /\
     pathNodes f = remaining /\
     visitedNodes f = TraversalLoop.currentVisited s /\
     connectedEdges f = [] /\
     (remaining = [] ->
      highlightedNode f = None /\ pointerPosition f = None) /\
     (forall below parent,
        remaining = below ++ [parent] -> parent <> 0 ->
        highlightedNode f = Some parent /\
        exists pos,
          getPos currentNodes parent = Some pos /\
          pointerPosition f = Some pos) /\
     (forall below,
        TraversalLoop.currentPathNodes s = below ++ [v] -> ~ In v below ->
        remaining = below)) /\
  generateTraversalFrames currentNodes pre
  = TraversalLoop.frames s
      ++ [{| highlightedNode := None; pointerPosition := None;
             visitedNodes := visited_of currentNodes pre;
             pathNodes := []; connectedEdges := [] |}].
Proof.
  intros s s' remaining. split; [|split].
  - intros Hpos. unfold s'. rewrite traversal_state_snoc.
    unfold traversal_iteration. cbn [exit Step.value]. now rewrite Hpos.
  - intros Hpos.
    assert (Hstack : forall w, In w remaining -> getPos currentNodes w <> None).
    { intros w Hw. apply filter_In in Hw.
      pose proof (traversal_state_stack_positions currentNodes pre) as Hall.
      rewrite Forall_forall in Hall. now apply Hall. }
    assert (Hpop : forall below,
               TraversalLoop.currentPathNodes s = below ++ [v] ->
               ~ In v below -> remaining = below).
    { intros below Heq Hn. unfold remaining. rewrite Heq.
      now apply filter_pop. }
    unfold s'. rewrite traversal_state_snoc.
    unfold traversal_iteration. cbn [exit Step.value Step.action].
    destruct (getPos currentNodes v) as [pos|]; [clear Hpos|congruence].
    change (String.eqb "exit" "enter") with false.
    change (String.eqb "exit" "visit") with false.
    change (String.eqb "exit" "exit") with true. cbv iota.
    fold s. fold remaining. cbv zeta. fold (top remaining).
    destruct (top remaining) as [parent|] eqn:Htop;
      [destruct (Z.eqb_spec parent 0) as [Hz|Hnz]|];
      (eexists; split; [reflexivity|]);
      cbn [TraversalLoop.push_frame TraversalLoop.snapshot
             TraversalLoop.currentPathNodes TraversalLoop.currentVisited
             TraversalLoop.currentPointer TraversalLoop.currentHighlighted
             pathNodes visitedNodes connectedEdges highlightedNode
             pointerPosition];
      repeat (split; [reflexivity|]).
    + split; [tauto|]. split; [|exact Hpop].
      intros below p Heq Hp. rewrite Heq, top_snoc in Htop. congruence.
    + split; [|split; [|exact Hpop]].
      * intros Heq. rewrite Heq in Htop. discriminate.
      * intros below p Heq Hp. rewrite Heq, top_snoc in Htop.
        injection Htop as <-. split; [reflexivity|].
        assert (Hin : In p remaining)
          by (rewrite Heq; apply in_or_app; right; now left).
        apply Hstack in Hin.
        destruct (getPos currentNodes p) as [q|]; [|congruence].
        now exists q.
    + split; [tauto|]. split; [|exact Hpop].
      intros below p Heq Hp. rewrite Heq, top_snoc in Htop. discriminate.
  - unfold generateTraversalFrames, completion_frame.
    fold (traversal_state currentNodes pre).
    now rewrite traversal_state_visited.
Qed.

Lemma exit_and_completion_frames_witness :
  exists f,
    TraversalLoop.frames
      (traversal_state [node_at 1 400 50; node_at 2 200 120]
         ([enter 1; enter 2; visit 2] ++ [exit 2]))
    = TraversalLoop.frames
        (traversal_state [node_at 1 400 50; node_at 2 200 120]
           [enter 1; enter 2; visit 2]) ++ [f] /\
    pathNodes f = [1] /\
    highlightedNode f = Some 1 /\
    pointerPosition f
    = Some {| Point.x := inject_Z 400; Point.y := inject_Z 50 |}.
Proof.
  destruct (proj1 (proj2
              (exit_and_completion_frames
                 [node_at 1 400 50; node_at 2 200 120]
                 [enter 1; enter 2; visit 2] 2)))
    as (f & Hf & _ & _ & Hp & _ & _ & _ & Htop & Hpop).
  - vm_compute. discriminate.
  - exists f. split; [exact Hf|].
    destruct (Htop [] 1) as (Hh & pos & Hpos & Hptr).
    + reflexivity.
    + discriminate.
    + split; [exact Hp|]. split; [exact Hh|].
      rewrite Hptr. vm_compute in Hpos. now rewrite <- Hpos.
Defined.

(** C6.  For every path, coordinate lookup and optional [finalHighlight],
    the frames of [generatePathFrames] are: the blank frame; then, for each
    value of the path in turn that has a coordinate, a frame with the value
    appended to the visited list and pointer and highlight on it, followed,
    when a next value exists and has a coordinate, by a frame that adds the
    edge between the two to the connected edges; nothing for a value
    without a coordinate; and last, when [finalHighlight] is supplied and
    has a coordinate, one frame highlighting it with the visited list and
    the connected edges as they were accumulated.  The edge between two
    values carries, at each end, the coordinate and the value
    ([edge_between]).  With coordinates for 15, 23 and 20, the path 15,
    99, 23, 20 and the final highlight 20 give six frames: blank, 15,
    23, 23 with the edge to 20, 20, and the final highlight on 20. *)
Theorem generatePathFrames_fromPath :
  (forall (currentNodes : list VisNode.t) (path : list Z)
          (finalHighlight : option Z),
      generatePathFrames currentNodes path finalHighlight
      = let '(fs, visited, edges) :=
          fromPath (getPos currentNodes) [] [] path in
        {| highlightedNode := None; pointerPosition := None;
           visitedNodes := []; pathNodes := []; connectedEdges := [] |}
          :: fs
          ++ final_frames (getPos currentNodes) finalHighlight visited edges) /\
  generatePathFrames
    [node_at 15 400 50; node_at 23 600 120; node_at 20 500 190]
    [15; 99; 23; 20] (Some 20)
  = [{| highlightedNode := None; pointerPosition := None;
        visitedNodes := []; pathNodes := []; connectedEdges := [] |};
     {| highlightedNode := Some 15;
        pointerPosition :=
          Some {| Point.x := inject_Z 400; Point.y := inject_Z 50 |};
        visitedNodes := [15]; pathNodes := []; connectedEdges := [] |};
     {| highlightedNode := Some 23;
        pointerPosition :=
          Some {| Point.x := inject_Z 600; Point.y := inject_Z 120 |};
        visitedNodes := [15; 23]; pathNodes := []; connectedEdges := [] |};
     {| highlightedNode := Some 23;
        pointerPosition :=
          Some {| Point.x := inject_Z 600; Point.y := inject_Z 120 |};
        visitedNodes := [15; 23]; pathNodes := [];
        connectedEdges :=
          [{| from := {| EdgeEnd.x := inject_Z 600; EdgeEnd.y := inject_Z 120;
                         EdgeEnd.value := 23 |};
              to := {| EdgeEnd.x := inject_Z 500; EdgeEnd.y := inject_Z 190;
                       EdgeEnd.value := 20 |} |}] |};
     {| highlightedNode := Some 20;
        pointerPosition :=
          Some {| Point.x := inject_Z 500; Point.y := inject_Z 190 |};
        visitedNodes := [15; 23; 20]; pathNodes := [];
        connectedEdges :=
          [{| from := {| EdgeEnd.x := inject_Z 600; EdgeEnd.y := inject_Z 120;
                         EdgeEnd.value := 23 |};
              to := {| EdgeEnd.x := inject_Z 500; EdgeEnd.y := inject_Z 190;
                       EdgeEnd.value := 20 |} |}] |};
     {| highlightedNode := Some 20;
        pointerPosition :=
          Some {| Point.x := inject_Z 500; Point.y := inject_Z 190 |};
        visitedNodes := [15; 23; 20]; pathNodes := [];
        connectedEdges :=
          [{| from := {| EdgeEnd.x := inject_Z 600; EdgeEnd.y := inject_Z 120;
                         EdgeEnd.value := 23 |};
              to := {| EdgeEnd.x := inject_Z 500; EdgeEnd.y := inject_Z 190;
                       EdgeEnd.value := 20 |} |}] |}].
Proof.
  split; [|reflexivity].
  intros currentNodes path finalHighlight.
  unfold generatePathFrames, final_frames.
  pose proof (path_loop_fromPath currentNodes path [] PathLoop.initial) as H.
  cbn [app List.length PathLoop.initial PathLoop.currentVisited
         PathLoop.currentAnimatedEdges PathLoop.frames] in H.
  cbv zeta in H.
  destruct (fromPath (getPos currentNodes) [] [] path) as [[fs vis] es].
  destruct H as (Hf & Hv & He). rewrite Hf, Hv, He.
  destruct finalHighlight as [target|]; [|now rewrite app_nil_r].
  destruct (getPos currentNodes target) as [pos|]; [reflexivity|].
  now rewrite app_nil_r.
Qed.

(** C9.  Every frame of [generateTraversalFrames] -- the blank frame, each
    enter, visit and exit frame and the completion frame -- has an empty
    list of connected edges, for every event log and coordinate lookup;
    so has every frame the three traversal handlers animate. *)
Theorem traversal_frames_connect_no_edge (currentNodes : list VisNode.t)
    (steps : list Step.t) (root : tree) :
  Forall (fun f => connectedEdges f = [])
    (generateTraversalFrames currentNodes steps) /\
  Forall (fun f => connectedEdges f = []) (animated (handleInorder root)) /\
  Forall (fun f => connectedEdges f = []) (animated (handlePreorder root)) /\
  Forall (fun f => connectedEdges f = []) (animated (handlePostorder root)).
Proof.
  assert (H : forall result,
             Forall (fun f => connectedEdges f = [])
               (animated (handleTraversal result root))).
  { intros result. unfold handleTraversal.
    destruct (Detailed.values result); [constructor|].
    apply generateTraversalFrames_connectedEdges. }
  split; [apply generateTraversalFrames_connectedEdges|].
  repeat split; apply H.
Qed.

(** C10.  Every frame of [generatePathFrames] has an empty [pathNodes]
    list, for every path, coordinate lookup and optional [finalHighlight];
    so has every frame the insert, search, remove, findMin and findMax
    handlers animate.  A traversal animation does fill it. *)
Theorem path_frames_have_no_pathNodes (currentNodes : list VisNode.t)
    (path : list Z) (finalHighlight : option Z) (root : tree) (v : Z) :
  Forall (fun f => pathNodes f = [])
    (generatePathFrames currentNodes path finalHighlight) /\
  Forall (fun f => pathNodes f = []) (animated (fst (handleInsert v root))) /\
  Forall (fun f => pathNodes f = []) (animated (fst (handleSearch v root))) /\
  Forall (fun f => pathNodes f = []) (animated (fst (handleRemove v root))) /\
  Forall (fun f => pathNodes f = []) (animated (fst (handleFindMin root))) /\
  Forall (fun f => pathNodes f = []) (animated (fst (handleFindMax root))) /\
  Exists (fun f => pathNodes f <> []) (animated (handleInorder example_tree)).
Proof.
  assert (Hmm : forall result t,
             Forall (fun f => pathNodes f = [])
               (animated (handleMinMax result t))).
  { intros result t. unfold handleMinMax.
    destruct (MinMax.value result); [|constructor].
    apply generatePathFrames_pathNodes. }
  split; [apply generatePathFrames_pathNodes|].
  split; [|split; [|split; [|split; [|split]]]].
  - unfold handleInsert. destruct (insert v root) as [result root'].
    apply generatePathFrames_pathNodes.
  - unfold handleSearch. destruct (search v root) as [result root'].
    apply generatePathFrames_pathNodes.
  - unfold handleRemove. destruct (remove v root) as [result root'].
    apply generatePathFrames_pathNodes.
  - unfold handleFindMin. destruct (findMin root) as [result root'].
    apply Hmm.
  - unfold handleFindMax. destruct (findMax root) as [result root'].
    apply Hmm.
  - remember (animated (handleInorder example_tree)) as fs eqn:E.
    vm_compute in E. subst fs.
    apply Exists_cons_tl, Exists_cons_hd. discriminate.
Qed.

(** On the steps a detailed traversal returns for a tree that satisfies
    the invariant and does not hold the value 0, the generator is the
    generator of section 4.2 of the specification, whatever the coordinate
    lookup: every exit event that is not skipped pops the stack. *)
Theorem engine_logs_follow_specification (currentNodes : list VisNode.t)
    (k : order) (t : tree) :
  BST t -> ~ In_tree 0 t ->
  generateTraversalFrames currentNodes (Detailed.steps (detailed k t))
  = fromEvents (getPos currentNodes) (Detailed.steps (detailed k t)).
Proof.
  intros B Hz. rewrite detailed_steps.
  unfold generateTraversalFrames, fromEvents.
  destruct (event_log_runs currentNodes k t TraversalLoop.initial) as [H _].
  - apply sorted_NoDup, BST_elements_sorted, B.
  - exact Hz.
  - intros x _ [].
  - intros [].
  - now rewrite H.
Qed.

(* ================================================================= *)
(** ** More of the tree engine *)

Section MoreEngine.

Lemma search_loop_found_In (v : Z) (t : tree) :
  fst (search_loop v t) = true -> In_tree v t.
Proof.
  induction t as [|cv l IHl r IHr]; simpl; [discriminate|].
  destruct (Z.eqb_spec v cv) as [->|Hne]; [now left|].
  destruct (v <? cv).
  - destruct (search_loop v l) as [fnd p]. simpl in *. tauto.
  - destruct (search_loop v r) as [fnd p]. simpl in *. tauto.
Qed.

(** In a search tree the loop finds exactly the values of the tree. *)
Lemma search_loop_found_iff (v : Z) (t : tree) :
  BST t -> (fst (search_loop v t) = true <-> In_tree v t).
Proof.
  intros B. split; [apply search_loop_found_In|].
  intros Hin. destruct (descent_present v t B Hin) as (C & l & r & -> & Hd).
  rewrite (search_loop_plug v C _ Hd). simpl. now rewrite Z.eqb_refl.
Qed.

Lemma search_found_iff (v : Z) (t : tree) :
  BST t -> (Search.found (fst (search v t)) = true <-> In_tree v t).
Proof. rewrite search_found. apply search_loop_found_iff. Qed.

(** The three loops take the same way down: insert succeeds where search
    does not find, remove where it does, and both push the values search
    pushes. *)
Lemma loops_agree (v : Z) (t : tree) :
  (fst (fst (remove_loop v t)) = NotFound <-> fst (search_loop v t) = false)
  /\ fst (fst (insert_loop v t)) = negb (fst (search_loop v t))
  /\ snd (fst (insert_loop v t))
     = snd (search_loop v t) ++ (if fst (search_loop v t) then [] else [v])
  /\ exists extra,
       snd (fst (remove_loop v t)) = snd (search_loop v t) ++ extra /\
       ((forall sv, fst (fst (remove_loop v t)) <> RemovedTwoChildren sv) ->
        extra = []).
Proof.
  induction t as [|cv l IHl r IHr].
  - simpl. repeat split; auto. exists []. auto.
  - cbn [remove_loop insert_loop search_loop].
    rewrite (Z.eqb_sym cv v).
    destruct (Z.eqb_spec v cv) as [->|Hne]; cbn [negb].
    + (* the node *)
      destruct l as [|lv ll lr], r as [|rv rl rr]; cbn [fst snd];
        try (repeat split; try discriminate; exists []; now auto).
      destruct (successor_loop rv rl rr) as [[p sv] r']; cbn [fst snd].
      repeat split; try discriminate.
      exists p. split; [reflexivity|]. intros H. now destruct (H sv).
    + destruct (v <? cv).
      * destruct IHl as (H2 & H3 & H4 & extra & H5 & H6).
        destruct (remove_loop v l) as [[k p] l'],
                 (insert_loop v l) as [[ok q] l''],
                 (search_loop v l) as [fnd sp]; cbn [fst snd] in *.
        repeat split; try tauto; try (now rewrite H4).
        exists extra. split; [now rewrite H5 | exact H6].
      * destruct IHr as (H2 & H3 & H4 & extra & H5 & H6).
        destruct (remove_loop v r) as [[k p] r'],
                 (insert_loop v r) as [[ok q] r''],
                 (search_loop v r) as [fnd sp]; cbn [fst snd] in *.
        repeat split; try tauto; try (now rewrite H4).
        exists extra. split; [now rewrite H5 | exact H6].
Qed.

(** *** The in-order listing under insert and remove *)

Lemma successor_loop_elements (v : Z) (l r : tree) :
  elements (BSTNode v l r)
  = snd (fst (successor_loop v l r)) :: elements (snd (successor_loop v l r)).
Proof.
  revert v r. induction l as [|lv ll IH lr _]; intros v r; [reflexivity|].
  cbn [successor_loop]. specialize (IH lv lr).
  destruct (successor_loop lv ll lr) as [[p sv] l']. cbn [fst snd] in *.
  change (elements (BSTNode v (BSTNode lv ll lr) r))
    with (elements (BSTNode lv ll lr) ++ v :: elements r).
  now rewrite IH.
Qed.

Lemma insert_loop_elements (v : Z) (t : tree) :
  (fst (fst (insert_loop v t)) = false -> snd (insert_loop v t) = t) /\
  (fst (fst (insert_loop v t)) = true ->
   exists pre post,
     elements t = pre ++ post /\
     elements (snd (insert_loop v t)) = pre ++ v :: post).
Proof.
  induction t as [|cv l IHl r IHr]; cbn [insert_loop].
  - split; [discriminate|]. intros _. now exists [], [].
  - destruct (Z.eqb_spec v cv) as [->|Hne]; [split; [reflexivity|discriminate]|].
    destruct (v <? cv).
    + destruct (insert_loop v l) as [[ok p] l']; cbn [fst snd elements] in *.
      destruct IHl as [Hf Ht]. split.
      * intros H. now rewrite (Hf H).
      * intros H. destruct (Ht H) as (pre & post & E1 & E2).
        exists pre, (post ++ cv :: elements r).
        now rewrite E1, E2, <- !app_assoc.
    + destruct (insert_loop v r) as [[ok p] r']; cbn [fst snd elements] in *.
      destruct IHr as [Hf Ht]. split.
      * intros H. now rewrite (Hf H).
      * intros H. destruct (Ht H) as (pre & post & E1 & E2).
        exists (elements l ++ cv :: pre), post.
        now rewrite E1, E2, <- !app_assoc.
Qed.

Lemma remove_loop_elements (v : Z) (t : tree) :
  (fst (fst (remove_loop v t)) = NotFound -> snd (remove_loop v t) = t) /\
  (fst (fst (remove_loop v t)) <> NotFound ->
   exists pre post,
     elements t = pre ++ v :: post /\
     elements (snd (remove_loop v t)) = pre ++ post).
Proof.
  induction t as [|cv l IHl r IHr]; cbn [remove_loop].
  - split; [reflexivity|]. intros H. now destruct H.
  - destruct (Z.eqb_spec cv v) as [->|Hne]; cbn [negb].
    + destruct l as [|lv ll lr], r as [|rv rl rr]; cbn [fst snd].
      * split; [discriminate|]. intros _. now exists [], [].
      * split; [discriminate|]. intros _.
        now exists [], (elements (BSTNode rv rl rr)).
      * split; [discriminate|]. intros _.
        exists (elements (BSTNode lv ll lr)), []. cbn [elements].
        now rewrite !app_nil_r.
      * pose proof (successor_loop_elements rv rl rr) as Hs.
        destruct (successor_loop rv rl rr) as [[p sv] r']. cbn [fst snd] in *.
        split; [discriminate|]. intros _.
        exists (elements (BSTNode lv ll lr)), (elements (BSTNode rv rl rr)).
        split; [reflexivity|].
        change (elements (BSTNode sv (BSTNode lv ll lr) r'))
          with (elements (BSTNode lv ll lr) ++ sv :: elements r').
        now rewrite Hs.
    + destruct (v <? cv).
      * destruct (remove_loop v l) as [[k p] l']; cbn [fst snd elements] in *.
        destruct IHl as [Hf Ht]. split.
        -- intros H. now rewrite (Hf H).
        -- intros H. destruct (Ht H) as (pre & post & E1 & E2).
           exists pre, (post ++ cv :: elements r).
           now rewrite E1, E2, <- !app_assoc.
      * destruct (remove_loop v r) as [[k p] r']; cbn [fst snd elements] in *.
        destruct IHr as [Hf Ht]. split.
        -- intros H. now rewrite (Hf H).
        -- intros H. destruct (Ht H) as (pre & post & E1 & E2).
           exists (elements l ++ cv :: pre), post.
           now rewrite E1, E2, <- !app_assoc.
Qed.

(** *** Height *)

Lemma calculateHeight_ge (t : tree) : -1 <= calculateHeight t.
Proof. induction t; simpl; lia. Qed.

Lemma size_node (v : Z) (l r : tree) :
  size (BSTNode v l r) = size l + 1 + size r.
Proof. unfold size. cbn [elements]. rewrite length_app. cbn. lia. Qed.

Lemma size_ge (t : tree) : 0 <= size t.
Proof. unfold size. lia. Qed.

Lemma calculateHeight_size (t : tree) :
  calculateHeight t + 1 <= size t /\
  size t <= 2 ^ (calculateHeight t + 1) - 1.
Proof.
  induction t as [|v l [Hl1 Hl2] r [Hr1 Hr2]].
  - split; reflexivity.
  - rewrite size_node. cbn [calculateHeight].
    pose proof (calculateHeight_ge l). pose proof (calculateHeight_ge r).
    pose proof (size_ge l). pose proof (size_ge r).
    split; [lia|].
    set (h := Z.max (calculateHeight l) (calculateHeight r)) in *.
    assert (Hpl : 2 ^ (calculateHeight l + 1) <= 2 ^ (h + 1))
      by (apply Z.pow_le_mono_r; lia).
    assert (Hpr : 2 ^ (calculateHeight r + 1) <= 2 ^ (h + 1))
      by (apply Z.pow_le_mono_r; lia).
    replace (h + 1 + 1) with (Z.succ (h + 1)) by lia.
    rewrite Z.pow_succ_r by lia. lia.
Qed.

Lemma search_loop_length (v : Z) (t : tree) :
  Z.of_nat (List.length (snd (search_loop v t))) <= calculateHeight t + 1.
Proof.
  induction t as [|cv l IHl r IHr]; cbn [search_loop calculateHeight].
  - simpl. lia.
  - pose proof (calculateHeight_ge l). pose proof (calculateHeight_ge r).
    destruct (v =? cv); [simpl; lia|].
    destruct (v <? cv).
    + destruct (search_loop v l) as [fnd p]. cbn [snd List.length] in *. lia.
    + destruct (search_loop v r) as [fnd p]. cbn [snd List.length] in *. lia.
Qed.

Lemma successor_loop_length (v : Z) (l r : tree) :
  Z.of_nat (List.length (fst (fst (successor_loop v l r))))
  <= calculateHeight (BSTNode v l r) + 1.
Proof.
  revert v r. induction l as [|lv ll IH lr _]; intros v r.
  - pose proof (calculateHeight_ge r). simpl. lia.
  - cbn [successor_loop]. specialize (IH lv lr).
    destruct (successor_loop lv ll lr) as [[p sv] l'].
    cbn [fst snd List.length] in *.
    change (calculateHeight (BSTNode v (BSTNode lv ll lr) r))
      with (Z.max (calculateHeight (BSTNode lv ll lr)) (calculateHeight r) + 1).
    lia.
Qed.

Lemma remove_loop_length (v : Z) (t : tree) :
  Z.of_nat (List.length (snd (fst (remove_loop v t)))) <= calculateHeight t + 1.
Proof.
  induction t as [|cv l IHl r IHr]; cbn [remove_loop].
  - simpl. lia.
  - pose proof (calculateHeight_ge l). pose proof (calculateHeight_ge r).
    destruct (cv =? v); cbn [negb].
    + destruct l as [|lv ll lr], r as [|rv rl rr];
        try (cbn [fst snd List.length calculateHeight] in *; lia).
      pose proof (successor_loop_length rv rl rr) as Hs.
      destruct (successor_loop rv rl rr) as [[p sv] r'].
      cbn [fst snd List.length] in *.
      change (calculateHeight (BSTNode cv (BSTNode lv ll lr) (BSTNode rv rl rr)))
        with (Z.max (calculateHeight (BSTNode lv ll lr))
                (calculateHeight (BSTNode rv rl rr)) + 1).
      lia.
    + destruct (v <? cv).
      * destruct (remove_loop v l) as [[k p] l'].
        cbn [fst snd List.length calculateHeight] in *. lia.
      * destruct (remove_loop v r) as [[k p] r'].
        cbn [fst snd List.length calculateHeight] in *. lia.
Qed.

Lemma insert_loop_length (v : Z) (t : tree) :
  Z.of_nat (List.length (snd (fst (insert_loop v t)))) <= calculateHeight t + 2.
Proof.
  induction t as [|cv l IHl r IHr]; cbn [insert_loop].
  - simpl. lia.
  - pose proof (calculateHeight_ge l). pose proof (calculateHeight_ge r).
    destruct (v =? cv); [cbn [fst snd List.length calculateHeight]; lia|].
    destruct (v <? cv).
    + destruct (insert_loop v l) as [[ok p] l'].
      cbn [fst snd List.length calculateHeight] in *. lia.
    + destruct (insert_loop v r) as [[ok p] r'].
      cbn [fst snd List.length calculateHeight] in *. lia.
Qed.

Lemma findMin_loop_length (v : Z) (l r : tree) :
  Z.of_nat (List.length (fst (findMin_loop v l)))
  <= calculateHeight (BSTNode v l r) + 1.
Proof.
  revert v r. induction l as [|lv ll IH lr _]; intros v r.
  - pose proof (calculateHeight_ge r). simpl. lia.
  - cbn [findMin_loop]. specialize (IH lv lr).
    destruct (findMin_loop lv ll) as [p m]. cbn [fst List.length] in *.
    change (calculateHeight (BSTNode v (BSTNode lv ll lr) r))
      with (Z.max (calculateHeight (BSTNode lv ll lr)) (calculateHeight r) + 1).
    lia.
Qed.

Lemma findMax_loop_length (v : Z) (l r : tree) :
  Z.of_nat (List.length (fst (findMax_loop v r)))
  <= calculateHeight (BSTNode v l r) + 1.
Proof.
  revert v l. induction r as [|rv rl _ rr IH]; intros v l.
  - pose proof (calculateHeight_ge l). simpl. lia.
  - cbn [findMax_loop]. specialize (IH rv rl).
    destruct (findMax_loop rv rr) as [p m]. cbn [fst List.length] in *.
    change (calculateHeight (BSTNode v l (BSTNode rv rl rr)))
      with (Z.max (calculateHeight l) (calculateHeight (BSTNode rv rl rr)) + 1).
    lia.
Qed.

Lemma insert_loop_height (v : Z) (t : tree) :
  calculateHeight t <= calculateHeight (snd (insert_loop v t))
  <= calculateHeight t + 1.
Proof.
  induction t as [|cv l IHl r IHr]; cbn [insert_loop].
  - simpl. lia.
  - destruct (v =? cv); [cbn [snd]; lia|].
    destruct (v <? cv).
    + destruct (insert_loop v l) as [[ok p] l'].
      cbn [snd calculateHeight] in *. lia.
    + destruct (insert_loop v r) as [[ok p] r'].
      cbn [snd calculateHeight] in *. lia.
Qed.

Lemma successor_loop_height (v : Z) (l r : tree) :
  calculateHeight (BSTNode v l r) - 1
  <= calculateHeight (snd (successor_loop v l r))
  <= calculateHeight (BSTNode v l r).
Proof.
  revert v r. induction l as [|lv ll IH lr _]; intros v r.
  - pose proof (calculateHeight_ge r). simpl. lia.
  - cbn [successor_loop]. specialize (IH lv lr).
    destruct (successor_loop lv ll lr) as [[p sv] l'].
    cbn [snd] in *.
    change (calculateHeight (BSTNode v (BSTNode lv ll lr) r))
      with (Z.max (calculateHeight (BSTNode lv ll lr)) (calculateHeight r) + 1).
    cbn [calculateHeight] in *. lia.
Qed.

Lemma remove_loop_height (v : Z) (t : tree) :
  calculateHeight t - 1 <= calculateHeight (snd (remove_loop v t))
  <= calculateHeight t.
Proof.
  induction t as [|cv l IHl r IHr]; cbn [remove_loop].
  - simpl. lia.
  - pose proof (calculateHeight_ge l). pose proof (calculateHeight_ge r).
    destruct (cv =? v); cbn [negb].
    + destruct l as [|lv ll lr], r as [|rv rl rr];
        try (cbn [snd calculateHeight] in *; lia).
      pose proof (successor_loop_height rv rl rr) as Hs.
      destruct (successor_loop rv rl rr) as [[p sv] r'].
      cbn [snd] in *.
      change (calculateHeight (BSTNode cv (BSTNode lv ll lr) (BSTNode rv rl rr)))
        with (Z.max (calculateHeight (BSTNode lv ll lr))
                (calculateHeight (BSTNode rv rl rr)) + 1).
      change (calculateHeight (BSTNode sv (BSTNode lv ll lr) r'))
        with (Z.max (calculateHeight (BSTNode lv ll lr))
                (calculateHeight r') + 1).
      lia.
    + destruct (v <? cv).
      * destruct (remove_loop v l) as [[k p] l'].
        cbn [snd calculateHeight] in *. lia.
      * destruct (remove_loop v r) as [[k p] r'].
        cbn [snd calculateHeight] in *. lia.
Qed.

(** *** Traversal orders *)

Lemma preorder_traverse_order (t : tree) (values : list Z) :
  preorder_traverse t values = values ++ visit_order Preorder t.
Proof.
  revert values. induction t as [|v l IHl r IHr]; intros values; simpl.
  - now rewrite app_nil_r.
  - rewrite IHr, IHl, <- !app_assoc. reflexivity.
Qed.

Lemma postorder_traverse_order (t : tree) (values : list Z) :
  postorder_traverse t values = values ++ visit_order Postorder t.
Proof.
  revert values. induction t as [|v l IHl r IHr]; intros values; simpl.
  - now rewrite app_nil_r.
  - rewrite IHr, IHl, <- !app_assoc. reflexivity.
Qed.

Lemma visit_order_inorder (t : tree) : visit_order Inorder t = elements t.
Proof.
  induction t as [|v l IHl r IHr]; simpl; [reflexivity|].
  now rewrite IHl, IHr.
Qed.

Lemma visit_order_perm (k : order) (t : tree) :
  Permutation (visit_order k t) (elements t).
Proof.
  induction t as [|v l IHl r IHr]; [destruct k; constructor|].
  cbn [elements].
  destruct k; cbn [visit_order app].
  - apply Permutation_app; [exact IHl|]. now constructor.
  - apply Permutation_cons_app. now apply Permutation_app.
  - rewrite app_assoc.
    eapply Permutation_trans; [apply Permutation_sym, Permutation_cons_append|].
    apply Permutation_cons_app. now apply Permutation_app.
Qed.

Lemma values_of_app (a : string) (log1 log2 : list Step.t) :
  values_of a (log1 ++ log2) = values_of a log1 ++ values_of a log2.
Proof. unfold values_of. now rewrite filter_app, map_app. Qed.

(** Whatever the order of the traversal, its log enters the nodes in
    preorder, exits them in postorder and visits them in its own order. *)
Lemma event_log_values (k : order) (t : tree) :
  values_of "enter" (event_log k t) = visit_order Preorder t /\
  values_of "visit" (event_log k t) = visit_order k t /\
  values_of "exit" (event_log k t) = visit_order Postorder t.
Proof.
  induction t as [|v l (El & Vl & Xl) r (Er & Vr & Xr)];
    [now destruct k|].
  destruct k; cbn [event_log visit_order]; rewrite !values_of_app;
    rewrite El, Vl, Xl, Er, Vr, Xr; repeat split;
    cbn; rewrite ?app_nil_r, <- ?app_assoc; reflexivity.
Qed.

(** *** Inserting in ascending or descending order *)

Lemma insert_all_snoc (vs : list Z) (v : Z) (t : tree) :
  insert_all (vs ++ [v]) t = snd (insert v (insert_all vs t)).
Proof. unfold insert_all. now rewrite fold_left_app. Qed.

Lemma insert_loop_right_chain (vs : list Z) (v : Z) :
  Forall (fun x => x < v) vs ->
  snd (insert_loop v (right_chain vs)) = right_chain (vs ++ [v]).
Proof.
  induction 1 as [|x vs Hx _ IH]; [reflexivity|].
  cbn [right_chain app insert_loop].
  destruct (Z.eqb_spec v x); [lia|]. destruct (Z.ltb_spec v x); [lia|].
  destruct (insert_loop v (right_chain vs)) as [[ok p] r']. cbn [snd] in *.
  now rewrite IH.
Qed.

Lemma insert_loop_left_chain (vs : list Z) (v : Z) :
  Forall (fun x => v < x) vs ->
  snd (insert_loop v (left_chain vs)) = left_chain (vs ++ [v]).
Proof.
  induction 1 as [|x vs Hx _ IH]; [reflexivity|].
  cbn [left_chain app insert_loop].
  destruct (Z.eqb_spec v x); [lia|]. destruct (Z.ltb_spec v x); [|lia].
  destruct (insert_loop v (left_chain vs)) as [[ok p] l']. cbn [snd] in *.
  now rewrite IH.
Qed.

Lemma sorted_snoc (R : Z -> Z -> Prop) (vs : list Z) (v : Z) :
  StronglySorted R (vs ++ [v]) ->
  StronglySorted R vs /\ Forall (fun x => R x v) vs.
Proof.
  induction vs as [|x vs IH]; cbn [app]; intros Hs.
  - split; constructor.
  - inversion Hs as [|? ? Hs' Hall]; subst.
    destruct (IH Hs') as [Hs'' Hf]. split.
    + constructor; [exact Hs''|].
      apply Forall_app in Hall. tauto.
    + constructor; [|exact Hf].
      apply Forall_app in Hall. destruct Hall as [_ Hv]. now inversion Hv.
Qed.

Lemma insert_all_ascending (vs : list Z) :
  StronglySorted Z.lt vs -> insert_all vs null = right_chain vs.
Proof.
  induction vs as [|v vs IH] using rev_ind; [reflexivity|].
  intros Hs. apply sorted_snoc in Hs. destruct Hs as [Hs Hf].
  rewrite insert_all_snoc, insert_tree, (IH Hs).
  now apply insert_loop_right_chain.
Qed.

Lemma insert_all_descending (vs : list Z) :
  StronglySorted Z.gt vs -> insert_all vs null = left_chain vs.
Proof.
  induction vs as [|v vs IH] using rev_ind; [reflexivity|].
  intros Hs. apply sorted_snoc in Hs. destruct Hs as [Hs Hf].
  rewrite insert_all_snoc, insert_tree, (IH Hs).
  apply insert_loop_left_chain.
  eapply Forall_impl; [|exact Hf]. intros x Hx. cbv beta in Hx. lia.
Qed.

Lemma right_chain_height (vs : list Z) :
  calculateHeight (right_chain vs) = Z.of_nat (List.length vs) - 1.
Proof.
  induction vs as [|v vs IH]; [reflexivity|].
  cbn [right_chain calculateHeight List.length]. rewrite IH. lia.
Qed.

Lemma left_chain_height (vs : list Z) :
  calculateHeight (left_chain vs) = Z.of_nat (List.length vs) - 1.
Proof.
  induction vs as [|v vs IH]; [reflexivity|].
  cbn [left_chain calculateHeight List.length]. rewrite IH. lia.
Qed.

End MoreEngine.

(* ================================================================= *)
(** ** More of the tree engine: properties *)

Lemma bool_eq_iff (a b : bool) : (a = true <-> b = true) -> a = b.
Proof. destruct a, b; intuition congruence. Qed.

(** X1.  In a tree that satisfies the invariant, [search] finds exactly
    the values of the tree; for such a value it returns [found = true], the
    values compared on the way down with the value itself last, and the
    message 'Found v'.  It never changes the tree. *)
Theorem search_finds (t : tree) (v : Z) :
  BST t ->
  snd (search v t) = t /\
  (Search.found (fst (search v t)) = true <-> In_tree v t) /\
  (In_tree v t ->
   exists C l r,
     t = plug C (BSTNode v l r) /\ descends v C /\
     fst (search v t)
     = {| Search.found := true; Search.path := passed C ++ [v];
          Search.message := "Found " ++ show_number v |}).
Proof.
  intros B. split; [|split].
  - unfold search. now destruct (search_loop v t).
  - now apply search_found_iff.
  - intros Hin. destruct (descent_present v t B Hin) as (C & l & r & Ht & Hd).
    exists C, l, r. split; [exact Ht|]. split; [exact Hd|].
    unfold search. rewrite Ht at 1.
    rewrite (search_loop_plug v C _ Hd). simpl. now rewrite Z.eqb_refl.
Qed.

Lemma search_finds_witness :
  exists C l r,
    example_tree = plug C (BSTNode 7 l r) /\ descends 7 C /\
    fst (search 7 example_tree)
    = {| Search.found := true; Search.path := passed C ++ [7];
         Search.message := "Found " ++ show_number 7 |}.
Proof.
  apply (proj2 (proj2 (search_finds example_tree 7 example_tree_BST))).
  vm_compute. tauto.
Defined.

(** X2.  Inserting a value that is not in the tree succeeds: the path is
    the values compared on the way down to the null slot followed by the
    new value, the new node is a leaf stored in that slot and nothing else
    changes; the message is 'Inserted v as root' on the empty tree and
    'Inserted v' otherwise. *)
Theorem insert_absent_adds_leaf (t : tree) (v : Z) :
  ~ In_tree v t ->
  exists C,
    t = plug C null /\ descends v C /\
    insert v t
    = ({| Op.success := true; Op.path := passed C ++ [v];
          Op.message :=
            match t with
            | null => "Inserted " ++ show_number v ++ " as root"
            | BSTNode _ _ _ => "Inserted " ++ show_number v
            end |},
       plug C (BSTNode v null null)).
Proof.
  intros Hn. destruct (descent_absent v t Hn) as (C & Ht & Hd).
  exists C. split; [exact Ht|]. split; [exact Hd|].
  assert (Hloop : insert_loop v t
                  = (true, passed C ++ [v], plug C (BSTNode v null null))).
  { rewrite Ht at 1. now rewrite (insert_loop_plug v C null Hd). }
  destruct t as [|cv l r].
  - destruct C as [|[[pv []] sib] C]; [reflexivity | discriminate Ht
                                      | discriminate Ht].
  - unfold insert. now rewrite Hloop.
Qed.

Lemma insert_absent_adds_leaf_witness :
  exists C,
    example_tree = plug C null /\ descends 21 C /\
    insert 21 example_tree
    = ({| Op.success := true; Op.path := passed C ++ [21];
          Op.message := "Inserted " ++ show_number 21 |},
       plug C (BSTNode 21 null null)).
Proof.
  apply (insert_absent_adds_leaf example_tree 21).
  vm_compute. intuition discriminate.
Defined.

(** X3.  On every tree the three operations take the same way down:
    [insert] succeeds exactly when [search] does not find the value and
    [remove] exactly when it does; the path of [insert] is the path of
    [search], followed by the new value when it succeeds; and the path of
    [remove] starts with the path of [search]. *)
Theorem operations_agree_with_search (t : tree) (v : Z) :
  Op.success (fst (insert v t)) = negb (Search.found (fst (search v t))) /\
  Op.success (fst (remove v t)) = Search.found (fst (search v t)) /\
  Op.path (fst (insert v t))
  = Search.path (fst (search v t))
      ++ (if Search.found (fst (search v t)) then [] else [v]) /\
  exists successors,
    Op.path (fst (remove v t))
    = Search.path (fst (search v t)) ++ successors.
Proof.
  destruct (loops_agree v t) as (Hr & Hi & Hp & extra & He & _).
  unfold search, remove.
  destruct (search_loop v t) as [fnd sp] eqn:Es.
  destruct (remove_loop v t) as [[k rp] t'] eqn:Er.
  cbn [fst snd Op.success Op.path Search.found Search.path] in *.
  assert (Hins : Op.success (fst (insert v t)) = negb fnd /\
                 Op.path (fst (insert v t))
                 = sp ++ (if fnd then [] else [v])).
  { destruct t as [|cv l r].
    - simpl in Es. injection Es as <- <-. split; reflexivity.
    - unfold insert.
      destruct (insert_loop v (BSTNode cv l r)) as [[ok p] t''].
      cbn [fst snd Op.success Op.path] in *. now split. }
  destruct Hins as [Hs Hpath].
  split; [exact Hs|]. split; [|split; [exact Hpath|now exists extra]].
  destruct fnd.
  - destruct k; try reflexivity. destruct Hr as [Hr _].
    now specialize (Hr eq_refl).
  - destruct Hr as [_ Hr]. now rewrite (Hr eq_refl).
Qed.

(** X4.  In a tree that satisfies the invariant, a value is found once it
    has been inserted, and inserting or removing one value changes the
    outcome of searching for no other. *)
Theorem insert_lookup_round_trip (t : tree) (v x : Z) :
  BST t ->
  Search.found (fst (search v (snd (insert v t)))) = true /\
  (x <> v ->
   Search.found (fst (search x (snd (insert v t))))
   = Search.found (fst (search x t)) /\
   Search.found (fst (search x (snd (remove v t))))
   = Search.found (fst (search x t))).
Proof.
  intros B.
  assert (Bi : BST (snd (insert v t))) by now apply insert_BST.
  assert (Br : BST (snd (remove v t))) by now apply remove_BST.
  split.
  - apply search_found_iff; [exact Bi|]. apply insert_In. now left.
  - intros Hne. split; apply bool_eq_iff.
    + rewrite !search_found_iff, insert_In by assumption. tauto.
    + rewrite !search_found_iff, remove_In by assumption. tauto.
Qed.

Lemma insert_lookup_round_trip_witness :
  Search.found (fst (search 21 (snd (insert 21 example_tree)))) = true /\
  Search.found (fst (search 7 (snd (insert 21 example_tree))))
  = Search.found (fst (search 7 example_tree)).
Proof.
  pose proof (insert_lookup_round_trip example_tree 21 7 example_tree_BST)
    as [H1 H2].
  split; [exact H1|]. apply H2. discriminate.
Defined.

(** X5.  Removing a value whose node is a leaf puts null in the node's
    slot, and removing one whose node has a single child puts that child
    in the slot; in both cases the path is the descent followed by the
    value, the rest of the tree is untouched, and the message names the
    case. *)
Theorem remove_leaf_or_one_child (C : context) (v : Z) (child : tree) :
  descends v C ->
  remove v (plug C (BSTNode v null null))
  = ({| Op.success := true; Op.path := passed C ++ [v];
        Op.message := "Removed leaf node " ++ show_number v |},
     plug C null) /\
  (child <> null ->
   remove v (plug C (BSTNode v child null))
   = ({| Op.success := true; Op.path := passed C ++ [v];
         Op.message := "Removed " ++ show_number v ++ " (one child)" |},
      plug C child) /\
   remove v (plug C (BSTNode v null child))
   = ({| Op.success := true; Op.path := passed C ++ [v];
         Op.message := "Removed " ++ show_number v ++ " (one child)" |},
      plug C child)).
Proof.
  intros Hd. split; [|intros Hc; split].
  - unfold remove. rewrite (remove_loop_plug v C _ Hd).
    cbn [remove_loop]. now rewrite Z.eqb_refl.
  - unfold remove. rewrite (remove_loop_plug v C _ Hd).
    cbn [remove_loop]. rewrite Z.eqb_refl.
    destruct child; [congruence | reflexivity].
  - unfold remove. rewrite (remove_loop_plug v C _ Hd).
    cbn [remove_loop]. rewrite Z.eqb_refl.
    destruct child; [congruence | reflexivity].
Qed.

Lemma remove_leaf_or_one_child_witness :
  remove 4 (plug [(15, GoLeft, null); (6, GoLeft, BSTNode 7 null null)]
              (BSTNode 4 null null))
  = ({| Op.success := true; Op.path := [15; 6; 4];
        Op.message := "Removed leaf node 4" |},
     BSTNode 15 (BSTNode 6 null (BSTNode 7 null null)) null).
Proof.
  apply (proj1 (remove_leaf_or_one_child
                  [(15, GoLeft, null); (6, GoLeft, BSTNode 7 null null)]
                  4 null
                  ltac:(repeat constructor))).
Defined.

(** X6.  On every tree, a successful [insert] adds the value at one place
    of the in-order listing and a successful [remove] takes one occurrence
    of the value out of it, leaving the order of all other values as it
    was; an unsuccessful one returns the tree it was given.  The number of
    nodes changes by exactly one, or not at all. *)
Theorem insert_remove_inorder (t : tree) (v : Z) :
  (Op.success (fst (insert v t)) = true ->
   size (snd (insert v t)) = size t + 1 /\
   exists pre post,
     elements t = pre ++ post /\
     elements (snd (insert v t)) = pre ++ v :: post) /\
  (Op.success (fst (insert v t)) = false -> snd (insert v t) = t) /\
  (Op.success (fst (remove v t)) = true ->
   size (snd (remove v t)) = size t - 1 /\
   exists pre post,
     elements t = pre ++ v :: post /\
     elements (snd (remove v t)) = pre ++ post) /\
  (Op.success (fst (remove v t)) = false -> snd (remove v t) = t).
Proof.
  assert (Hins : Op.success (fst (insert v t)) = fst (fst (insert_loop v t))).
  { destruct t as [|cv l r]; [reflexivity|]. unfold insert.
    now destruct (insert_loop v (BSTNode cv l r)) as [[ok p] t']. }
  assert (Hrem : Op.success (fst (remove v t)) = true
                 <-> fst (fst (remove_loop v t)) <> NotFound).
  { unfold remove. destruct (remove_loop v t) as [[k p] t'].
    cbn [fst Op.success]. destruct k; split; congruence. }
  rewrite Hins, insert_tree, remove_tree.
  destruct (insert_loop_elements v t) as [Hif Hit].
  destruct (remove_loop_elements v t) as [Hrf Hrt].
  split; [|split; [exact Hif|split]].
  - intros H. destruct (Hit H) as (pre & post & E1 & E2).
    split; [|now exists pre, post].
    unfold size. rewrite E1, E2, !length_app. cbn [List.length]. lia.
  - intros H. apply Hrem in H. destruct (Hrt H) as (pre & post & E1 & E2).
    split; [|now exists pre, post].
    unfold size. rewrite E1, E2, !length_app. cbn [List.length]. lia.
  - intros H. apply Hrf.
    destruct (fst (fst (remove_loop v t))) eqn:Ek; [reflexivity| | |];
      (assert (Ht : Op.success (fst (remove v t)) = true)
        by (apply Hrem; discriminate); congruence).
Qed.

Lemma insert_remove_inorder_witness :
  size (snd (remove 15 example_tree)) = size example_tree - 1 /\
  exists pre post,
    elements example_tree = pre ++ 15 :: post /\
    elements (snd (remove 15 example_tree)) = pre ++ post.
Proof.
  apply (proj1 (proj2 (proj2 (insert_remove_inorder example_tree 15)))).
  reflexivity.
Defined.

(** X7.  [getHeight] is -1 exactly on the empty tree, and on every tree it
    is below the number of nodes, which in turn is below two to the power of
    the height plus one: height + 1 <= nodes <= 2^(height+1) - 1. *)
Theorem getHeight_bounds (t : tree) :
  (getHeight t = -1 <-> t = null) /\
  getHeight t + 1 <= size t /\
  size t <= 2 ^ (getHeight t + 1) - 1.
Proof.
  unfold getHeight. split; [|apply calculateHeight_size].
  destruct t as [|v l r]; [tauto|]. split; [|discriminate].
  pose proof (calculateHeight_ge l). pose proof (calculateHeight_ge r).
  cbn [calculateHeight]. lia.
Qed.

(** X8.  No operation compares more values than the tree is high: the
    paths of [search], [remove], [findMin] and [findMax] have at most
    height + 1 values, and the path of [insert], which ends with the new
    value, at most height + 2. *)
Theorem paths_bounded_by_height (t : tree) (v : Z) :
  Z.of_nat (List.length (Search.path (fst (search v t)))) <= getHeight t + 1 /\
  Z.of_nat (List.length (Op.path (fst (remove v t)))) <= getHeight t + 1 /\
  Z.of_nat (List.length (Op.path (fst (insert v t)))) <= getHeight t + 2 /\
  Z.of_nat (List.length (MinMax.path (fst (findMin t)))) <= getHeight t + 1 /\
  Z.of_nat (List.length (MinMax.path (fst (findMax t)))) <= getHeight t + 1.
Proof.
  unfold getHeight. repeat apply conj.
  - pose proof (search_loop_length v t). unfold search.
    now destruct (search_loop v t).
  - pose proof (remove_loop_length v t). unfold remove.
    now destruct (remove_loop v t) as [[k p] t'].
  - destruct t as [|cv l r]; [simpl; lia|].
    pose proof (insert_loop_length v (BSTNode cv l r)). unfold insert.
    now destruct (insert_loop v (BSTNode cv l r)) as [[ok p] t'].
  - destruct t as [|cv l r]; [simpl; lia|].
    pose proof (findMin_loop_length cv l r). unfold findMin.
    now destruct (findMin_loop cv l).
  - destruct t as [|cv l r]; [simpl; lia|].
    pose proof (findMax_loop_length cv l r). unfold findMax.
    now destruct (findMax_loop cv r).
Qed.

(** X9.  [insert] never lowers the tree and raises it by at most one
    level; [remove] never raises it and lowers it by at most one level. *)
Theorem height_after_insert_remove (t : tree) (v : Z) :
  getHeight t <= getHeight (snd (insert v t)) <= getHeight t + 1 /\
  getHeight t - 1 <= getHeight (snd (remove v t)) <= getHeight t.
Proof.
  unfold getHeight. rewrite insert_tree, remove_tree.
  split; [apply insert_loop_height | apply remove_loop_height].
Qed.

(** X10.  Each detailed traversal returns the values its plain traversal
    returns; [inorder] returns the in-order listing, and [preorder] and
    [postorder] return the same values in another order, each node once. *)
Theorem traversals_agree (k : order) (t : tree) :
  Detailed.values (detailed k t) = Traversal.values (plain k t) /\
  Traversal.values (inorder t) = elements t /\
  Permutation (Traversal.values (plain k t)) (Traversal.values (inorder t)) /\
  Z.of_nat (List.length (Traversal.values (plain k t))) = size t.
Proof.
  assert (Hplain : Traversal.values (plain k t) = visit_order k t).
  { destruct k; cbn [plain]; unfold inorder, preorder, postorder;
      cbn [Traversal.values].
    - now rewrite inorder_traverse_elements, visit_order_inorder.
    - now rewrite preorder_traverse_order.
    - now rewrite postorder_traverse_order. }
  rewrite detailed_values, Hplain, inorder_values.
  split; [reflexivity|]. split; [reflexivity|].
  split; [apply visit_order_perm|].
  unfold size. now rewrite (Permutation_length (visit_order_perm k t)).
Qed.

(** X11.  Whatever the order of a detailed traversal, its enter events
    list the nodes in preorder and its exit events list them in postorder;
    its visit events list them in the order of the values it returns. *)
Theorem events_in_traversal_order (k : order) (t : tree) :
  values_of "enter" (Detailed.steps (detailed k t))
  = Traversal.values (preorder t) /\
  values_of "exit" (Detailed.steps (detailed k t))
  = Traversal.values (postorder t) /\
  values_of "visit" (Detailed.steps (detailed k t))
  = Detailed.values (detailed k t).
Proof.
  rewrite detailed_steps, detailed_values.
  destruct (event_log_values k t) as (He & Hv & Hx).
  unfold preorder, postorder. cbn [Traversal.values].
  rewrite preorder_traverse_order, postorder_traverse_order. cbn [app].
  now rewrite He, Hv, Hx.
Qed.

(** X12.  Inserting values in strictly ascending order into the empty tree
    builds a single chain of right children, and in strictly descending
    order a single chain of left children: the height is the number of
    values minus one, the worst the tree can be (the two skewed presets). *)
Theorem sorted_inserts_degenerate (vs : list Z) :
  (StronglySorted Z.lt vs ->
   insert_all vs null = right_chain vs /\
   getHeight (insert_all vs null) = Z.of_nat (List.length vs) - 1) /\
  (StronglySorted Z.gt vs ->
   insert_all vs null = left_chain vs /\
   getHeight (insert_all vs null) = Z.of_nat (List.length vs) - 1).
Proof.
  unfold getHeight. split; intros Hs.
  - rewrite (insert_all_ascending vs Hs). split; [reflexivity|].
    apply right_chain_height.
  - rewrite (insert_all_descending vs Hs). split; [reflexivity|].
    apply left_chain_height.
Qed.

Lemma sorted_inserts_degenerate_witness :
  insert_all [10; 20; 30; 40; 50] null = right_chain [10; 20; 30; 40; 50] /\
  getHeight (insert_all [10; 20; 30; 40; 50] null) = 4.
Proof.
  apply (proj1 (sorted_inserts_degenerate [10; 20; 30; 40; 50])).
  repeat constructor.
Defined.

(* ================================================================= *)
(** ** The layout *)

Section Layout.

Local Open Scope Q_scope.

(** *** Rounding *)

Lemma pow2_pos (e : Z) : 0 < 2 ^ e.
Proof. apply Qpower_0_lt. reflexivity. Qed.

Lemma pow2_plus (a b : Z) : 2 ^ (a + b) == 2 ^ a * 2 ^ b.
Proof. apply Qpower_plus. discriminate. Qed.

Lemma pow2_Z (e : Z) : (0 <= e)%Z -> inject_Z (2 ^ e) == 2 ^ e.
Proof. intros H. now rewrite Zpower_Qpower. Qed.

Lemma pow2_opp (e : Z) : 2 ^ e * 2 ^ (- e) == 1.
Proof. rewrite <- pow2_plus, Z.add_opp_diag_r. reflexivity. Qed.

Lemma round_half_even_lower (n d k : Z) :
  (0 < d)%Z -> (k * d <= n)%Z -> (k <= round_half_even n d)%Z.
Proof.
  intros Hd Hk. assert (H : (k <= n / d)%Z).
  { apply Z.div_le_lower_bound; lia. }
  unfold round_half_even.
  destruct (2 * (n mod d) ?= d)%Z; [destruct (Z.even (n / d))| |]; lia.
Qed.

Lemma round_half_even_upper (n d k : Z) :
  (0 < d)%Z -> (n <= k * d)%Z -> (round_half_even n d <= k)%Z.
Proof.
  intros Hd Hk.
  pose proof (Z.div_mod n d ltac:(lia)) as E.
  pose proof (Z.mod_pos_bound n d Hd) as Hr.
  unfold round_half_even.
  destruct (Z.compare_spec (2 * (n mod d)) d) as [H|H|H].
  - assert (n / d < k)%Z by nia. destruct (Z.even (n / d)); lia.
  - destruct (Z.eq_dec (n mod d) 0) as [Z0|NZ]; nia.
  - nia.
Qed.

Lemma exponent_bounds (n d : Z) :
  (0 < n)%Z -> (0 < d)%Z ->
  2 ^ exponent n d * inject_Z d <= inject_Z n /\
  inject_Z n < 2 ^ (exponent n d + 1) * inject_Z d.
Proof.
  intros Hn Hd.
  destruct (Z.log2_spec n Hn) as [Hn1 Hn2].
  destruct (Z.log2_spec d Hd) as [Hd1 Hd2].
  pose proof (Z.log2_nonneg n) as Hln. pose proof (Z.log2_nonneg d) as Hld.
  rewrite Zle_Qle, pow2_Z in Hn1, Hd1 by assumption.
  rewrite Zlt_Qlt, pow2_Z in Hn2, Hd2 by (apply Z.le_le_succ_r; assumption).
  unfold Z.succ in *.
  set (ln := Z.log2 n) in *. set (ld := Z.log2 d) in *.
  assert (Hqd : 0 < inject_Z d) by (rewrite (Zlt_Qlt 0 d) in Hd; exact Hd).
  assert (Hup : inject_Z n < 2 ^ (ln - ld + 1) * inject_Z d).
  { eapply Qlt_le_trans; [exact Hn2|].
    replace (ln + 1)%Z with ((ln - ld + 1) + ld)%Z by lia.
    rewrite pow2_plus. apply Qmult_le_l; [apply pow2_pos | exact Hd1]. }
  assert (Hlo : 2 ^ (ln - ld - 1) * inject_Z d <= inject_Z n).
  { eapply Qle_trans; [|exact Hn1].
    replace ln with ((ln - ld - 1) + (ld + 1))%Z at 2 by lia.
    rewrite pow2_plus. apply Qmult_le_l; [apply pow2_pos|].
    apply Qlt_le_weak, Hd2. }
  unfold exponent. fold ln ld. set (k := (ln - ld)%Z) in *.
  assert (Htest : (if 0 <=? k then d * 2 ^ k <=? n else d <=? n * 2 ^ (- k))%Z
                  = true <-> 2 ^ k * inject_Z d <= inject_Z n).
  { destruct (Z.leb_spec 0 k) as [Hk|Hk].
    - rewrite Z.leb_le, Zle_Qle, inject_Z_mult, pow2_Z by assumption.
      now rewrite Qmult_comm.
    - rewrite Z.leb_le, Zle_Qle, inject_Z_mult, pow2_Z by lia.
      pose proof (pow2_opp k) as Ho. pose proof (pow2_pos k) as Hp.
      pose proof (pow2_pos (- k)) as Hp'.
      split; intros H.
      + apply (Qmult_le_l _ _ (2 ^ (- k))); [exact Hp'|].
        rewrite Qmult_assoc, (Qmult_comm (2 ^ (- k))), Ho, Qmult_1_l.
        now rewrite Qmult_comm.
      + apply (Qmult_le_l _ _ (2 ^ k)); [exact Hp|].
        rewrite (Qmult_comm (inject_Z n)), Qmult_assoc, Ho, Qmult_1_l.
        exact H. }
  destruct (if 0 <=? k then d * 2 ^ k <=? n else d <=? n * 2 ^ (- k))%Z.
  - split; [now apply Htest | exact Hup].
  - split; [exact Hlo|].
    replace (k - 1 + 1)%Z with k by lia.
    apply Qnot_le_lt. intros H. apply Htest in H. discriminate.
Qed.

Lemma pow2_shift_le (a b : Q) (e : Z) : a * 2 ^ e <= b <-> a <= b * 2 ^ (- e).
Proof.
  pose proof (pow2_opp e) as Ho. pose proof (pow2_pos e) as Hp.
  pose proof (pow2_pos (- e)) as Hp'.
  split; intros H.
  - apply (Qmult_le_r _ _ (2 ^ e)); [exact Hp|].
    rewrite <- Qmult_assoc, (Qmult_comm (2 ^ (- e))), Ho, Qmult_1_r. exact H.
  - apply (Qmult_le_r _ _ (2 ^ (- e))); [exact Hp'|].
    rewrite <- Qmult_assoc, Ho, Qmult_1_r. exact H.
Qed.

Lemma pow2_shift_ge (a b : Q) (e : Z) : b <= a * 2 ^ e <-> b * 2 ^ (- e) <= a.
Proof.
  pose proof (pow2_opp e) as Ho. pose proof (pow2_pos e) as Hp.
  pose proof (pow2_pos (- e)) as Hp'.
  split; intros H.
  - apply (Qmult_le_r _ _ (2 ^ e)); [exact Hp|].
    rewrite <- Qmult_assoc, (Qmult_comm (2 ^ (- e))), Ho, Qmult_1_r. exact H.
  - apply (Qmult_le_r _ _ (2 ^ (- e))); [exact Hp'|].
    rewrite <- Qmult_assoc, Ho, Qmult_1_r. exact H.
Qed.

(** What [binary64_pos] returns: a multiple [m * 2^e] of the unit of the
    binade of [n / d], with [m] between the multiples below and above. *)
Lemma binary64_pos_spec (n d : Z) :
  (0 < n)%Z -> (0 < d)%Z ->
  exists m,
    binary64_pos n d
    == inject_Z m * 2 ^ Z.max (-1074) (exponent n d - 52) /\
    (forall k,
        inject_Z k * 2 ^ Z.max (-1074) (exponent n d - 52) * inject_Z d
        <= inject_Z n -> (k <= m)%Z) /\
    (forall k,
        inject_Z n
        <= inject_Z k * 2 ^ Z.max (-1074) (exponent n d - 52) * inject_Z d ->
        (m <= k)%Z).
Proof.
  intros Hn Hd. unfold binary64_pos.
  set (e := Z.max (-1074) (exponent n d - 52)).
  assert (Hqd : 0 < inject_Z d) by (rewrite (Zlt_Qlt 0 d) in Hd; exact Hd).
  destruct (Z.leb_spec 0 e) as [He|He].
  - assert (HP : (0 < 2 ^ e)%Z) by (apply Z.pow_pos_nonneg; lia).
    exists (round_half_even n (d * 2 ^ e)). split; [|split].
    + now rewrite inject_Z_mult, pow2_Z.
    + intros k Hk. apply round_half_even_lower; [lia|].
      rewrite Zle_Qle, !inject_Z_mult, pow2_Z by assumption.
      rewrite (Qmult_comm (inject_Z d)), Qmult_assoc. exact Hk.
    + intros k Hk. apply round_half_even_upper; [lia|].
      rewrite Zle_Qle, !inject_Z_mult, pow2_Z by assumption.
      rewrite (Qmult_comm (inject_Z d)), Qmult_assoc. exact Hk.
  - assert (HP : (0 < 2 ^ (- e))%Z) by (apply Z.pow_pos_nonneg; lia).
    assert (HPq : inject_Z (2 ^ (- e)) == 2 ^ (- e)) by (apply pow2_Z; lia).
    exists (round_half_even (n * 2 ^ (- e)) d). split; [|split].
    + rewrite Qred_correct, Qmake_Qdiv, Z2Pos.id by exact HP.
      unfold Qdiv. apply Qmult_comp; [reflexivity|].
      rewrite HPq. rewrite <- Qpower_opp, Z.opp_involutive. reflexivity.
    + intros k Hk. apply round_half_even_lower; [exact Hd|].
      rewrite Zle_Qle, !inject_Z_mult, HPq.
      apply pow2_shift_le.
      rewrite <- Qmult_assoc, (Qmult_comm (inject_Z d)), Qmult_assoc.
      exact Hk.
    + intros k Hk. apply round_half_even_upper; [exact Hd|].
      rewrite Zle_Qle, !inject_Z_mult, HPq.
      apply pow2_shift_ge.
      rewrite <- Qmult_assoc, (Qmult_comm (inject_Z d)), Qmult_assoc.
      exact Hk.
Qed.

Lemma pow2_le (a b : Z) : (a <= b)%Z -> 2 ^ a <= 2 ^ b.
Proof. intros H. apply Qpower_le_compat_l; [exact H | discriminate]. Qed.

Lemma inject_Z_le_mult (j k : Z) (u : Q) :
  0 < u -> (j <= k)%Z -> inject_Z j * u <= inject_Z k * u.
Proof.
  intros Hu H. apply Qmult_le_compat_r; [|now apply Qlt_le_weak].
  now rewrite <- Zle_Qle.
Qed.

(** A binary64 number on the grid of a smaller exponent. *)
Lemma on_grid (m k e : Z) :
  (e <= k)%Z -> inject_Z (m * 2 ^ (k - e)) * 2 ^ e == inject_Z m * 2 ^ k.
Proof.
  intros H. rewrite inject_Z_mult, pow2_Z by lia.
  rewrite <- Qmult_assoc, <- pow2_plus.
  now replace (k - e + e)%Z with k by lia.
Qed.

Lemma binary64_pos_between (n d : Z) (a b : Q) :
  (0 < n)%Z -> (0 < d)%Z ->
  representable a -> representable b -> 0 <= a ->
  a * inject_Z d <= inject_Z n -> inject_Z n <= b * inject_Z d ->
  a <= binary64_pos n d /\ binary64_pos n d <= b /\
  representable (binary64_pos n d).
Proof.
  intros Hn Hd (ma & ka & Hma & Hka & Ea) (mb & kb & Hmb & Hkb & Eb) Ha0
         Han Hnb.
  destruct (binary64_pos_spec n d Hn Hd) as (m & E & Hlow & Hup).
  destruct (exponent_bounds n d Hn Hd) as [Hex1 Hex2].
  set (ex := exponent n d) in *. set (e := Z.max (-1074) (ex - 52)) in *.
  assert (Hqd : 0 < inject_Z d) by (rewrite (Zlt_Qlt 0 d) in Hd; exact Hd).
  pose proof (pow2_pos e) as Hu.
  assert (H52 : inject_Z (2 ^ 52) == 2 ^ 52) by (apply pow2_Z; lia).
  assert (H53 : inject_Z (2 ^ 53) == 2 ^ 53) by (apply pow2_Z; lia).
  (* the significand of a normal number has its 53 bits *)
  assert (Hnormal : (-1074 < e)%Z ->
                    2 ^ 52 * 2 ^ e * inject_Z d <= inject_Z n /\
                    (2 ^ 52 <= m)%Z).
  { intros He. assert (Hee : (52 + e = ex)%Z) by lia.
    assert (Hb : 2 ^ 52 * 2 ^ e * inject_Z d <= inject_Z n)
      by (rewrite <- pow2_plus, Hee; exact Hex1).
    split; [exact Hb|]. apply Hlow. now rewrite H52. }
  assert (Hm0 : (0 <= m)%Z).
  { apply Hlow. rewrite !Qmult_0_l. rewrite (Zlt_Qlt 0 n) in Hn.
    now apply Qlt_le_weak. }
  assert (Hm53 : (m <= 2 ^ 53)%Z).
  { apply Hup. rewrite H53, <- pow2_plus.
    apply Qlt_le_weak. eapply Qlt_le_trans; [exact Hex2|].
    apply Qmult_le_compat_r; [|now apply Qlt_le_weak].
    apply pow2_le. lia. }
  assert (Hrep : representable (binary64_pos n d)).
  { exists m, e. split; [lia|]. split; [lia | exact E]. }
  split; [|split; [|exact Hrep]]; rewrite E.
  - destruct (Z_le_gt_dec e ka) as [Hg|Hg].
    + rewrite Ea, <- (on_grid ma ka e Hg).
      apply inject_Z_le_mult; [exact Hu|]. apply Hlow.
      rewrite (on_grid ma ka e Hg), <- Ea. exact Han.
    + destruct Hnormal as [_ Hm52]; [lia|].
      rewrite Ea. apply Qle_trans with (2 ^ 53 * 2 ^ ka).
      * apply Qmult_le_compat_r; [|apply Qlt_le_weak, pow2_pos].
        rewrite <- H53, <- Zle_Qle. lia.
      * rewrite <- pow2_plus. apply Qle_trans with (2 ^ 52 * 2 ^ e).
        { rewrite <- pow2_plus. apply pow2_le. lia. }
        rewrite <- H52. now apply inject_Z_le_mult.
  - destruct (Z_le_gt_dec e kb) as [Hg|Hg].
    + rewrite Eb, <- (on_grid mb kb e Hg).
      apply inject_Z_le_mult; [exact Hu|]. apply Hup.
      rewrite (on_grid mb kb e Hg), <- Eb. exact Hnb.
    + destruct Hnormal as [Hb52 _]; [lia|].
      assert (Hbtop : b <= 2 ^ 52 * 2 ^ e).
      { rewrite Eb. apply Qle_trans with (2 ^ 53 * 2 ^ kb).
        - apply Qmult_le_compat_r; [|apply Qlt_le_weak, pow2_pos].
          rewrite <- H53, <- Zle_Qle. lia.
        - rewrite <- !pow2_plus. apply pow2_le. lia. }
      assert (Hbbot : 2 ^ 52 * 2 ^ e <= b).
      { apply (Qmult_le_r _ _ (inject_Z d)); [exact Hqd|].
        eapply Qle_trans; [exact Hb52 | exact Hnb]. }
      apply Qle_trans with (2 ^ 52 * 2 ^ e); [|exact Hbbot].
      rewrite <- H52. apply inject_Z_le_mult; [exact Hu|]. apply Hup.
      rewrite H52. eapply Qle_trans; [exact Hnb|].
      apply Qmult_le_compat_r; [exact Hbtop | now apply Qlt_le_weak].
Qed.

Lemma representable_Z (m : Z) : (Z.abs m <= 2 ^ 53)%Z -> representable (inject_Z m).
Proof.
  intros H. exists m, 0%Z. split; [exact H|]. split; [lia|].
  change (2 ^ 0) with 1. now rewrite Qmult_1_r.
Qed.

Lemma representable_double (a : Q) : representable a -> representable (2 * a).
Proof.
  intros (m & e & Hm & He & E). exists m, (e + 1)%Z.
  split; [exact Hm|]. split; [lia|].
  rewrite E, pow2_plus. change (2 ^ 1) with 2. lra.
Qed.

(** Rounding cannot leave an interval whose ends are binary64 numbers. *)
Lemma binary64_between (a b q : Q) :
  representable a -> representable b -> 0 <= a -> a <= q -> q <= b ->
  a <= binary64 q /\ binary64 q <= b /\ representable (binary64 q).
Proof.
  intros Ra Rb Ha0 Haq Hqb. destruct q as [[|n|n] d]; unfold binary64;
    cbn [Qnum Qden].
  - assert (E : 0 # d == 0) by reflexivity. rewrite E in Haq, Hqb.
    split; [exact Haq|]. split; [exact Hqb|].
    now apply (representable_Z 0).
  - assert (E : Z.pos n # d == inject_Z (Z.pos n) / inject_Z (Z.pos d))
      by (now rewrite Qmake_Qdiv).
    assert (Hd : 0 < inject_Z (Z.pos d)) by reflexivity.
    apply binary64_pos_between; try assumption; try reflexivity.
    + apply (Qmult_le_r _ _ (/ inject_Z (Z.pos d)));
        [now apply Qinv_lt_0_compat|].
      rewrite <- Qmult_assoc, Qmult_inv_r, Qmult_1_r by discriminate.
      now rewrite <- E.
    + apply (Qmult_le_r _ _ (/ inject_Z (Z.pos d)));
        [now apply Qinv_lt_0_compat|].
      rewrite <- (Qmult_assoc b), Qmult_inv_r, Qmult_1_r by discriminate.
      now rewrite <- E.
  - exfalso. assert (H : Z.neg n # d < 0) by reflexivity.
    apply (Qlt_irrefl 0). eapply Qle_lt_trans; [exact Ha0|].
    eapply Qle_lt_trans; [exact Haq | exact H].
Qed.

(** A binary64 number is its own rounding. *)
Lemma binary64_exact (q : Q) :
  representable q -> 0 <= q -> binary64 q == q.
Proof.
  intros R H0.
  destruct (binary64_between q q q R R H0 (Qle_refl q) (Qle_refl q))
    as (H1 & H2 & _).
  now apply Qle_antisym.
Qed.

(** [(left + right) / 2] lies between [left] and [right]. *)
Lemma midpoint_between (lo hi : Q) :
  representable lo -> representable hi -> 0 <= lo -> lo <= hi ->
  lo <= binary64 (Qdiv (binary64 (Qplus lo hi)) (inject_Z 2)) /\
  binary64 (Qdiv (binary64 (Qplus lo hi)) (inject_Z 2)) <= hi /\
  representable (binary64 (Qdiv (binary64 (Qplus lo hi)) (inject_Z 2))).
Proof.
  intros Rlo Rhi H0 Hle.
  destruct (binary64_between (2 * lo) (2 * hi) (Qplus lo hi))
    as (Hs1 & Hs2 & _);
    [now apply representable_double | now apply representable_double
     | lra | lra | lra |].
  set (s := binary64 (Qplus lo hi)) in *.
  assert (E : Qdiv s (inject_Z 2) == s * (1 # 2)) by reflexivity.
  apply binary64_between; try assumption; rewrite E; lra.
Qed.

(** Down to level 47 the midpoints of the canvas are binary64 numbers and
    no rounding takes place. *)
Lemma midpoint_exact (level j : Z) (lo hi : Q) :
  (0 <= level <= 47)%Z -> (0 <= j)%Z -> (j + 1 <= 2 ^ level)%Z ->
  lo == inject_Z j * (800 * 2 ^ (- level)) ->
  hi == inject_Z (j + 1) * (800 * 2 ^ (- level)) ->
  binary64 (Qdiv (binary64 (Qplus lo hi)) (inject_Z 2))
  == inject_Z (2 * j + 1) * (800 * 2 ^ (- (level + 1))).
Proof.
  intros HL Hj Hj1 Elo Ehi.
  assert (Hbound : (Z.abs ((2 * j + 1) * 25) <= 2 ^ 53)%Z).
  { assert (2 ^ level <= 2 ^ 47)%Z by (apply Z.pow_le_mono_r; lia).
    change (2 ^ 47)%Z with 140737488355328%Z in *.
    change (2 ^ 53)%Z with 9007199254740992%Z. lia. }
  pose proof (pow2_pos (- level)) as Hw.
  assert (Hhalf : 2 ^ (- (level + 1)) == 2 ^ (- level) * (1 # 2)).
  { replace (- (level + 1))%Z with (- level + -1)%Z by lia.
    now rewrite pow2_plus. }
  assert (Hsum : Qplus lo hi == inject_Z (2 * j + 1) * (800 * 2 ^ (- level))).
  { rewrite Elo, Ehi, !inject_Z_plus, inject_Z_mult.
    change (inject_Z 2) with 2. change (inject_Z 1) with 1. lra. }
  assert (Hpos : 0 <= inject_Z (2 * j + 1))
    by (rewrite <- (Zle_Qle 0); lia).
  assert (Es : binary64 (Qplus lo hi) == Qplus lo hi).
  { apply binary64_exact.
    - exists ((2 * j + 1) * 25)%Z, (5 - level)%Z.
      split; [exact Hbound|]. split; [lia|].
      rewrite Hsum, inject_Z_mult.
      replace (5 - level)%Z with (5 + - level)%Z by lia.
      rewrite pow2_plus. change (2 ^ 5) with 32.
      change (inject_Z 25) with 25. lra.
    - rewrite Hsum. apply Qmult_le_0_compat; [exact Hpos | lra]. }
  set (s := binary64 (Qplus lo hi)) in *.
  assert (E : Qdiv s (inject_Z 2) == s * (1 # 2)) by reflexivity.
  rewrite binary64_exact; [rewrite E, Es, Hsum, Hhalf; lra | |].
  - exists ((2 * j + 1) * 25)%Z, (4 - level)%Z.
    split; [exact Hbound|]. split; [lia|].
    rewrite E, Es, Hsum, inject_Z_mult.
    replace (4 - level)%Z with (4 + - level)%Z by lia.
    rewrite pow2_plus. change (2 ^ 4) with 16.
    change (inject_Z 25) with 25. lra.
  - rewrite E, Es, Hsum.
    apply Qmult_le_0_compat; [|lra].
    apply Qmult_le_0_compat; [exact Hpos | lra].
Qed.

(** *** The entries *)

Lemma level_y (level : Z) :
  Qred (Qplus (inject_Z 50) (Qmult (inject_Z level) (inject_Z 70)))
  = inject_Z (50 + 70 * level).
Proof.
  rewrite <- (Qred_identity (inject_Z (50 + 70 * level))).
  - apply Qred_complete. rewrite inject_Z_plus, inject_Z_mult. lra.
  - simpl. apply Z.gcd_1_r.
Qed.

Lemma placed_value_fields (t : tree) (level : Z) (lo hi : Q) :
  placed_value (assignPositions_fields t level lo hi) = child_value t.
Proof. now destruct t. Qed.

(** The array of [assignPositions] lists the nodes with the coordinates
    the same call writes into their fields. *)
Lemma assignPositions_entries (t : tree) (level : Z) (lo hi : Q)
    (nodes : list VisNode.t) :
  assignPositions t level lo hi nodes
  = (nodes ++ entries (assignPositions_fields t level lo hi))%list.
Proof.
  revert level lo hi nodes.
  induction t as [|v l IHl r IHr]; intros level lo hi nodes;
    cbn [assignPositions assignPositions_fields entries].
  - now rewrite app_nil_r.
  - rewrite IHr, IHl, !placed_value_fields, <- !app_assoc. reflexivity.
Qed.

Lemma getNodes_entries (t : tree) :
  getNodesForVisualization t
  = entries (assignPositions_fields t 0%Z (inject_Z 0) (inject_Z 800)).
Proof.
  destruct t as [|v l r]; [reflexivity|].
  unfold getNodesForVisualization. now rewrite assignPositions_entries.
Qed.

Lemma entries_values (t : tree) (level : Z) (lo hi : Q) :
  map VisNode.value (entries (assignPositions_fields t level lo hi))
  = visit_order Preorder t.
Proof.
  revert level lo hi. induction t as [|v l IHl r IHr]; intros level lo hi;
    cbn [assignPositions_fields entries visit_order map app];
    [reflexivity|].
  now rewrite map_app, IHl, IHr.
Qed.

Lemma entries_In_tree (t : tree) (level : Z) (lo hi : Q) (n : VisNode.t) :
  In n (entries (assignPositions_fields t level lo hi)) ->
  In_tree (VisNode.value n) t.
Proof.
  intros Hin. apply In_tree_elements.
  apply (Permutation_in _ (visit_order_perm Preorder t)).
  rewrite <- (entries_values t level lo hi). now apply in_map.
Qed.

Lemma In_tree_entries (t : tree) (level : Z) (lo hi : Q) (v : Z) :
  In_tree v t ->
  exists n, In n (entries (assignPositions_fields t level lo hi)) /\
            VisNode.value n = v.
Proof.
  intros Hin. apply In_tree_elements in Hin.
  apply (Permutation_in _ (Permutation_sym (visit_order_perm Preorder t)))
    in Hin.
  rewrite <- (entries_values t level lo hi) in Hin.
  apply in_map_iff in Hin. destruct Hin as (n & Hv & Hn). now exists n.
Qed.

(** Each entry is the entry of a node, at the height of the node's depth
    and with the values of the node's children. *)
Lemma entries_sound (t : tree) (level : Z) (lo hi : Q) (n : VisNode.t) :
  In n (entries (assignPositions_fields t level lo hi)) ->
  exists C l r,
    t = plug C (BSTNode (VisNode.value n) l r) /\
    VisNode.y n = inject_Z (50 + 70 * (level + Z.of_nat (List.length C))) /\
    VisNode.left n = child_value l /\ VisNode.right n = child_value r.
Proof.
  revert level lo hi. induction t as [|v l IHl r IHr]; intros level lo hi;
    cbn [assignPositions_fields entries]; [intros []|].
  intros [<-|Hin].
  - exists [], l, r. cbn [VisNode.value VisNode.y VisNode.left VisNode.right
                            List.length plug].
    rewrite level_y, !placed_value_fields, Z.add_0_r. now repeat split.
  - apply in_app_or in Hin. destruct Hin as [Hin|Hin].
    + destruct (IHl _ _ _ Hin) as (C & l' & r' & -> & Hy & Hc).
      exists ((v, GoLeft, r) :: C), l', r'. split; [reflexivity|].
      split; [|exact Hc]. rewrite Hy. f_equal. cbn [List.length]. lia.
    + destruct (IHr _ _ _ Hin) as (C & l' & r' & -> & Hy & Hc).
      exists ((v, GoRight, l) :: C), l', r'. split; [reflexivity|].
      split; [|exact Hc]. rewrite Hy. f_equal. cbn [List.length]. lia.
Qed.

Lemma find_app {A : Type} (f : A -> bool) (l1 l2 : list A) :
  find f (l1 ++ l2)
  = match find f l1 with
    | Some x => Some x
    | None => find f l2
    end.
Proof.
  induction l1 as [|a l1 IH]; [reflexivity|].
  cbn [app find]. now destruct (f a).
Qed.

Lemma find_absent {A : Type} (f : A -> bool) (l : list A) :
  (forall x, In x l -> f x = false) -> find f l = None.
Proof.
  induction l as [|a l IH]; [reflexivity|]. intros H. cbn [find].
  rewrite (H a (or_introl eq_refl)). apply IH. intros x Hx. apply H. now right.
Qed.

(** In a search tree the lookup by value finds the entry of the node that
    holds the value. *)
Lemma find_entry (C : context) (v : Z) (l r : tree) (level : Z) (lo hi : Q) :
  BST (plug C (BSTNode v l r)) ->
  exists n,
    find (fun n => (VisNode.value n =? v)%Z)
      (entries (assignPositions_fields (plug C (BSTNode v l r)) level lo hi))
    = Some n /\
    VisNode.value n = v /\
    VisNode.y n = inject_Z (50 + 70 * (level + Z.of_nat (List.length C))) /\
    VisNode.left n = child_value l /\ VisNode.right n = child_value r.
Proof.
  revert level lo hi.
  induction C as [|[[pv d] sib] C IH]; intros level lo hi B.
  - cbn [plug assignPositions_fields entries find VisNode.value].
    rewrite Z.eqb_refl. eexists. split; [reflexivity|].
    cbn [VisNode.value VisNode.y VisNode.left VisNode.right List.length].
    rewrite level_y, !placed_value_fields, Z.add_0_r. now repeat split.
  - assert (Hin : In_tree v (plug C (BSTNode v l r)))
      by (apply In_tree_plug; now left).
    destruct d; cbn [plug] in *; destruct B as (Hl & Hr & Bl & Br);
      cbn [assignPositions_fields entries find VisNode.value].
    + apply Hl in Hin. destruct (Z.eqb_spec pv v); [lia|].
      destruct (IH (level + 1)%Z lo
                  (binary64 (Qdiv (binary64 (Qplus lo hi)) (inject_Z 2))) Bl)
        as (m & Hf & Hv & Hy & Hc).
      exists m. rewrite find_app, Hf. split; [reflexivity|].
      split; [exact Hv|]. split; [|exact Hc].
      rewrite Hy. f_equal. cbn [List.length]. lia.
    + apply Hr in Hin. destruct (Z.eqb_spec pv v); [lia|].
      destruct (IH (level + 1)%Z
                  (binary64 (Qdiv (binary64 (Qplus lo hi)) (inject_Z 2))) hi Br)
        as (m & Hf & Hv & Hy & Hc).
      exists m. rewrite find_app, find_absent, Hf.
      * split; [reflexivity|]. split; [exact Hv|]. split; [|exact Hc].
        rewrite Hy. f_equal. cbn [List.length]. lia.
      * intros x Hx. apply entries_In_tree, Hl in Hx.
        apply Z.eqb_neq. lia.
Qed.

Lemma getPos_None_iff (t : tree) (v : Z) :
  getPos (getNodesForVisualization t) v = None <-> ~ In_tree v t.
Proof.
  rewrite getNodes_entries. unfold getPos. split.
  - intros Hnone Hin.
    destruct (In_tree_entries t 0%Z (inject_Z 0) (inject_Z 800) v Hin)
      as (n & Hn & Hv).
    destruct (find _ _) as [m|] eqn:Hf; [discriminate|].
    pose proof (find_none _ _ Hf n Hn) as Hfalse. cbv beta in Hfalse.
    rewrite Hv, Z.eqb_refl in Hfalse. discriminate.
  - intros Hn. rewrite find_absent; [reflexivity|].
    intros n Hin. apply Z.eqb_neq. intros Hv. apply Hn. rewrite <- Hv.
    eapply entries_In_tree, Hin.
Qed.

Lemma fields_y (t : tree) (level : Z) (lo hi : Q) (v : Z) (x y : Q)
    (l r : placed) :
  assignPositions_fields t level lo hi = PlacedNode v x y l r ->
  y = inject_Z (50 + 70 * level).
Proof.
  destruct t as [|tv tl tr]; [discriminate|].
  cbn [assignPositions_fields]. rewrite level_y. congruence.
Qed.

(** *** Edges *)

Lemma collectEdges_app (p : placed) (edges : list EdgeData.t) :
  collectEdges p edges = (edges ++ collectEdges p [])%list.
Proof.
  revert edges. induction p as [|v x y l IHl r IHr]; intros edges.
  - cbn. now rewrite app_nil_r.
  - cbn [collectEdges].
    destruct l as [|lv lx ly ll lr], r as [|rv rx ry rl rr].
    + now rewrite app_nil_r.
    + rewrite (IHr (edges ++ _)%list), (IHr ([] ++ _)%list).
      now rewrite <- !app_assoc.
    + rewrite (IHl (edges ++ _)%list), (IHl ([] ++ _)%list).
      now rewrite <- !app_assoc.
    + rewrite (IHr (collectEdges _ _ ++ _)%list).
      rewrite (IHl (edges ++ _)%list).
      rewrite (IHr (collectEdges _ _ ++ _)%list).
      rewrite (IHl ([] ++ _)%list).
      now rewrite <- !app_assoc.
Qed.

(** One edge per node other than the root. *)
Lemma collectEdges_length (p : placed) :
  List.length (collectEdges p []) = (List.length (entries p) - 1)%nat.
Proof.
  induction p as [|v x y l IHl r IHr]; [reflexivity|].
  cbn [collectEdges entries List.length]. rewrite length_app.
  destruct l as [|lv lx ly ll lr], r as [|rv rx ry rl rr].
  - reflexivity.
  - rewrite collectEdges_app, length_app, IHr.
    cbn [entries List.length app]. lia.
  - rewrite collectEdges_app, length_app, IHl.
    cbn [entries List.length app]. lia.
  - rewrite collectEdges_app, length_app.
    rewrite (collectEdges_app (PlacedNode lv lx ly ll lr)), !length_app.
    rewrite IHl, IHr. cbn [entries List.length app]. lia.
Qed.

(** *** Where the nodes are placed

    What follows holds for any order [rel] that the midpoint keeps with
    the ends of its interval, under a condition [ok] on a subtree, its
    level and its interval that passes to the subtrees. *)
Section Intervals.

Variable rel : Q -> Q -> Prop.
Variable ok : tree -> Z -> Q -> Q -> Prop.

Hypothesis rel_trans : forall a b c, rel a b -> rel b c -> rel a c.

Hypothesis ok_step : forall v l r level lo hi,
  ok (BSTNode v l r) level lo hi ->
  rel lo (binary64 (Qdiv (binary64 (Qplus lo hi)) (inject_Z 2))) /\
  rel (binary64 (Qdiv (binary64 (Qplus lo hi)) (inject_Z 2))) hi /\
  ok l (level + 1)%Z lo
    (binary64 (Qdiv (binary64 (Qplus lo hi)) (inject_Z 2))) /\
  ok r (level + 1)%Z
    (binary64 (Qdiv (binary64 (Qplus lo hi)) (inject_Z 2))) hi.

(** Every node is placed inside the interval of its subtree. *)
Lemma entries_within (t : tree) (level : Z) (lo hi : Q) (n : VisNode.t) :
  ok t level lo hi ->
  In n (entries (assignPositions_fields t level lo hi)) ->
  rel lo (VisNode.x n) /\ rel (VisNode.x n) hi.
Proof.
  revert level lo hi. induction t as [|v l IHl r IHr]; intros level lo hi Hok;
    cbn [assignPositions_fields entries]; [intros []|].
  destruct (ok_step _ _ _ _ _ _ Hok) as (Hm1 & Hm2 & Hokl & Hokr).
  intros [<-|Hin]; [now split|].
  apply in_app_or in Hin. destruct Hin as [Hin|Hin].
  - destruct (IHl _ _ _ Hokl Hin) as [H1 H2].
    split; [exact H1|]. eapply rel_trans; eassumption.
  - destruct (IHr _ _ _ Hokr Hin) as [H1 H2].
    split; [|exact H2]. eapply rel_trans; eassumption.
Qed.

(** In a search tree the layout keeps the order: the smaller of two values
    is placed to the left. *)
Lemma entries_ordered (t : tree) (level : Z) (lo hi : Q)
    (n1 n2 : VisNode.t) :
  BST t -> ok t level lo hi ->
  In n1 (entries (assignPositions_fields t level lo hi)) ->
  In n2 (entries (assignPositions_fields t level lo hi)) ->
  (VisNode.value n1 < VisNode.value n2)%Z ->
  rel (VisNode.x n1) (VisNode.x n2).
Proof.
  revert level lo hi. induction t as [|v l IHl r IHr]; intros level lo hi B Hok;
    cbn [assignPositions_fields entries]; [intros []|].
  destruct B as (Hl & Hr & Bl & Br).
  destruct (ok_step _ _ _ _ _ _ Hok) as (Hm1 & Hm2 & Hokl & Hokr).
  set (x := binary64 (Qdiv (binary64 (Qplus lo hi)) (inject_Z 2))) in *.
  intros H1 H2 Hv.
  assert (HL : forall n, In n (entries (assignPositions_fields l (level + 1) lo x)) ->
                         (VisNode.value n < v)%Z /\ rel (VisNode.x n) x).
  { intros n Hn. split.
    - apply Hl. eapply entries_In_tree, Hn.
    - now apply (entries_within l (level + 1) lo x n Hokl). }
  assert (HR : forall n, In n (entries (assignPositions_fields r (level + 1) x hi)) ->
                         (v < VisNode.value n)%Z /\ rel x (VisNode.x n)).
  { intros n Hn. split.
    - apply Hr. eapply entries_In_tree, Hn.
    - now apply (entries_within r (level + 1) x hi n Hokr). }
  destruct H1 as [<-|H1]; destruct H2 as [<-|H2];
    cbn [VisNode.value VisNode.x] in *.
  - lia.
  - apply in_app_or in H2. destruct H2 as [H2|H2].
    + apply HL in H2. lia.
    + now apply HR in H2.
  - apply in_app_or in H1. destruct H1 as [H1|H1].
    + now apply HL in H1.
    + apply HR in H1. lia.
  - apply in_app_or in H1. apply in_app_or in H2.
    destruct H1 as [H1|H1], H2 as [H2|H2].
    + now apply (IHl (level + 1)%Z lo x).
    + apply HL in H1. apply HR in H2. eapply rel_trans; [apply H1 | apply H2].
    + apply HR in H1. apply HL in H2. lia.
    + now apply (IHr (level + 1)%Z x hi).
Qed.

(** Each edge leads from the coordinates of a node to the coordinates of
    one of its children, one level (70) further down, with the left child
    on the left and the right child on the right. *)
Lemma collectEdges_sound (t : tree) (level : Z) (lo hi : Q) (e : EdgeData.t) :
  ok t level lo hi ->
  In e (collectEdges (assignPositions_fields t level lo hi) []) ->
  joins rel (entries (assignPositions_fields t level lo hi)) e.
Proof.
  unfold joins. revert level lo hi e.
  induction t as [|v l IHl r IHr]; intros level lo hi e Hok; [intros []|].
  destruct (ok_step _ _ _ _ _ _ Hok) as (Hm1 & Hm2 & Hokl & Hokr).
  cbn [assignPositions_fields].
  set (x := binary64 (Qdiv (binary64 (Qplus lo hi)) (inject_Z 2))) in *.
  set (y := Qred (Qplus (inject_Z 50) (Qmult (inject_Z level) (inject_Z 70)))).
  set (L := assignPositions_fields l (level + 1) lo x).
  set (R := assignPositions_fields r (level + 1) x hi).
  set (root := {| VisNode.value := v; VisNode.x := x; VisNode.y := y;
                  VisNode.left := placed_value L;
                  VisNode.right := placed_value R |}).
  assert (Hy : forall t' lo' hi' cv cx cy cl cr,
             assignPositions_fields t' (level + 1) lo' hi'
             = PlacedNode cv cx cy cl cr ->
             cy == y + 70).
  { intros t' lo' hi' cv cx cy cl cr Hc.
    rewrite (fields_y _ _ _ _ _ _ _ _ _ Hc). unfold y.
    rewrite level_y, !inject_Z_plus, !inject_Z_mult, inject_Z_plus.
    change (inject_Z 1) with 1. change (inject_Z 50) with 50.
    change (inject_Z 70) with 70. lra. }
  assert (HinL : forall n, In n (entries L) ->
                           In n (entries (PlacedNode v x y L R))).
  { intros n Hn. cbn [entries]. right. apply in_or_app. now left. }
  assert (HinR : forall n, In n (entries R) ->
                           In n (entries (PlacedNode v x y L R))).
  { intros n Hn. cbn [entries]. right. apply in_or_app. now right. }
  assert (Hroot : In root (entries (PlacedNode v x y L R))) by now left.
  cbn [collectEdges].
  assert (Hleft : forall e',
             In e' (match L with
                    | placed_null => []
                    | PlacedNode _ lx ly _ _ =>
                        collectEdges L
                          ([] ++ [{| EdgeData.from := (x, y);
                                     EdgeData.to := (lx, ly) |}])
                    end) ->
             exists parent child,
               In parent (entries (PlacedNode v x y L R)) /\
               In child (entries (PlacedNode v x y L R)) /\
               EdgeData.from e' = at_node parent /\
               EdgeData.to e' = at_node child /\
               VisNode.y child == VisNode.y parent + 70 /\
               (VisNode.left parent = Some (VisNode.value child) /\
                rel (VisNode.x child) (VisNode.x parent) \/
                VisNode.right parent = Some (VisNode.value child) /\
                rel (VisNode.x parent) (VisNode.x child))).
  { intros e' He'. destruct L as [|lv lx ly ll lr] eqn:EL; [destruct He'|].
    rewrite collectEdges_app in He'. apply in_app_or in He'.
    destruct He' as [[<-|[]]|He'].
    - set (c := {| VisNode.value := lv; VisNode.x := lx; VisNode.y := ly;
                   VisNode.left := placed_value ll;
                   VisNode.right := placed_value lr |}).
      assert (Hc : In c (entries (assignPositions_fields l (level + 1) lo x)))
        by (fold L; rewrite EL; now left).
      exists root, c. split; [exact Hroot|]. split.
      { apply HinL. now left. }
      split; [reflexivity|]. split; [reflexivity|]. split.
      { cbn [VisNode.y]. now apply (Hy l lo x lv lx ly ll lr). }
      left. split; [reflexivity|].
      now apply (entries_within l (level + 1) lo x c Hokl).
    - fold L in IHl. rewrite <- EL in He'.
      destruct (IHl (level + 1)%Z lo x e' Hokl He')
        as (pa & ch & Hp & Hc & Hrest).
      fold L in Hp, Hc. rewrite EL in Hp, Hc.
      exists pa, ch. split; [now apply HinL|]. split; [now apply HinL|].
      exact Hrest. }
  intros He.
  destruct R as [|rv rx ry rl rr] eqn:ER.
  - apply Hleft. destruct L; [destruct He | exact He].
  - rewrite collectEdges_app in He. apply in_app_or in He.
    destruct He as [He|He].
    + apply in_app_or in He. destruct He as [He|[<-|[]]].
      * apply Hleft. destruct L; [destruct He | exact He].
      * set (c := {| VisNode.value := rv; VisNode.x := rx; VisNode.y := ry;
                     VisNode.left := placed_value rl;
                     VisNode.right := placed_value rr |}).
        assert (Hc : In c (entries (assignPositions_fields r (level + 1) x hi)))
          by (fold R; rewrite ER; now left).
        exists root, c. split; [exact Hroot|]. split.
        { apply HinR. now left. }
        split; [reflexivity|]. split; [reflexivity|]. split.
        { cbn [VisNode.y]. now apply (Hy r x hi rv rx ry rl rr). }
        right. split; [reflexivity|].
        now apply (entries_within r (level + 1) x hi c Hokr).
    + fold R in IHr. rewrite <- ER in He.
      destruct (IHr (level + 1)%Z x hi e Hokr He)
        as (pa & ch & Hp & Hc & Hrest).
      fold R in Hp, Hc. rewrite ER in Hp, Hc.
      exists pa, ch. split; [now apply HinR|]. split; [now apply HinR|].
      exact Hrest.
Qed.

End Intervals.

(** *** The two conditions *)

Lemma on_canvas_step (v : Z) (l r : tree) (level : Z) (lo hi : Q) :
  on_canvas (BSTNode v l r) level lo hi ->
  lo <= binary64 (Qdiv (binary64 (Qplus lo hi)) (inject_Z 2)) /\
  binary64 (Qdiv (binary64 (Qplus lo hi)) (inject_Z 2)) <= hi /\
  on_canvas l (level + 1)%Z lo
    (binary64 (Qdiv (binary64 (Qplus lo hi)) (inject_Z 2))) /\
  on_canvas r (level + 1)%Z
    (binary64 (Qdiv (binary64 (Qplus lo hi)) (inject_Z 2))) hi.
Proof.
  intros (Rlo & Rhi & H0 & Hle).
  destruct (midpoint_between lo hi Rlo Rhi H0 Hle) as (H1 & H2 & Rx).
  split; [exact H1|]. split; [exact H2|]. split.
  - split; [exact Rlo|]. split; [exact Rx|]. split; [exact H0 | exact H1].
  - split; [exact Rx|]. split; [exact Rhi|]. split; [|exact H2].
    eapply Qle_trans; [exact H0 | exact H1].
Qed.

Lemma on_canvas_root (t : tree) :
  on_canvas t 0%Z (inject_Z 0) (inject_Z 800).
Proof.
  split; [apply representable_Z; discriminate|].
  split; [apply representable_Z; discriminate|].
  split; discriminate.
Qed.

Lemma exact_part_step (v : Z) (l r : tree) (level : Z) (lo hi : Q) :
  exact_part (BSTNode v l r) level lo hi ->
  lo < binary64 (Qdiv (binary64 (Qplus lo hi)) (inject_Z 2)) /\
  binary64 (Qdiv (binary64 (Qplus lo hi)) (inject_Z 2)) < hi /\
  exact_part l (level + 1)%Z lo
    (binary64 (Qdiv (binary64 (Qplus lo hi)) (inject_Z 2))) /\
  exact_part r (level + 1)%Z
    (binary64 (Qdiv (binary64 (Qplus lo hi)) (inject_Z 2))) hi.
Proof.
  intros (HL0 & Hh & j & Hj0 & Hj1 & Elo & Ehi).
  cbn [calculateHeight] in Hh.
  pose proof (calculateHeight_ge l) as Hhl.
  pose proof (calculateHeight_ge r) as Hhr.
  assert (Ex := midpoint_exact level j lo hi ltac:(lia) Hj0 Hj1 Elo Ehi).
  set (x := binary64 (Qdiv (binary64 (Qplus lo hi)) (inject_Z 2))) in *.
  pose proof (pow2_pos (- (level + 1))) as Hw.
  assert (Hhalf : 2 ^ (- level) == 2 * 2 ^ (- (level + 1))).
  { replace (- level)%Z with (1 + - (level + 1))%Z by lia.
    now rewrite pow2_plus. }
  assert (Elo' : lo == inject_Z (2 * j) * (800 * 2 ^ (- (level + 1)))).
  { rewrite Elo, Hhalf, inject_Z_mult. change (inject_Z 2) with 2. lra. }
  assert (Ehi' : hi == inject_Z (2 * j + 1 + 1) * (800 * 2 ^ (- (level + 1)))).
  { rewrite Ehi, Hhalf, !inject_Z_plus, inject_Z_mult.
    change (inject_Z 2) with 2. change (inject_Z 1) with 1. lra. }
  assert (Hpow : (2 ^ (level + 1) = 2 * 2 ^ level)%Z)
    by (rewrite Z.pow_add_r by lia; lia).
  split; [|split; [|split]].
  - rewrite Elo', Ex, inject_Z_plus. change (inject_Z 1) with 1. nra.
  - rewrite Ehi', Ex, (inject_Z_plus (2 * j + 1)).
    change (inject_Z 1) with 1. nra.
  - split; [lia|]. split; [lia|]. exists (2 * j)%Z.
    split; [lia|]. split; [lia|].
    split; [exact Elo' | exact Ex].
  - split; [lia|]. split; [lia|]. exists (2 * j + 1)%Z.
    split; [lia|]. split; [lia|].
    split; [exact Ex | exact Ehi'].
Qed.

Lemma exact_part_root (t : tree) :
  (calculateHeight t <= 47)%Z ->
  exact_part t 0%Z (inject_Z 0) (inject_Z 800).
Proof.
  intros H. split; [lia|]. split; [lia|]. exists 0%Z.
  split; [lia|]. split; [discriminate|]. split; reflexivity.
Qed.

End Layout.

(* ================================================================= *)
(** ** The layout: properties *)

Lemma getPos_Some (nodes : list VisNode.t) (v : Z) (pos : Point.t) :
  getPos nodes v = Some pos ->
  exists n, In n nodes /\ VisNode.value n = v /\
            Point.x pos = VisNode.x n /\ Point.y pos = VisNode.y n.
Proof.
  unfold getPos. destruct (find _ nodes) as [n|] eqn:Hf; [|discriminate].
  intros [= <-]. apply find_some in Hf. destruct Hf as [Hin Hv].
  apply Z.eqb_eq in Hv. now exists n.
Qed.

Lemma getNodes_length (t : tree) :
  Z.of_nat (List.length (getNodesForVisualization t)) = size t.
Proof.
  rewrite getNodes_entries, <- (length_map VisNode.value), entries_values.
  unfold size. now rewrite (Permutation_length (visit_order_perm Preorder t)).
Qed.

(** X13.  [getNodesForVisualization] returns one entry per node, the node
    before its subtrees and the left subtree before the right one: the
    values of the entries are the values [preorder] returns, and the array
    is empty exactly for the empty tree. *)
Theorem nodes_listed_in_preorder (t : tree) :
  map VisNode.value (getNodesForVisualization t)
  = Traversal.values (preorder t) /\
  Z.of_nat (List.length (getNodesForVisualization t)) = size t /\
  (getNodesForVisualization t = [] <-> t = null).
Proof.
  assert (Hv : map VisNode.value (getNodesForVisualization t)
               = visit_order Preorder t)
    by (rewrite getNodes_entries; apply entries_values).
  split; [|split].
  - rewrite Hv. unfold preorder. cbn [Traversal.values].
    now rewrite preorder_traverse_order.
  - apply getNodes_length.
  - split; [|now intros ->].
    intros He. rewrite He in Hv. destruct t; [reflexivity | discriminate].
Qed.

(** X14.  Every entry of [getNodesForVisualization] is the entry of a node
    of the tree: its [y] is 50 plus 70 times the depth of the node, its
    [left] and [right] are the values of the node's children, null for a
    missing child, and its [x], a rounded midpoint, lies on the canvas,
    from 0 to 800 with the ends included; in a tree of height at most 47,
    where no midpoint is rounded, it lies strictly inside. *)
Theorem entries_describe_nodes (t : tree) (n : VisNode.t) :
  In n (getNodesForVisualization t) ->
  exists C l r,
    t = plug C (BSTNode (VisNode.value n) l r) /\
    VisNode.y n = inject_Z (50 + 70 * Z.of_nat (List.length C)) /\
    VisNode.left n = child_value l /\ VisNode.right n = child_value r /\
    (0 <= VisNode.x n)%Q /\ (VisNode.x n <= 800)%Q /\
    (calculateHeight t <= 47 ->
     (0 < VisNode.x n)%Q /\ (VisNode.x n < 800)%Q).
Proof.
  rewrite getNodes_entries. intros Hin.
  destruct (entries_sound _ _ _ _ _ Hin) as (C & l & r & Ht & Hy & Hl & Hr).
  exists C, l, r. repeat (split; [assumption|]).
  destruct (entries_within Qle on_canvas Qle_trans on_canvas_step
              t 0 (inject_Z 0) (inject_Z 800) n (on_canvas_root t) Hin)
    as [H0 H800].
  split; [exact H0|]. split; [exact H800|]. intros Hh.
  apply (entries_within Qlt exact_part Qlt_trans exact_part_step
           t 0 (inject_Z 0) (inject_Z 800) n (exact_part_root t Hh) Hin).
Qed.

Lemma entries_describe_nodes_witness :
  In {| VisNode.value := 7; VisNode.x := inject_Z 300;
        VisNode.y := inject_Z 190;
        VisNode.left := None; VisNode.right := None |}
     (getNodesForVisualization example_tree) /\
  exists C l r,
    example_tree = plug C (BSTNode 7 l r) /\
    inject_Z 190 = inject_Z (50 + 70 * Z.of_nat (List.length C)) /\
    None = child_value l /\ None = child_value r /\
    (0 <= inject_Z 300)%Q /\ (inject_Z 300 <= 800)%Q /\
    (calculateHeight example_tree <= 47 ->
     (0 < inject_Z 300)%Q /\ (inject_Z 300 < 800)%Q).
Proof.
  assert (Hin : In {| VisNode.value := 7; VisNode.x := inject_Z 300;
                      VisNode.y := inject_Z 190;
                      VisNode.left := None; VisNode.right := None |}
                   (getNodesForVisualization example_tree))
    by (vm_compute; tauto).
  split; [exact Hin|].
  exact (entries_describe_nodes example_tree _ Hin).
Defined.

(** X15.  The coordinate lookup over [getNodesForVisualization] fails
    exactly for the values that are not in the tree; and in a tree that
    satisfies the invariant it finds, for the value of a node, the
    coordinates of that node: [y] = 50 + 70 * depth and [x] on the canvas,
    from 0 to 800, strictly inside when the height is at most 47. *)
Theorem lookup_finds_tree_values (t : tree) (v : Z) :
  (getPos (getNodesForVisualization t) v = None <-> ~ In_tree v t) /\
  (BST t ->
   forall C l r,
     t = plug C (BSTNode v l r) ->
     exists pos,
       getPos (getNodesForVisualization t) v = Some pos /\
       Point.y pos = inject_Z (50 + 70 * Z.of_nat (List.length C)) /\
       (0 <= Point.x pos)%Q /\ (Point.x pos <= 800)%Q /\
       (calculateHeight t <= 47 ->
        (0 < Point.x pos)%Q /\ (Point.x pos < 800)%Q)).
Proof.
  split; [apply getPos_None_iff|].
  intros B C l r Ht. rewrite getNodes_entries. subst t.
  destruct (find_entry C v l r 0 (inject_Z 0) (inject_Z 800) B)
    as (n & Hf & Hv & Hy & _).
  unfold getPos. rewrite Hf. eexists. split; [reflexivity|].
  cbn [Point.x Point.y]. split; [now rewrite Hy, Z.add_0_l|].
  apply find_some in Hf. destruct Hf as [Hin _].
  destruct (entries_within Qle on_canvas Qle_trans on_canvas_step
              (plug C (BSTNode v l r)) 0 (inject_Z 0) (inject_Z 800) n
              (on_canvas_root _) Hin) as [H0 H800].
  split; [exact H0|]. split; [exact H800|]. intros Hh.
  apply (entries_within Qlt exact_part Qlt_trans exact_part_step
           (plug C (BSTNode v l r)) 0 (inject_Z 0) (inject_Z 800) n
           (exact_part_root _ Hh) Hin).
Qed.

Lemma lookup_finds_tree_values_witness :
  BST example_tree /\
  example_tree
  = plug [(15, GoRight,
           BSTNode 6 (BSTNode 4 null null) (BSTNode 7 null null));
          (23, GoLeft, BSTNode 50 null null)] (BSTNode 20 null null) /\
  exists pos,
    getPos (getNodesForVisualization example_tree) 20 = Some pos /\
    Point.y pos = inject_Z (50 + 70 * Z.of_nat 2) /\
    (0 <= Point.x pos)%Q /\ (Point.x pos <= 800)%Q /\
    (calculateHeight example_tree <= 47 ->
     (0 < Point.x pos)%Q /\ (Point.x pos < 800)%Q).
Proof.
  split; [exact example_tree_BST|]. split; [reflexivity|].
  apply (proj2 (lookup_finds_tree_values example_tree 20) example_tree_BST
           [(15, GoRight,
             BSTNode 6 (BSTNode 4 null null) (BSTNode 7 null null));
            (23, GoLeft, BSTNode 50 null null)] null null).
  reflexivity.
Defined.

(** X16.  In a tree that satisfies the invariant the layout keeps the
    order of the values: of two values of the tree the smaller is placed
    to the left of the larger or at the same [x], and strictly to the left
    when the height of the tree is at most 47.  Further down the rounded
    midpoints do meet: after inserting 1, 2, ..., 55 in this order, the
    values 54 and 55 are both placed at [x] = 800. *)
Theorem layout_keeps_order :
  (forall (t : tree) (u v : Z) (pu pv : Point.t),
      BST t ->
      getPos (getNodesForVisualization t) u = Some pu ->
      getPos (getNodesForVisualization t) v = Some pv ->
      u < v ->
      (Point.x pu <= Point.x pv)%Q /\
      (calculateHeight t <= 47 -> (Point.x pu < Point.x pv)%Q)) /\
  getPos (getNodesForVisualization (insert_all (ascending 55) null)) 54
  = Some {| Point.x := inject_Z 800; Point.y := inject_Z (50 + 70 * 53) |} /\
  getPos (getNodesForVisualization (insert_all (ascending 55) null)) 55
  = Some {| Point.x := inject_Z 800; Point.y := inject_Z (50 + 70 * 54) |}.
Proof.
  split; [|split; vm_compute; reflexivity].
  intros t u v pu pv B Hu Hv Hlt.
  apply getPos_Some in Hu. destruct Hu as (nu & Hinu & Hvu & Hxu & _).
  apply getPos_Some in Hv. destruct Hv as (nv & Hinv & Hvv & Hxv & _).
  rewrite Hxu, Hxv. rewrite getNodes_entries in Hinu, Hinv.
  assert (Hval : VisNode.value nu < VisNode.value nv) by lia.
  split.
  - apply (entries_ordered Qle on_canvas Qle_trans on_canvas_step
             t 0 (inject_Z 0) (inject_Z 800) nu nv B (on_canvas_root t)
             Hinu Hinv Hval).
  - intros Hh.
    apply (entries_ordered Qlt exact_part Qlt_trans exact_part_step
             t 0 (inject_Z 0) (inject_Z 800) nu nv B (exact_part_root t Hh)
             Hinu Hinv Hval).
Qed.

Lemma layout_keeps_order_witness :
  BST example_tree /\
  getPos (getNodesForVisualization example_tree) 7
  = Some {| Point.x := inject_Z 300; Point.y := inject_Z 190 |} /\
  getPos (getNodesForVisualization example_tree) 20
  = Some {| Point.x := inject_Z 500; Point.y := inject_Z 190 |} /\
  7 < 20 /\
  (inject_Z 300 <= inject_Z 500)%Q /\
  (calculateHeight example_tree <= 47 -> (inject_Z 300 < inject_Z 500)%Q).
Proof.
  split; [exact example_tree_BST|]. split; [reflexivity|].
  split; [reflexivity|]. split; [lia|].
  apply (proj1 layout_keeps_order example_tree 7 20
           {| Point.x := inject_Z 300; Point.y := inject_Z 190 |}
           {| Point.x := inject_Z 500; Point.y := inject_Z 190 |}
           example_tree_BST).
  - reflexivity.
  - reflexivity.
  - lia.
Defined.

(** X17.  [getEdgesForVisualization] returns one edge per node other than
    the root, none for the empty tree; each edge leads from the coordinates
    of a node of [getNodesForVisualization] to the coordinates of one of
    its children, 70 further down, the left child at the [x] of the parent
    or to its left and the right child at the [x] of the parent or to its
    right; strictly so in a tree of height at most 47. *)
Theorem edges_join_parent_and_child (t : tree) :
  Z.of_nat (List.length (getEdgesForVisualization t)) = Z.max 0 (size t - 1) /\
  (forall e, In e (getEdgesForVisualization t) ->
             joins Qle (getNodesForVisualization t) e) /\
  (calculateHeight t <= 47 ->
   forall e, In e (getEdgesForVisualization t) ->
             joins Qlt (getNodesForVisualization t) e).
Proof.
  split; [|split].
  - pose proof (getNodes_length t) as Hn. unfold getEdgesForVisualization.
    destruct t as [|v l r]; [reflexivity|].
    rewrite collectEdges_length, <- getNodes_entries. lia.
  - intros e He. rewrite getNodes_entries.
    destruct t as [|v l r]; [destruct He|].
    apply (collectEdges_sound Qle on_canvas Qle_trans on_canvas_step
             (BSTNode v l r) 0 (inject_Z 0) (inject_Z 800) e
             (on_canvas_root _) He).
  - intros Hh e He. rewrite getNodes_entries.
    destruct t as [|v l r]; [destruct He|].
    apply (collectEdges_sound Qlt exact_part Qlt_trans exact_part_step
             (BSTNode v l r) 0 (inject_Z 0) (inject_Z 800) e
             (exact_part_root _ Hh) He).
Qed.

Lemma edges_join_parent_and_child_witness :
  calculateHeight example_tree <= 47 /\
  In {| EdgeData.from := (inject_Z 400, inject_Z 50);
        EdgeData.to := (inject_Z 600, inject_Z 120) |}
     (getEdgesForVisualization example_tree) /\
  joins Qlt (getNodesForVisualization example_tree)
    {| EdgeData.from := (inject_Z 400, inject_Z 50);
       EdgeData.to := (inject_Z 600, inject_Z 120) |}.
Proof.
  assert (Hh : calculateHeight example_tree <= 47) by (vm_compute; discriminate).
  assert (Hin : In {| EdgeData.from := (inject_Z 400, inject_Z 50);
                      EdgeData.to := (inject_Z 600, inject_Z 120) |}
                   (getEdgesForVisualization example_tree))
    by (vm_compute; tauto).
  split; [exact Hh|]. split; [exact Hin|].
  exact (proj2 (proj2 (edges_join_parent_and_child example_tree)) Hh _ Hin).
Defined.

(* ================================================================= *)
(** ** The handlers *)

Section Handlers.

Variable currentNodes : list VisNode.t.

(** A value without a coordinate appears in no frame of the path loop. *)
Lemma fromPath_hides (v : Z) (path : list Z) (visited : list Z)
    (edges : list AnimatedEdge) :
  getPos currentNodes v = None ->
  ~ In v visited ->
  Forall (fun e => EdgeEnd.value (from e) <> v /\ EdgeEnd.value (to e) <> v)
    edges ->
  let '(fs, vis, es) := fromPath (getPos currentNodes) visited edges path in
  Forall (hides v) fs /\ ~ In v vis /\
  Forall (fun e => EdgeEnd.value (from e) <> v /\ EdgeEnd.value (to e) <> v) es.
Proof.
  intros Hv. revert visited edges.
  induction path as [|w rest IH]; intros visited edges Hvis Hedges;
    cbn [fromPath].
  - repeat split; [constructor | assumption | assumption].
  - destruct (getPos currentNodes w) as [pos|] eqn:Hw; [|now apply IH].
    assert (Hne : w <> v) by congruence.
    assert (Hvis' : ~ In v (visited ++ [w])).
    { rewrite in_app_iff. simpl. intuition. }
    assert (Ha : forall es,
               Forall (fun e => EdgeEnd.value (from e) <> v /\
                                EdgeEnd.value (to e) <> v) es ->
               hides v (arrival_frame w pos (visited ++ [w]) es)).
    { intros es Hes. repeat split; cbn; [congruence | exact Hvis' | exact Hes]. }
    destruct rest as [|u rest'].
    + cbn [fromPath]. repeat split; [|assumption|assumption].
      constructor; [now apply Ha | constructor].
    + destruct (getPos currentNodes u) as [q|] eqn:Hu.
      * assert (Hu' : u <> v) by congruence.
        assert (Hedges' :
                  Forall (fun e => EdgeEnd.value (from e) <> v /\
                                   EdgeEnd.value (to e) <> v)
                    (edges ++ [edge_between pos w q u])).
        { apply Forall_app. split; [exact Hedges|].
          constructor; [now split | constructor]. }
        specialize (IH (visited ++ [w]) _ Hvis' Hedges').
        destruct (fromPath (getPos currentNodes) _ _ (u :: rest'))
          as [[fs vis] es].
        destruct IH as (Hfs & Hrest). split; [|exact Hrest].
        constructor; [now apply Ha|]. constructor; [now apply Ha | exact Hfs].
      * specialize (IH (visited ++ [w]) edges Hvis' Hedges).
        destruct (fromPath (getPos currentNodes) _ _ (u :: rest'))
          as [[fs vis] es].
        destruct IH as (Hfs & Hrest). split; [|exact Hrest].
        constructor; [now apply Ha | exact Hfs].
Qed.

Lemma generatePathFrames_hides (v : Z) (path : list Z)
    (finalHighlight : option Z) :
  getPos currentNodes v = None ->
  Forall (hides v) (generatePathFrames currentNodes path finalHighlight).
Proof.
  intros Hv. unfold generatePathFrames.
  pose proof (path_loop_fromPath currentNodes path [] PathLoop.initial) as H.
  pose proof (fromPath_hides v path [] [] Hv (fun F => F) (Forall_nil _))
    as Hfs.
  cbn [app List.length PathLoop.initial PathLoop.currentVisited
         PathLoop.currentAnimatedEdges PathLoop.frames] in H.
  cbv zeta in H.
  destruct (fromPath (getPos currentNodes) [] [] path) as [[fs vis] es].
  destruct H as (Hf & Hvis & Hes). destruct Hfs as (Hfs & Hnv & Hne).
  rewrite Hf, Hvis, Hes.
  assert (Hloop : Forall (hides v) ([blank_frame] ++ fs)).
  { constructor; [|exact Hfs]. repeat split; cbn; [discriminate|tauto|constructor]. }
  destruct finalHighlight as [target|]; [|exact Hloop].
  destruct (getPos currentNodes target) as [pos|] eqn:Ht; [|exact Hloop].
  apply Forall_app. split; [exact Hloop|].
  constructor; [|constructor].
  repeat split; cbn; [congruence | exact Hnv | exact Hne].
Qed.

(** Where every value of the path has a coordinate, the loop pushes two
    frames per value but the last, which gets one; it ends on the last
    value with the whole path visited. *)
Lemma fromPath_located (path : list Z) (visited : list Z)
    (edges : list AnimatedEdge) :
  Forall (fun w => getPos currentNodes w <> None) path ->
  path <> [] ->
  let '(fs, vis, es) := fromPath (getPos currentNodes) visited edges path in
  vis = visited ++ path /\
  List.length fs = (2 * List.length path - 1)%nat /\
  List.length es = (List.length edges + List.length path - 1)%nat /\
  exists pos,
    getPos currentNodes (last path 0) = Some pos /\
    last fs blank_frame = arrival_frame (last path 0) pos vis es.
Proof.
  revert visited edges. induction path as [|w rest IH];
    intros visited edges Hall Hne; [congruence|].
  inversion Hall as [|? ? Hw Hrest]; subst. cbn [fromPath].
  destruct (getPos currentNodes w) as [pos|] eqn:Ew; [|congruence].
  destruct rest as [|u rest'].
  - cbn [fromPath]. repeat split.
    + cbn [List.length]. lia.
    + exists pos. cbn [last]. now split.
  - inversion Hrest as [|? ? Hu _]; subst.
    destruct (getPos currentNodes u) as [q|] eqn:Eu; [|congruence].
    specialize (IH (visited ++ [w])
                  (edges ++ [edge_between pos w q u])
                  Hrest ltac:(discriminate)).
    destruct (fromPath (getPos currentNodes) _ _ (u :: rest'))
      as [[fs vis] es].
    destruct IH as (Hv & Hlen & Hes & p & Hp & Hlast).
    split; [now rewrite Hv, <- app_assoc|].
    split; [cbn [List.length] in *; lia|].
    split; [rewrite Hes, length_app; cbn [List.length]; lia|].
    exists p. split; [exact Hp|].
    destruct fs as [|f fs']; [cbn [List.length] in Hlen; lia|].
    exact Hlast.
Qed.

(** An event with a coordinate and one of the three actions pushes exactly
    one frame. *)
Lemma traversal_iteration_one_frame (s : TraversalLoop.state) (v : Z)
    (a : string) :
  getPos currentNodes v <> None ->
  a = "enter"%string \/ a = "visit"%string \/ a = "exit"%string ->
  List.length
    (TraversalLoop.frames
       (traversal_iteration currentNodes s {| Step.value := v; Step.action := a |}))
  = S (List.length (TraversalLoop.frames s)).
Proof.
  intros Hpos Ha. unfold traversal_iteration. cbn [Step.value Step.action].
  destruct (getPos currentNodes v) as [pos|]; [|congruence].
  destruct Ha as [-> | [-> | ->]]; cbn.
  - rewrite length_app. cbn. lia.
  - rewrite length_app. cbn. lia.
  - destruct (array_get _ _) as [parent|];
      [destruct (parent =? 0)|]; cbn; rewrite length_app; cbn; lia.
Qed.

Lemma traversal_state_length (steps : list Step.t) :
  Forall (fun st =>
            getPos currentNodes (Step.value st) <> None /\
            (Step.action st = "enter"%string \/ Step.action st = "visit"%string
             \/ Step.action st = "exit"%string)) steps ->
  List.length (TraversalLoop.frames (traversal_state currentNodes steps))
  = S (List.length steps).
Proof.
  induction steps as [|st steps IH] using rev_ind; [reflexivity|].
  intros Hall. apply Forall_app in Hall. destruct Hall as [Hsteps Hst].
  inversion Hst as [|? ? [Hpos Ha] _]; subst.
  rewrite traversal_state_snoc. destruct st as [v a].
  rewrite traversal_iteration_one_frame by assumption.
  rewrite (IH Hsteps), length_app. cbn. lia.
Qed.

End Handlers.

Lemma event_log_actions (k : order) (t : tree) :
  Forall (fun st =>
            In_tree (Step.value st) t /\
            (Step.action st = "enter"%string \/ Step.action st = "visit"%string
             \/ Step.action st = "exit"%string)) (event_log k t).
Proof.
  induction t as [|v l IHl r IHr]; [destruct k; constructor|].
  assert (Hl : Forall (fun st =>
                         In_tree (Step.value st) (BSTNode v l r) /\
                         (Step.action st = "enter"%string
                          \/ Step.action st = "visit"%string
                          \/ Step.action st = "exit"%string))
                 (event_log k l)).
  { eapply Forall_impl; [|exact IHl]. cbn. intuition. }
  assert (Hr : Forall (fun st =>
                         In_tree (Step.value st) (BSTNode v l r) /\
                         (Step.action st = "enter"%string
                          \/ Step.action st = "visit"%string
                          \/ Step.action st = "exit"%string))
                 (event_log k r)).
  { eapply Forall_impl; [|exact IHr]. cbn. intuition. }
  destruct k; cbn [event_log];
    repeat (apply Forall_app; split);
    try assumption;
    (constructor; [split; [now left | cbn; tauto] | constructor]).
Qed.

Lemma event_log_length (k : order) (t : tree) :
  Z.of_nat (List.length (event_log k t)) = 3 * size t.
Proof.
  induction t as [|v l IHl r IHr]; [now destruct k|].
  rewrite size_node.
  destruct k; cbn [event_log]; rewrite !length_app; cbn [List.length]; lia.
Qed.

Lemma insert_loop_path (v : Z) (t : tree) :
  Forall (fun w => In_tree w (snd (insert_loop v t)))
    (snd (fst (insert_loop v t))) /\
  last (snd (fst (insert_loop v t))) 0 = v /\
  snd (fst (insert_loop v t)) <> [].
Proof.
  induction t as [|cv l IHl r IHr]; cbn [insert_loop].
  - cbn. repeat split; [|discriminate]. repeat constructor.
  - destruct (Z.eqb_spec v cv) as [->|Hne].
    + cbn. repeat split; [|discriminate]. repeat constructor.
    + destruct (v <? cv).
      * destruct (insert_loop v l) as [[ok p] l'].
        cbn [fst snd] in *. destruct IHl as (Hall & Hlast & Hnn).
        split; [|split; [|discriminate]].
        -- constructor; [now left|].
           eapply Forall_impl; [|exact Hall]. cbn. tauto.
        -- destruct p; [congruence | exact Hlast].
      * destruct (insert_loop v r) as [[ok p] r'].
        cbn [fst snd] in *. destruct IHr as (Hall & Hlast & Hnn).
        split; [|split; [|discriminate]].
        -- constructor; [now left|].
           eapply Forall_impl; [|exact Hall]. cbn. tauto.
        -- destruct p; [congruence | exact Hlast].
Qed.

Lemma search_loop_path (v : Z) (t : tree) :
  Forall (fun w => In_tree w t) (snd (search_loop v t)) /\
  (fst (search_loop v t) = true ->
   last (snd (search_loop v t)) 0 = v /\ snd (search_loop v t) <> []).
Proof.
  induction t as [|cv l IHl r IHr]; cbn [search_loop].
  - split; [constructor | discriminate].
  - destruct (Z.eqb_spec v cv) as [->|Hne].
    + cbn. split; [repeat constructor|]. intros _. split; [reflexivity|discriminate].
    + destruct (v <? cv).
      * destruct (search_loop v l) as [fnd p]. cbn [fst snd] in *.
        destruct IHl as (Hall & Hf). split.
        -- constructor; [now left|].
           eapply Forall_impl; [|exact Hall]. cbn. tauto.
        -- intros H. destruct (Hf H) as [Hlast Hnn].
           split; [|discriminate]. destruct p; [congruence | exact Hlast].
      * destruct (search_loop v r) as [fnd p]. cbn [fst snd] in *.
        destruct IHr as (Hall & Hf). split.
        -- constructor; [now left|].
           eapply Forall_impl; [|exact Hall]. cbn. tauto.
        -- intros H. destruct (Hf H) as [Hlast Hnn].
           split; [|discriminate]. destruct p; [congruence | exact Hlast].
Qed.

Lemma generatePathFrames_frames (currentNodes : list VisNode.t)
    (path : list Z) (finalHighlight : option Z) :
  generatePathFrames currentNodes path finalHighlight
  = let '(fs, visited, edges) :=
      fromPath (getPos currentNodes) [] [] path in
    blank_frame :: fs
      ++ final_frames (getPos currentNodes) finalHighlight visited edges.
Proof.
  unfold generatePathFrames, final_frames.
  pose proof (path_loop_fromPath currentNodes path [] PathLoop.initial) as H.
  cbn [app List.length PathLoop.initial PathLoop.currentVisited
         PathLoop.currentAnimatedEdges PathLoop.frames] in H.
  cbv zeta in H.
  destruct (fromPath (getPos currentNodes) [] [] path) as [[fs vis] es].
  destruct H as (Hf & Hv & He). rewrite Hf, Hv, He.
  destruct finalHighlight as [target|]; [|now rewrite app_nil_r].
  destruct (getPos currentNodes target) as [pos|]; [reflexivity|].
  now rewrite app_nil_r.
Qed.

Lemma insert_path (v : Z) (t : tree) :
  Op.path (fst (insert v t)) = snd (fst (insert_loop v t)).
Proof.
  destruct t as [|cv l r]; [reflexivity|]. unfold insert.
  now destruct (insert_loop v (BSTNode cv l r)) as [[ok p] t'].
Qed.

Lemma visited_of_located (currentNodes : list VisNode.t)
    (steps : list Step.t) :
  Forall (fun st => getPos currentNodes (Step.value st) <> None) steps ->
  visited_of currentNodes steps = values_of "visit" steps.
Proof.
  unfold visited_of, values_of. induction 1 as [|st steps Hst _ IH];
    [reflexivity|].
  cbn [filter]. destruct (getPos currentNodes (Step.value st)); [|congruence].
  rewrite andb_true_r. destruct (String.eqb (Step.action st) "visit");
    cbn [map]; now rewrite IH.
Qed.

(* ================================================================= *)
(** ** The handlers: properties *)

(** X18.  The remove handler animates against the tree as it is after the
    removal, so in a tree that satisfies the invariant the value removed
    has no coordinate any more: no frame of the animation highlights it,
    lists it as visited or connects an edge to it. *)
Theorem remove_animation_hides_removed (t : tree) (v : Z) :
  BST t -> Forall (hides v) (animated (fst (handleRemove v t))).
Proof.
  intros B. unfold handleRemove.
  pose proof (remove_In v t v B) as Hin.
  destruct (remove v t) as [result t']. cbn [fst snd animated] in *.
  apply generatePathFrames_hides. apply getPos_None_iff. tauto.
Qed.

Lemma remove_animation_hides_removed_witness :
  Forall (hides 15) (animated (fst (handleRemove 15 example_tree))).
Proof.
  apply (remove_animation_hides_removed example_tree 15 example_tree_BST).
Defined.

(** X19.  The insert handler animates against the tree as it is after the
    insertion, where every value of the path has a coordinate: whether the
    value was inserted or was a duplicate, the animation has two frames per
    value of the path and its last frame has pointer and highlight on the
    value, at its coordinate, with the whole path visited. *)
Theorem insert_animation_ends_on_value (t : tree) (v : Z) :
  exists frames pos,
    fst (handleInsert v t) = Some frames /\
    List.length frames
    = (2 * List.length (Op.path (fst (insert v t))))%nat /\
    getPos (getNodesForVisualization (snd (insert v t))) v = Some pos /\
    highlightedNode (last frames blank_frame) = Some v /\
    pointerPosition (last frames blank_frame) = Some pos /\
    visitedNodes (last frames blank_frame) = Op.path (fst (insert v t)).
Proof.
  unfold handleInsert.
  pose proof (insert_path v t) as Hpath.
  pose proof (insert_tree v t) as Htree.
  destruct (insert_loop_path v t) as (Hall & Hlast & Hnn).
  destruct (insert v t) as [result t']. cbn [fst snd] in *.
  rewrite <- Hpath, <- Htree in *.
  set (nodes := getNodesForVisualization t').
  assert (Hloc : Forall (fun w => getPos nodes w <> None) (Op.path result)).
  { eapply Forall_impl; [|exact Hall]. intros w Hw Hnone.
    apply getPos_None_iff in Hnone. tauto. }
  pose proof (fromPath_located nodes (Op.path result) [] [] Hloc Hnn) as H.
  rewrite generatePathFrames_frames. cbn [final_frames].
  destruct (fromPath (getPos nodes) [] [] (Op.path result)) as [[fs vis] es].
  destruct H as (Hv & Hlen & _ & pos & Hpos & Hl).
  rewrite Hlast in Hpos, Hl. cbn [app] in Hv. subst vis.
  assert (Hone : (1 <= List.length (Op.path result))%nat)
    by (destruct (Op.path result); [congruence | cbn [List.length]; lia]).
  exists (blank_frame :: fs ++ []), pos. rewrite app_nil_r.
  split; [reflexivity|]. split; [cbn [List.length]; lia|].
  split; [exact Hpos|].
  assert (Hfs : fs <> []).
  { intros ->. cbn [List.length] in Hlen. lia. }
  assert (Hlast' : last (blank_frame :: fs) blank_frame = last fs blank_frame)
    by (destruct fs; [congruence | reflexivity]).
  rewrite Hlast', Hl. now repeat split.
Qed.

(** X20.  The search handler: when the value is found, the animation has
    two frames per value of the path and one more, and its last frame has
    pointer and highlight on the value with the whole path visited; when
    it is not found, there are two frames per value of the path (the blank
    frame alone on the empty tree) and the last frame lists the whole path
    as visited. *)
Theorem search_animation (t : tree) (v : Z) :
  exists frames,
    fst (handleSearch v t) = Some frames /\
    visitedNodes (last frames blank_frame) = Search.path (fst (search v t)) /\
    (Search.found (fst (search v t)) = true ->
     List.length frames
     = (2 * List.length (Search.path (fst (search v t))) + 1)%nat /\
     highlightedNode (last frames blank_frame) = Some v /\
     pointerPosition (last frames blank_frame)
     = getPos (getNodesForVisualization t) v /\
     getPos (getNodesForVisualization t) v <> None) /\
    (Search.found (fst (search v t)) = false ->
     Z.of_nat (List.length frames)
     = Z.max 1 (2 * Z.of_nat (List.length (Search.path (fst (search v t)))))).
Proof.
  unfold handleSearch, search.
  destruct (search_loop_path v t) as (Hall & Hfound).
  destruct (search_loop v t) as [fnd p]. cbn [fst snd Search.found
                                               Search.path] in *.
  set (nodes := getNodesForVisualization t).
  assert (Hloc : Forall (fun w => getPos nodes w <> None) p).
  { eapply Forall_impl; [|exact Hall]. intros w Hw Hnone.
    apply getPos_None_iff in Hnone. tauto. }
  eexists. split; [reflexivity|].
  rewrite generatePathFrames_frames.
  destruct p as [|w p'].
  - cbn [fromPath]. destruct fnd.
    + destruct (Hfound eq_refl) as [_ Hnn]. congruence.
    + cbn. repeat split; discriminate.
  - pose proof (fromPath_located nodes (w :: p') [] [] Hloc
                  ltac:(discriminate)) as H.
    destruct (fromPath (getPos nodes) [] [] (w :: p')) as [[fs vis] es].
    destruct H as (Hv & Hlen & _ & pos & Hpos & Hl).
    cbn [app] in Hv. subst vis.
    assert (Hfs : fs <> []).
    { intros ->. cbn [List.length] in Hlen. lia. }
    destruct fnd.
    + destruct (Hfound eq_refl) as [Hlast _]. rewrite Hlast in Hpos.
      cbn [final_frames]. rewrite Hpos.
      assert (Hl' : last (blank_frame :: fs
                            ++ [arrival_frame v pos (w :: p') es]) blank_frame
                    = arrival_frame v pos (w :: p') es).
      { change (blank_frame :: fs ++ [arrival_frame v pos (w :: p') es])
          with ((blank_frame :: fs) ++ [arrival_frame v pos (w :: p') es]).
        apply last_last. }
      rewrite Hl'. split; [reflexivity|].
      split; [|discriminate]. intros _.
      split; [cbn [List.length] in *; rewrite length_app;
              cbn [List.length]; lia|].
      repeat split. discriminate.
    + cbn [final_frames]. rewrite app_nil_r.
      assert (Hl' : last (blank_frame :: fs) blank_frame = last fs blank_frame)
        by (destruct fs; [congruence | reflexivity]).
      rewrite Hl', Hl. split; [reflexivity|].
      split; [discriminate|]. intros _. cbn [List.length] in *. lia.
Qed.

(** X21.  A traversal handler starts no animation on the empty tree.  On
    any other tree every event of the traversal has a coordinate, so the
    animation has one frame per event plus the blank and the completion
    frame, three per node plus two, and the completion frame lists as
    visited the values the traversal returns, in its order. *)
Theorem traversal_animation_length (k : order) (t : tree) :
  (t = null -> handleOrder k t = None) /\
  (t <> null ->
   exists frames,
     handleOrder k t = Some frames /\
     Z.of_nat (List.length frames) = 3 * size t + 2 /\
     last frames blank_frame
     = completion_frame (Detailed.values (detailed k t))).
Proof.
  assert (Hh : handleOrder k t = handleTraversal (detailed k t) t)
    by now destruct k.
  rewrite Hh. unfold handleTraversal.
  rewrite detailed_values, detailed_steps. split.
  - intros ->. now destruct k.
  - intros Hnn.
    destruct (visit_order k t) as [|w ws] eqn:Ev.
    { pose proof (Permutation_length (visit_order_perm k t)) as Hlen.
      rewrite Ev in Hlen. destruct t as [|cv l r]; [congruence|].
      cbn [elements] in Hlen. rewrite length_app in Hlen. cbn in Hlen. lia. }
    rewrite <- Ev. eexists. split; [reflexivity|].
    set (nodes := getNodesForVisualization t).
    assert (Hall : Forall (fun st =>
                             getPos nodes (Step.value st) <> None /\
                             (Step.action st = "enter"%string
                              \/ Step.action st = "visit"%string
                              \/ Step.action st = "exit"%string))
                     (event_log k t)).
    { eapply Forall_impl; [|apply event_log_actions].
      intros st [Hin Ha]. split; [|exact Ha].
      intros Hnone. apply getPos_None_iff in Hnone. tauto. }
    unfold generateTraversalFrames.
    fold (traversal_state nodes (event_log k t)).
    split.
    + rewrite length_app, (traversal_state_length nodes _ Hall).
      pose proof (event_log_length k t). cbn [List.length]. lia.
    + rewrite last_last, traversal_state_visited, visited_of_located.
      * now rewrite (proj1 (proj2 (event_log_values k t))).
      * eapply Forall_impl; [|exact Hall]. cbn. tauto.
Qed.

Lemma traversal_animation_length_witness :
  exists frames,
    handleOrder Preorder example_tree = Some frames /\
    Z.of_nat (List.length frames) = 3 * size example_tree + 2 /\
    last frames blank_frame
    = completion_frame (Detailed.values (detailed Preorder example_tree)).
Proof.
  apply (proj2 (traversal_animation_length Preorder example_tree)).
  vm_compute. discriminate.
Defined.

(* ================================================================= *)
(** ** Playback *)

Section PlaybackProofs.

Lemma array_get_in_range {A : Type} (l : list A) (i : Z) :
  0 <= i < Z.of_nat (List.length l) -> exists x, array_get l i = Some x.
Proof.
  intros [H0 H1]. unfold array_get.
  destruct (Z.ltb_spec i 0); [lia|].
  destruct (nth_error l (Z.to_nat i)) as [x|] eqn:E; [now exists x|].
  apply nth_error_None in E. lia.
Qed.

Ltac sync_done :=
  eexists; split; [reflexivity|];
  cbn [Playback.traversalFrames Playback.currentStep Playback.isPlaying
         Playback.isTraversalActive Playback.shown applyFrame setCurrentStep
         setIsPlaying];
  repeat split; first [reflexivity | lia | assumption].

(** Every control keeps the frames, keeps the animation open and leaves
    the screen on the frame of the current step; none throws. *)
Lemma control_step_sync (c : control) (s : Playback.state) :
  in_sync s ->
  exists s',
    control_step c s = Some s' /\
    Playback.traversalFrames s' = Playback.traversalFrames s /\
    Playback.isTraversalActive s' = Playback.isTraversalActive s /\
    in_sync s'.
Proof.
  intros [Hr Hs]. destruct s as [frames step playing active type f].
  cbn [Playback.traversalFrames Playback.currentStep Playback.shown] in *.
  assert (Hfirst : exists f0, array_get frames 0 = Some f0)
    by (apply array_get_in_range; lia).
  destruct Hfirst as [f0 Hf0].
  destruct c; cbn [control_step]; unfold playbackTimeout, handlePlayPause,
    handleStepForward, handleStepBackward, handleReset, in_sync;
    cbn [Playback.traversalFrames Playback.currentStep Playback.isPlaying
           Playback.isTraversalActive Playback.shown setCurrentStep
           setIsPlaying].
  - destruct (playing && active); [|sync_done].
    destruct (Z.ltb_spec step (Z.of_nat (List.length frames) - 1)).
    + destruct (array_get_in_range frames (step + 1)) as [g Hg]; [lia|].
      rewrite Hg. sync_done.
    + sync_done.
  - destruct (Z.geb_spec step (Z.of_nat (List.length frames) - 1)).
    + rewrite Hf0. sync_done.
    + sync_done.
  - destruct (Z.ltb_spec step (Z.of_nat (List.length frames) - 1)).
    + destruct (array_get_in_range frames (step + 1)) as [g Hg]; [lia|].
      rewrite Hg. sync_done.
    + sync_done.
  - destruct (Z.gtb_spec step 0).
    + destruct (array_get_in_range frames (step - 1)) as [g Hg]; [lia|].
      rewrite Hg. sync_done.
    + sync_done.
  - rewrite Hf0. sync_done.
Qed.

Lemma controls_sync (cs : list control) (s : Playback.state) :
  in_sync s ->
  exists s',
    controls cs s = Some s' /\
    Playback.traversalFrames s' = Playback.traversalFrames s /\
    Playback.isTraversalActive s' = Playback.isTraversalActive s /\
    in_sync s'.
Proof.
  revert s. induction cs as [|c cs IH]; intros s Hs.
  - exists s. split; [reflexivity|]. split; [reflexivity|].
    split; [reflexivity | exact Hs].
  - destruct (control_step_sync c s Hs) as (s1 & H1 & Hf1 & Ha1 & Hs1).
    destruct (IH s1 Hs1) as (s' & H' & Hf' & Ha' & Hs').
    exists s'. cbn [controls]. rewrite H1.
    split; [exact H'|]. split; [congruence|]. split; [congruence | exact Hs'].
Qed.

Lemma startAnimation_sync (type : string) (frames : list AnimationFrame)
    (s : Playback.state) :
  frames <> [] ->
  exists s0,
    startAnimation type frames s = Some s0 /\
    Playback.traversalFrames s0 = frames /\
    Playback.currentStep s0 = 0 /\
    Playback.isPlaying s0 = true /\
    Playback.isTraversalActive s0 = true /\
    in_sync s0.
Proof.
  intros Hne. destruct frames as [|f0 frames']; [congruence|].
  unfold startAnimation. cbn [List.length].
  destruct (Z.gtb_spec (Z.of_nat (S (List.length frames'))) 0); [|lia].
  eexists. split; [reflexivity|].
  cbn [applyFrame array_get Z.ltb Z.compare Z.to_nat nth_error
         Playback.traversalFrames Playback.currentStep Playback.isPlaying
         Playback.isTraversalActive Playback.shown].
  unfold in_sync.
  cbn [Playback.traversalFrames Playback.currentStep Playback.shown
         List.length].
  repeat split; first [reflexivity | lia].
Qed.

(** While it is playing, each timeout moves one step on, up to the last
    step. *)
Lemma timeouts_advance (k : nat) (s : Playback.state) :
  in_sync s ->
  Playback.isPlaying s = true -> Playback.isTraversalActive s = true ->
  Playback.currentStep s + Z.of_nat k
  <= Z.of_nat (List.length (Playback.traversalFrames s)) - 1 ->
  exists s',
    controls (repeat Timeout k) s = Some s' /\
    Playback.traversalFrames s' = Playback.traversalFrames s /\
    Playback.currentStep s' = Playback.currentStep s + Z.of_nat k /\
    Playback.isPlaying s' = true /\ Playback.isTraversalActive s' = true /\
    in_sync s'.
Proof.
  revert s. induction k as [|k IH]; intros s Hs Hp Ha Hk.
  - exists s. split; [reflexivity|]. split; [reflexivity|].
    split; [lia|]. split; [exact Hp|]. split; [exact Ha | exact Hs].
  - destruct s as [frames step playing active type f].
    cbn [Playback.traversalFrames Playback.currentStep Playback.isPlaying
           Playback.isTraversalActive] in *. subst playing active.
    destruct Hs as [Hr Hsh].
    cbn [Playback.traversalFrames Playback.currentStep Playback.shown] in *.
    destruct (array_get_in_range frames (step + 1)) as [g Hg]; [lia|].
    cbn [repeat controls control_step]. unfold playbackTimeout.
    cbn [Playback.traversalFrames Playback.currentStep Playback.isPlaying
           Playback.isTraversalActive andb setCurrentStep].
    destruct (Z.ltb_spec step (Z.of_nat (List.length frames) - 1)); [|lia].
    rewrite Hg. cbn [applyFrame Playback.traversalFrames
                       Playback.currentStep Playback.isPlaying
                       Playback.isTraversalActive Playback.traversalType].
    set (s1 := {| Playback.traversalFrames := frames;
                  Playback.currentStep := step + 1;
                  Playback.isPlaying := true;
                  Playback.isTraversalActive := true;
                  Playback.traversalType := type;
                  Playback.shown := g |}).
    assert (Hs1 : in_sync s1) by (split; cbn; [lia | exact Hg]).
    destruct (IH s1 Hs1 eq_refl eq_refl)
      as (s' & H' & Hf' & Hst' & Hp' & Ha' & Hs'); [cbn; lia|].
    exists s'. split; [exact H'|]. split; [exact Hf'|].
    split; [rewrite Hst'; cbn; lia|].
    split; [exact Hp'|]. split; [exact Ha' | exact Hs'].
Qed.

(** At the last step a timeout stops the playing, and once stopped
    further timeouts change nothing. *)
Lemma timeouts_stop (k : nat) (s : Playback.state) :
  Playback.isTraversalActive s = true ->
  Playback.currentStep s
  = Z.of_nat (List.length (Playback.traversalFrames s)) - 1 ->
  (1 <= k)%nat \/ Playback.isPlaying s = false ->
  controls (repeat Timeout k) s = Some (setIsPlaying false s).
Proof.
  assert (Hstopped : forall j s1,
             Playback.isPlaying s1 = false ->
             controls (repeat Timeout j) s1 = Some s1).
  { induction j as [|j IHj]; intros s1 Hp; [reflexivity|].
    cbn [repeat controls control_step]. unfold playbackTimeout.
    rewrite Hp. cbn [andb]. now apply IHj. }
  intros Ha Hst Hk. destruct s as [frames step playing active type f].
  cbn [Playback.traversalFrames Playback.currentStep Playback.isPlaying
         Playback.isTraversalActive] in *. subst active.
  destruct playing.
  - destruct k as [|k]; [destruct Hk; [lia | discriminate]|].
    cbn [repeat controls control_step]. unfold playbackTimeout.
    cbn [Playback.traversalFrames Playback.currentStep Playback.isPlaying
           Playback.isTraversalActive andb].
    destruct (Z.ltb_spec step (Z.of_nat (List.length frames) - 1)); [lia|].
    now apply Hstopped.
  - now apply Hstopped.
Qed.

End PlaybackProofs.

Lemma controls_app (cs1 cs2 : list control) (s : Playback.state) :
  controls (cs1 ++ cs2) s
  = match controls cs1 s with
    | None => None
    | Some s' => controls cs2 s'
    end.
Proof.
  revert s. induction cs1 as [|c cs1 IH]; intros s; [reflexivity|].
  cbn [app controls]. destruct (control_step c s); [apply IH | reflexivity].
Qed.

Lemma array_get_last {A : Type} (l : list A) (x d : A) :
  array_get l (Z.of_nat (List.length l) - 1) = Some x -> last l d = x.
Proof.
  destruct l as [|a l] using rev_ind; [discriminate|].
  rewrite length_app. cbn [List.length].
  replace (Z.of_nat (List.length l + 1) - 1) with (Z.of_nat (List.length l))
    by lia.
  rewrite array_get_here, last_last. congruence.
Qed.

Lemma generators_push_a_frame (currentNodes : list VisNode.t)
    (path : list Z) (finalHighlight : option Z) (steps : list Step.t) :
  generatePathFrames currentNodes path finalHighlight <> [] /\
  generateTraversalFrames currentNodes steps <> [].
Proof.
  split.
  - rewrite generatePathFrames_frames.
    destruct (fromPath _ _ _ _) as [[fs vis] es]. discriminate.
  - unfold generateTraversalFrames.
    destruct (TraversalLoop.frames _); discriminate.
Qed.

(* ================================================================= *)
(** ** Playback: properties *)

(** X22.  Both generators return at least one frame, and an animation
    started on at least one frame stays in step: whatever the timer and
    the play/pause, step and reset buttons do afterwards, no handler
    throws, the frames stay the same, the current step is an index of the
    frames and the screen shows the frame at that index. *)
Theorem playback_stays_in_sync (type : string) (frames : list AnimationFrame)
    (s : Playback.state) (cs : list control) :
  (forall currentNodes path finalHighlight steps,
     generatePathFrames currentNodes path finalHighlight <> [] /\
     generateTraversalFrames currentNodes steps <> []) /\
  (frames <> [] ->
   exists s0 s',
     startAnimation type frames s = Some s0 /\
     controls cs s0 = Some s' /\
     Playback.traversalFrames s' = frames /\
     Playback.isTraversalActive s' = true /\
     0 <= Playback.currentStep s' < Z.of_nat (List.length frames) /\
     array_get frames (Playback.currentStep s') = Some (Playback.shown s')).
Proof.
  split; [intros; apply generators_push_a_frame|].
  intros Hne.
  destruct (startAnimation_sync type frames s Hne)
    as (s0 & H0 & Hf0 & _ & _ & Ha0 & Hs0).
  destruct (controls_sync cs s0 Hs0) as (s' & H' & Hf' & Ha' & [Hr Hsh]).
  exists s0, s'. rewrite Hf', Hf0 in *.
  repeat split; try assumption; try lia. congruence.
Qed.

Lemma playback_stays_in_sync_witness :
  exists s0 s',
    startAnimation "Search 7" [blank_frame; completion_frame [7]]
      (handleCloseTraversal
         {| Playback.traversalFrames := []; Playback.currentStep := 0;
            Playback.isPlaying := false; Playback.isTraversalActive := false;
            Playback.traversalType := ""; Playback.shown := blank_frame |})
    = Some s0 /\
    controls [Timeout; Timeout; PlayPause; StepBackward; Reset] s0 = Some s' /\
    Playback.traversalFrames s' = [blank_frame; completion_frame [7]] /\
    Playback.isTraversalActive s' = true /\
    0 <= Playback.currentStep s'
      < Z.of_nat (List.length [blank_frame; completion_frame [7]]) /\
    array_get [blank_frame; completion_frame [7]] (Playback.currentStep s')
    = Some (Playback.shown s').
Proof.
  apply (proj2 (playback_stays_in_sync "Search 7"
                  [blank_frame; completion_frame [7]] _ _)).
  discriminate.
Defined.

(** X23.  Left alone, an animation of n frames plays itself: after k
    timeouts, k < n, it is playing at step k with frame k on the screen;
    from the n-th timeout on it has stopped at the last step, with the
    last frame on the screen. *)
Theorem autoplay_runs_to_the_end (type : string)
    (frames : list AnimationFrame) (s : Playback.state) (k : nat) :
  frames <> [] ->
  exists s0 s',
    startAnimation type frames s = Some s0 /\
    controls (repeat Timeout k) s0 = Some s' /\
    ((k < List.length frames)%nat ->
     Playback.currentStep s' = Z.of_nat k /\
     Playback.isPlaying s' = true /\
     array_get frames (Z.of_nat k) = Some (Playback.shown s')) /\
    ((List.length frames <= k)%nat ->
     Playback.currentStep s' = Z.of_nat (List.length frames) - 1 /\
     Playback.isPlaying s' = false /\
     Playback.shown s' = last frames blank_frame).
Proof.
  intros Hne.
  destruct (startAnimation_sync type frames s Hne)
    as (s0 & H0 & Hf0 & Hst0 & Hp0 & Ha0 & Hs0).
  assert (Hlen : (1 <= List.length frames)%nat)
    by (destruct frames; [congruence | cbn; lia]).
  destruct (Nat.lt_ge_cases k (List.length frames)) as [Hk|Hk].
  - destruct (timeouts_advance k s0 Hs0 Hp0 Ha0)
      as (s' & H' & Hf' & Hst' & Hp' & _ & [_ Hsh]);
      [rewrite Hf0, Hst0; lia|].
    exists s0, s'. split; [exact H0|]. split; [exact H'|].
    split; [|lia]. intros _. rewrite Hst0 in Hst'.
    split; [exact Hst'|]. split; [exact Hp'|].
    now rewrite Hf', Hf0, Hst' in Hsh.
  - destruct (timeouts_advance (List.length frames - 1) s0 Hs0 Hp0 Ha0)
      as (s1 & H1 & Hf1 & Hst1 & Hp1 & Ha1 & [_ Hsh1]);
      [rewrite Hf0, Hst0; lia|].
    rewrite Hst0 in Hst1. rewrite Hf1, Hf0 in Hsh1.
    assert (Hst1' : Playback.currentStep s1
                    = Z.of_nat (List.length (Playback.traversalFrames s1)) - 1)
      by (rewrite Hf1, Hf0, Hst1; lia).
    assert (Hmore : (1 <= k - (List.length frames - 1))%nat) by lia.
    pose proof (timeouts_stop (k - (List.length frames - 1)) s1 Ha1 Hst1'
                  (or_introl Hmore)) as Hstop.
    exists s0, (setIsPlaying false s1). split; [exact H0|].
    split.
    + replace k with ((List.length frames - 1)
                      + (k - (List.length frames - 1)))%nat at 1 by lia.
      rewrite repeat_app, controls_app, H1. exact Hstop.
    + split; [lia|]. intros _. cbn [setIsPlaying Playback.currentStep
                                     Playback.isPlaying Playback.shown].
      split; [rewrite Hst1; lia|]. split; [reflexivity|].
      symmetry. apply array_get_last. rewrite <- Hsh1. f_equal.
      rewrite Hst1. lia.
Qed.

Lemma autoplay_runs_to_the_end_witness :
  exists s0 s',
    startAnimation "Inorder" [blank_frame; completion_frame [7]]
      {| Playback.traversalFrames := []; Playback.currentStep := 0;
         Playback.isPlaying := false; Playback.isTraversalActive := false;
         Playback.traversalType := ""; Playback.shown := blank_frame |}
    = Some s0 /\
    controls (repeat Timeout 5) s0 = Some s' /\
    Playback.isPlaying s' = false /\
    Playback.shown s' = completion_frame [7].
Proof.
  destruct (autoplay_runs_to_the_end "Inorder"
              [blank_frame; completion_frame [7]]
              {| Playback.traversalFrames := []; Playback.currentStep := 0;
                 Playback.isPlaying := false;
                 Playback.isTraversalActive := false;
                 Playback.traversalType := ""; Playback.shown := blank_frame |}
              5 ltac:(discriminate))
    as (s0 & s' & H0 & H' & _ & Hend).
  exists s0, s'. split; [exact H0|]. split; [exact H'|].
  apply Hend. cbn. lia.
Defined.

(** X24.  Stepping forward and then backward returns to the state before:
    anywhere before the last step, [handleStepBackward] undoes
    [handleStepForward]; at the last step stepping forward changes
    nothing, and at step 0 stepping backward changes nothing. *)
Theorem step_forward_backward_inverse (s : Playback.state) :
  in_sync s ->
  (Playback.currentStep s
   < Z.of_nat (List.length (Playback.traversalFrames s)) - 1 ->
   exists s1,
     handleStepForward s = Some s1 /\
     Playback.currentStep s1 = Playback.currentStep s + 1 /\
     handleStepBackward s1 = Some s) /\
  (Playback.currentStep s
   = Z.of_nat (List.length (Playback.traversalFrames s)) - 1 ->
   handleStepForward s = Some s) /\
  (Playback.currentStep s = 0 -> handleStepBackward s = Some s).
Proof.
  intros [Hr Hsh]. destruct s as [frames step playing active type f].
  cbn [Playback.traversalFrames Playback.currentStep Playback.shown] in *.
  unfold handleStepForward, handleStepBackward.
  cbn [Playback.traversalFrames Playback.currentStep setCurrentStep
         Playback.isPlaying Playback.isTraversalActive Playback.traversalType
         Playback.shown].
  split; [|split].
  - intros Hlt.
    destruct (Z.ltb_spec step (Z.of_nat (List.length frames) - 1)); [|lia].
    destruct (array_get_in_range frames (step + 1)) as [g Hg]; [lia|].
    rewrite Hg.
    exists {| Playback.traversalFrames := frames;
              Playback.currentStep := step + 1;
              Playback.isPlaying := playing;
              Playback.isTraversalActive := active;
              Playback.traversalType := type;
              Playback.shown := g |}.
    split; [reflexivity|]. split; [reflexivity|].
    cbn [Playback.traversalFrames Playback.currentStep Playback.isPlaying
           Playback.isTraversalActive Playback.traversalType Playback.shown].
    destruct (Z.gtb_spec (step + 1) 0); [|lia].
    replace (step + 1 - 1) with step by lia. now rewrite Hsh.
  - intros ->.
    now destruct (Z.ltb_spec (Z.of_nat (List.length frames) - 1)
                    (Z.of_nat (List.length frames) - 1)); [lia|].
  - intros ->. reflexivity.
Qed.

Lemma step_forward_backward_inverse_witness :
  exists s1,
    handleStepForward
      {| Playback.traversalFrames := [blank_frame; completion_frame [7]];
         Playback.currentStep := 0; Playback.isPlaying := false;
         Playback.isTraversalActive := true;
         Playback.traversalType := "Inorder"; Playback.shown := blank_frame |}
    = Some s1 /\
    Playback.currentStep s1 = 0 + 1 /\
    handleStepBackward s1
    = Some {| Playback.traversalFrames := [blank_frame; completion_frame [7]];
              Playback.currentStep := 0; Playback.isPlaying := false;
              Playback.isTraversalActive := true;
              Playback.traversalType := "Inorder";
              Playback.shown := blank_frame |}.
Proof.
  apply (proj1 (step_forward_backward_inverse
                  {| Playback.traversalFrames :=
                       [blank_frame; completion_frame [7]];
                     Playback.currentStep := 0; Playback.isPlaying := false;
                     Playback.isTraversalActive := true;
                     Playback.traversalType := "Inorder";
                     Playback.shown := blank_frame |}
                  ltac:(split; [cbn; lia | reflexivity]))).
  cbn. lia.
Defined.

(** X25.  While an animation started on at least one frame is on, the
    controls never see it at its end: [isAtEnd] compares the current step
    with the number of frames, which the step never reaches, so the status
    line never reads 'Traversal Complete'; and the loop of the Skip-to-End
    button, whose condition is that same comparison on the props of one
    render, is still running after any number of turns. *)
Theorem controls_never_at_end (type : string) (frames : list AnimationFrame)
    (s : Playback.state) (cs : list control) :
  frames <> [] ->
  exists s0 s',
    startAnimation type frames s = Some s0 /\
    controls cs s0 = Some s' /\
    isAtEnd s' = false /\
    controlsStatus s' <> "✓ Traversal Complete"%string /\
    forall fuel requested, skipToEnd fuel s' requested = None.
Proof.
  intros Hne.
  destruct (startAnimation_sync type frames s Hne)
    as (s0 & H0 & Hf0 & _ & _ & Ha0 & Hs0).
  destruct (controls_sync cs s0 Hs0) as (s' & H' & Hf' & Ha' & [Hr Hsh]).
  exists s0, s'. split; [exact H0|]. split; [exact H'|].
  assert (He : isAtEnd s' = false).
  { unfold isAtEnd.
    destruct (Z.geb_spec (Playback.currentStep s')
                (Z.of_nat (List.length (Playback.traversalFrames s'))));
      [lia | reflexivity]. }
  split; [exact He|]. split.
  - unfold controlsStatus. rewrite He.
    destruct (Playback.isPlaying s'); discriminate.
  - induction fuel as [|fuel IH]; intros requested; [reflexivity|].
    cbn [skipToEnd].
    destruct (Z.ltb_spec (Playback.currentStep s')
                (Z.of_nat (List.length (Playback.traversalFrames s'))));
      [apply IH | lia].
Qed.

Lemma controls_never_at_end_witness :
  exists s0 s',
    startAnimation "Inorder" [blank_frame; completion_frame [7]]
      {| Playback.traversalFrames := []; Playback.currentStep := 0;
         Playback.isPlaying := false; Playback.isTraversalActive := false;
         Playback.traversalType := ""; Playback.shown := blank_frame |}
    = Some s0 /\
    controls [Timeout; Timeout; Timeout] s0 = Some s' /\
    isAtEnd s' = false /\
    controlsStatus s' <> "✓ Traversal Complete"%string /\
    forall fuel requested, skipToEnd fuel s' requested = None.
Proof.
  apply (controls_never_at_end "Inorder" [blank_frame; completion_frame [7]]).
  discriminate.
Defined.

(* ================================================================= *)
(** ** A session *)

Section SessionProofs.

Lemma sorted_within (l : list Z) (a b : Z) :
  StronglySorted Z.lt l -> Forall (fun x => a <= x <= b) l ->
  Z.of_nat (List.length l) <= Z.max 0 (b - a + 1).
Proof.
  revert a. induction l as [|h l IH]; intros a S F; cbn [List.length]; [lia|].
  inversion S as [|? ? S' Hh]; subst. inversion F as [|? ? Fh F']; subst.
  assert (H : Forall (fun x => h + 1 <= x <= b) l).
  { rewrite Forall_forall in *. intros x Hx.
    specialize (Hh x Hx). specialize (F' x Hx). lia. }
  specialize (IH (h + 1) S' H). lia.
Qed.

Lemma path_frames_pushed (currentNodes : list VisNode.t) (path : list Z)
    (finalHighlight : option Z) :
  generatePathFrames currentNodes path finalHighlight <> [].
Proof. exact (proj1 (generators_push_a_frame _ path finalHighlight [])). Qed.

Lemma traversal_frames_pushed (currentNodes : list VisNode.t)
    (steps : list Step.t) :
  generateTraversalFrames currentNodes steps <> [].
Proof. exact (proj2 (generators_push_a_frame _ [] None steps)). Qed.

Lemma traversal_frames_start (currentNodes : list VisNode.t)
    (steps : list Step.t) :
  array_get (generateTraversalFrames currentNodes steps) 0 = Some blank_frame.
Proof.
  unfold generateTraversalFrames. fold (traversal_state currentNodes steps).
  assert (H : exists fs,
             TraversalLoop.frames (traversal_state currentNodes steps)
             = blank_frame :: fs).
  { induction steps as [|step pre IH] using rev_ind.
    - now exists [].
    - destruct IH as (fs & IH). rewrite traversal_state_snoc.
      destruct (traversal_iteration_frames currentNodes
                  (traversal_state currentNodes pre) step) as (gs & -> & _).
      rewrite IH. now exists (fs ++ gs). }
  destruct H as (fs & ->). reflexivity.
Qed.

Lemma handleInputChange_well_formed (value : string) (s : App.state) :
  well_formed s -> well_formed (handleInputChange value s).
Proof.
  intros (B & R & I & P). unfold handleInputChange.
  destruct value as [|c rest].
  { split; [exact B|]. split; [exact R|]. split; [now left | exact P]. }
  destruct (digits_only (String c rest) && _) eqn:E.
  2:{ split; [exact B|]. split; [exact R|]. split; [exact I | exact P]. }
  apply andb_true_iff in E as [_ E].
  destruct (parseInt (String c rest)) as [n|] eqn:En; [|discriminate].
  apply andb_true_iff in E as [E1 E2].
  apply Z.geb_le in E1. apply Z.leb_le in E2.
  split; [exact B|]. split; [exact R|]. split; [|exact P].
  right. exists n. cbn [App.inputValue setInputValue].
  split; [exact En | lia].
Qed.

Lemma animate_well_formed (type : string) (frames : list AnimationFrame)
    (root : tree) (input : string) (s : App.state) :
  frames <> [] -> BST root ->
  (forall x, In_tree x root -> 1 <= x <= 99) ->
  (input = ""%string \/ exists n, parseInt input = Some n /\ 1 <= n <= 99) ->
  exists s',
    animate type frames root input s = Some s' /\
    well_formed s' /\
    App.bst s' = root /\
    App.inputValue s' = input /\
    Playback.traversalFrames (App.playback s') = frames /\
    Playback.currentStep (App.playback s') = 0 /\
    Playback.isPlaying (App.playback s') = true /\
    Playback.isTraversalActive (App.playback s') = true.
Proof.
  intros Hne B R I. unfold animate.
  destruct (startAnimation_sync type frames (App.playback s) Hne)
    as (p & -> & Hf & Hst & Hpl & Hact & Hsync).
  eexists. split; [reflexivity|]. cbn [App.bst App.inputValue App.playback].
  split; [|now repeat split].
  split; [exact B|]. split; [exact R|]. split; [exact I|].
  intros _. exact Hsync.
Qed.

Lemma handleOrder_frames (k : order) (t : tree) :
  handleOrder k t
  = match t with
    | null => None
    | BSTNode _ _ _ =>
        Some (generateTraversalFrames (getNodesForVisualization t)
                (Detailed.steps (detailed k t)))
    end.
Proof.
  assert (Hh : handleOrder k t = handleTraversal (detailed k t) t)
    by now destruct k.
  rewrite Hh. unfold handleTraversal. rewrite detailed_values.
  destruct t as [|cv l r]; [now destruct k|].
  destruct (visit_order k (BSTNode cv l r)) as [|w ws] eqn:Ev; [|reflexivity].
  pose proof (Permutation_length (visit_order_perm k (BSTNode cv l r))) as Hlen.
  rewrite Ev in Hlen. cbn [elements] in Hlen. rewrite length_app in Hlen.
  cbn in Hlen. lia.
Qed.

Lemma click_step (k : order) (s : App.state) :
  app_step (click k) s
  = clickAnimation
      (match k with
       | Inorder => "Inorder"
       | Preorder => "Preorder"
       | Postorder => "Postorder"
       end)
      (handleOrder k (App.bst s)) (App.bst s) s.
Proof. now destruct k. Qed.

Lemma same_state (s : App.state) :
  {| App.bst := App.bst s; App.inputValue := App.inputValue s;
     App.playback := App.playback s |} = s.
Proof. now destruct s. Qed.

Lemma clickAnimation_well_formed (type : string)
    (frames : option (list AnimationFrame)) (s : App.state) :
  (forall fs, frames = Some fs -> fs <> []) ->
  well_formed s ->
  exists s',
    clickAnimation type frames (App.bst s) s = Some s' /\ well_formed s'.
Proof.
  intros Hne (B & R & I & P). unfold clickAnimation.
  destruct frames as [fs|].
  - destruct (animate_well_formed type fs (App.bst s) (App.inputValue s) s)
      as (s' & H & W & _); auto.
    exists s'. now split.
  - rewrite same_state. exists s. split; [reflexivity|].
    split; [exact B|]. split; [exact R|]. split; [exact I | exact P].
Qed.

Lemma handleMinMax_frames (result : MinMax.result) (root : tree)
    (fs : list AnimationFrame) :
  handleMinMax result root = Some fs -> fs <> [].
Proof.
  unfold handleMinMax. destruct (MinMax.value result) as [m|]; [|discriminate].
  intros E.
  replace fs with (generatePathFrames (getNodesForVisualization root)
                     (MinMax.path result) (Some m)) by congruence.
  apply path_frames_pushed.
Qed.

Lemma typed_value (s : App.state) (c : Ascii.ascii) (rest : string) :
  well_formed s -> App.inputValue s = String c rest ->
  exists n, parseInt (App.inputValue s) = Some n /\ 1 <= n <= 99.
Proof.
  intros (_ & _ & [I|I] & _) E; [congruence | exact I].
Qed.

Lemma app_step_well_formed (e : event) (s : App.state) :
  well_formed s ->
  exists s', app_step e s = Some s' /\ well_formed s'.
Proof.
  intros W. pose proof W as (B & R & I & P).
  destruct e; cbn [app_step].
  - eexists. split; [reflexivity|]. now apply handleInputChange_well_formed.
  - unfold clickInsert. destruct (App.inputValue s) as [|c rest] eqn:E.
    { exists s. now split. }
    destruct (typed_value s c rest W E) as (n & Hn & Hr).
    rewrite E in Hn. rewrite Hn. unfold handleInsert.
    pose proof (insert_BST n (App.bst s) B) as B'.
    pose proof (insert_In n (App.bst s)) as In'.
    destruct (insert n (App.bst s)) as [result root']. cbn [snd] in B', In'.
    destruct (animate_well_formed ("Insert " ++ show_number n)
                (generatePathFrames (getNodesForVisualization root')
                   (Op.path result) None) root' "" s)
      as (s' & H & W' & _).
    + apply path_frames_pushed.
    + exact B'.
    + intros x Hx. apply In' in Hx as [->|Hx]; [lia | now apply R].
    + now left.
    + exists s'. now split.
  - unfold clickSearch. destruct (App.inputValue s) as [|c rest] eqn:E.
    { exists s. now split. }
    destruct (typed_value s c rest W E) as (n & Hn & Hr).
    rewrite E in Hn. rewrite Hn. unfold handleSearch, search.
    destruct (search_loop n (App.bst s)) as [fnd p].
    destruct (animate_well_formed ("Search " ++ show_number n)
                (generatePathFrames (getNodesForVisualization (App.bst s))
                   p (if fnd then Some n else None))
                (App.bst s) (String c rest) s)
      as (s' & H & W' & _).
    + apply path_frames_pushed.
    + exact B.
    + exact R.
    + right. now exists n.
    + exists s'. now split.
  - unfold clickRemove. destruct (App.inputValue s) as [|c rest] eqn:E.
    { exists s. now split. }
    destruct (typed_value s c rest W E) as (n & Hn & Hr).
    rewrite E in Hn. rewrite Hn. unfold handleRemove.
    pose proof (remove_BST n (App.bst s) B) as B'.
    pose proof (fun x => remove_In n (App.bst s) x B) as In'.
    destruct (remove n (App.bst s)) as [result root']. cbn [snd] in B', In'.
    destruct (animate_well_formed ("Remove " ++ show_number n)
                (generatePathFrames (getNodesForVisualization root')
                   (Op.path result) None) root' "" s)
      as (s' & H & W' & _).
    + apply path_frames_pushed.
    + exact B'.
    + intros x Hx. apply In' in Hx as [Hx _]. now apply R.
    + now left.
    + exists s'. now split.
  - unfold clickFindMin, handleFindMin, findMin.
    destruct (App.bst s) as [|v l r] eqn:Et.
    + cbn. rewrite <- Et, same_state. exists s. now split.
    + destruct (findMin_loop v l) as [p m]. rewrite <- Et.
      apply clickAnimation_well_formed; [|exact W].
      intros fs. apply handleMinMax_frames.
  - unfold clickFindMax, handleFindMax, findMax.
    destruct (App.bst s) as [|v l r] eqn:Et.
    + cbn. rewrite <- Et, same_state. exists s. now split.
    + destruct (findMax_loop v r) as [p m]. rewrite <- Et.
      apply clickAnimation_well_formed; [|exact W].
      intros fs. apply handleMinMax_frames.
  - eexists. split; [reflexivity|]. unfold handleClear, clear.
    split; [exact Logic.I|]. split; [intros x []|]. split; [now left|].
    cbn. discriminate.
  - change (clickInorder s) with (app_step (click Inorder) s).
    rewrite click_step. apply clickAnimation_well_formed; [|exact W].
    intros fs. rewrite handleOrder_frames.
    destruct (App.bst s) as [|v l r]; [discriminate|]. intros E.
    replace fs with (generateTraversalFrames
                       (getNodesForVisualization (BSTNode v l r))
                       (Detailed.steps (detailed Inorder (BSTNode v l r))))
      by congruence.
    apply traversal_frames_pushed.
  - change (clickPreorder s) with (app_step (click Preorder) s).
    rewrite click_step. apply clickAnimation_well_formed; [|exact W].
    intros fs. rewrite handleOrder_frames.
    destruct (App.bst s) as [|v l r]; [discriminate|]. intros E.
    replace fs with (generateTraversalFrames
                       (getNodesForVisualization (BSTNode v l r))
                       (Detailed.steps (detailed Preorder (BSTNode v l r))))
      by congruence.
    apply traversal_frames_pushed.
  - change (clickPostorder s) with (app_step (click Postorder) s).
    rewrite click_step. apply clickAnimation_well_formed; [|exact W].
    intros fs. rewrite handleOrder_frames.
    destruct (App.bst s) as [|v l r]; [discriminate|]. intros E.
    replace fs with (generateTraversalFrames
                       (getNodesForVisualization (BSTNode v l r))
                       (Detailed.steps (detailed Postorder (BSTNode v l r))))
      by congruence.
    apply traversal_frames_pushed.
  - eexists. split; [reflexivity|]. unfold handleGeneratePreset, clear.
    cbn [App.bst App.inputValue App.playback snd].
    split; [apply insert_all_BST; exact Logic.I|].
    split; [|split; [now left | cbn; discriminate]].
    intros x Hx. apply insert_all_In in Hx as [Hx|[]].
    destruct preset; cbn in Hx; lia.
  - destruct (Playback.isTraversalActive (App.playback s)) eqn:Ea.
    + destruct (control_step_sync c (App.playback s) (P eq_refl))
        as (p & -> & _ & _ & Hp).
      eexists. split; [reflexivity|].
      split; [exact B|]. split; [exact R|]. split; [exact I|].
      intros _. exact Hp.
    + assert (Ht : playbackTimeout (App.playback s) = Some (App.playback s)).
      { unfold playbackTimeout. rewrite Ea, andb_false_r. reflexivity. }
      exists s. split; [|exact W].
      destruct c; try reflexivity.
      rewrite Ht. unfold with_playback. now rewrite same_state.
  - destruct (Playback.isTraversalActive (App.playback s)) eqn:Ea.
    + eexists. split; [reflexivity|].
      split; [exact B|]. split; [exact R|]. split; [exact I|].
      cbn. discriminate.
    + exists s. now split.
Qed.

Lemma loaded_well_formed : well_formed loaded.
Proof.
  split; [exact I|]. split; [intros x []|]. split; [now left|].
  cbn. discriminate.
Qed.

Lemma session_well_formed (es : list event) (s : App.state) :
  well_formed s ->
  exists s', session es s = Some s' /\ well_formed s'.
Proof.
  revert s. induction es as [|e es IH]; intros s W.
  - exists s. now split.
  - destruct (app_step_well_formed e s W) as (s1 & H1 & W1).
    destruct (IH s1 W1) as (s' & H' & W').
    exists s'. cbn [session]. rewrite H1. now split.
Qed.

End SessionProofs.

(* ================================================================= *)
(** ** A session: properties *)

(** X26.  Whatever is typed, clicked and selected (the Random preset and
    the Skip-to-End button apart), from the page as it loads: no handler
    throws or parses anything but a number; the tree satisfies the
    invariant and holds only values from 1 to 99, so at most 99 of them at
    a height of at most 98; the box is empty or holds a number from 1 to
    99; and while the controls are shown the screen shows the frame of the
    current step. *)
Theorem session_keeps_values_in_range (es : list event) :
  exists s,
    session es loaded = Some s /\
    invariant (App.bst s) /\
    (forall x, In_tree x (App.bst s) -> 1 <= x <= 99) /\
    size (App.bst s) <= 99 /\
    getHeight (App.bst s) <= 98 /\
    (App.inputValue s = ""%string \/
     exists n, parseInt (App.inputValue s) = Some n /\ 1 <= n <= 99) /\
    (Playback.isTraversalActive (App.playback s) = true ->
     in_sync (App.playback s)).
Proof.
  destruct (session_well_formed es loaded loaded_well_formed)
    as (s & H & B & R & I & P).
  exists s. split; [exact H|]. split; [now apply BST_invariant|].
  split; [exact R|].
  assert (Hsize : size (App.bst s) <= 99).
  { unfold size.
    pose proof (sorted_within (elements (App.bst s)) 1 99
                  (BST_elements_sorted _ B)) as Hw.
    assert (Forall (fun x => 1 <= x <= 99) (elements (App.bst s))) as HF.
    { apply Forall_forall. intros x Hx. apply R, In_tree_elements, Hx. }
    specialize (Hw HF). lia. }
  split; [exact Hsize|].
  split; [|split; [exact I | exact P]].
  pose proof (calculateHeight_size (App.bst s)) as [Hh _].
  unfold getHeight. lia.
Qed.

(** X27.  At any moment of such a session, a click on a traversal button
    does nothing to the state when the tree is empty, and otherwise starts,
    at step 0 and playing, the animation that the generator of the
    specification (every exit event pops the stack) makes of the events of
    that traversal: the tree of a session never holds the value 0. *)
Theorem session_traversals_follow_specification (es : list event)
    (k : order) :
  exists s,
    session es loaded = Some s /\
    match App.bst s with
    | null => app_step (click k) s = Some s
    | BSTNode _ _ _ =>
        exists s',
          app_step (click k) s = Some s' /\
          App.bst s' = App.bst s /\
          App.inputValue s' = App.inputValue s /\
          Playback.traversalFrames (App.playback s')
          = fromEvents (getPos (getNodesForVisualization (App.bst s)))
              (Detailed.steps (detailed k (App.bst s))) /\
          Playback.currentStep (App.playback s') = 0 /\
          Playback.isPlaying (App.playback s') = true /\
          Playback.isTraversalActive (App.playback s') = true /\
          Playback.shown (App.playback s') = blank_frame
    end.
Proof.
  destruct (session_well_formed es loaded loaded_well_formed)
    as (s & H & B & R & I & P).
  exists s. split; [exact H|].
  rewrite click_step, handleOrder_frames.
  destruct (App.bst s) as [|v l r] eqn:Et.
  - cbn [clickAnimation]. now rewrite <- Et, same_state.
  - rewrite <- Et in *. cbn [clickAnimation].
    assert (Hz : ~ In_tree 0 (App.bst s)).
    { intros Hz. apply R in Hz. lia. }
    set (frames := generateTraversalFrames _ _).
    destruct (animate_well_formed
                (match k with
                 | Inorder => "Inorder"
                 | Preorder => "Preorder"
                 | Postorder => "Postorder"
                 end) frames (App.bst s) (App.inputValue s) s
                (traversal_frames_pushed _ _) B R I)
      as (s' & H' & (_ & _ & _ & P') & Hb & Hi & Hf & Hst & Hpl & Hact).
    exists s'. split; [exact H'|]. split; [exact Hb|]. split; [exact Hi|].
    split.
    { rewrite Hf. apply engine_logs_follow_specification; assumption. }
    split; [exact Hst|]. split; [exact Hpl|]. split; [exact Hact|].
    destruct (P' Hact) as [_ Hshown]. rewrite Hst, Hf in Hshown.
    subst frames. rewrite traversal_frames_start in Hshown. congruence.
Qed.

(* ================================================================= *)
(** ** The canvas *)

Section CanvasProofs.

Variable currentNodes : list VisNode.t.





End CanvasProofs.



(* ================================================================= *)
(** ** The canvas: properties *)

